(** * metamere: a replicated ledger node

    A shallow embedding of the core of the node (serializer, Merkle root
    and block engine, LevelDB block store and its query evaluator, the
    orchestrator's transaction intake and list of nodes, the timer of
    the proof-of-work consensus, the Raft consensus engine, the sending
    of the TCP client, the time stamp of the logger) and the properties
    of the specification that were checked against it, followed by
    further properties of the code.

    Conventions of the embedding.
    - JavaScript numbers are modelled on the integers ([Z]), printed in
      plain decimal; BigInt values are integers as well, kept apart by
      their constructor.
    - A JavaScript object is an association list in property order: plain
      data as [JSON.parse] builds it, with the methods of its prototype
      (no attribute shadows [toString]).
    - [null] and [undefined] are both "absent": an optional field is an
      [option], a guard [x == null] is a match on [None].
    - Asynchronous code is sequentialised: every handler runs to its end
      (the source serialises them with the locks "storage" and "block").
    - SHA-256, the text of a JSON document and the relational comparison
      of two JavaScript values are parameters.
    - The definitions come first, module by module, then the properties. *)

From Stdlib Require Import ZArith List String Ascii Bool Lia.
From Stdlib Require Import DecimalString DecimalZ DecimalN DecimalPos.
From Stdlib Require Import Sorted.
From stdpp Require Import base decidable option list gmap strings.
From Equations Require Import Equations.
Import ListNotations.
Set Warnings "-register-all".
Local Open Scope string_scope.
Local Open Scope list_scope.
Local Open Scope Z_scope.

(* ===================================================================== *)
(** * Outcomes of JavaScript code *)
(* ===================================================================== *)

(** A call returns a value or throws (for an asynchronous function: the
    promise is fulfilled or rejected). *)
Inductive result (A : Type) : Type :=
| Returned (a : A)
| Thrown (error : string).
Arguments Returned {A} a.
Arguments Thrown {A} error.

#[global] Instance result_ret : MRet result := fun A a => Returned a.
#[global] Instance result_bind : MBind result := fun A B f r =>
  match r with
  | Returned a => f a
  | Thrown e => Thrown e
  end.

(** A loop whose body may throw. *)
Fixpoint for_each {A S : Type} (body : S -> A -> result S) (l : list A) (s : S) : result S :=
  match l with
  | [] => Returned s
  | x :: rest =>
      match body s x with
      | Returned s' => for_each body rest s'
      | Thrown e => Thrown e
      end
  end.

(** [Array.prototype.filter] with a predicate that may throw. *)
Fixpoint filter_with {A : Type} (p : A -> result bool) (l : list A) : result (list A) :=
  match l with
  | [] => Returned []
  | x :: rest =>
      match p x with
      | Thrown e => Thrown e
      | Returned keep =>
          match filter_with p rest with
          | Thrown e => Thrown e
          | Returned kept => Returned (if keep then x :: kept else kept)
          end
      end
  end.

Definition TypeError : string := "TypeError".

(* ===================================================================== *)
(** * JavaScript values and the serializer (src/util/serializer.js) *)
(* ===================================================================== *)

Module Json.

(** Values held by the node: transactions, blocks, message payloads. *)
Inductive value : Type :=
| VNull
| VBool (b : bool)
| VNum (n : Z)
| VStr (s : string)
| VBig (n : Z)
| VArr (elems : list value)
| VObj (fields : list (string * value)).

(** The syntax tree of a JSON text (what [JSON.stringify] writes and
    [JSON.parse] reads). It has no BigInt. *)
Inductive json : Type :=
| JNull
| JBool (b : bool)
| JNum (n : Z)
| JStr (s : string)
| JArr (elems : list json)
| JObj (fields : list (string * json)).

(** [n.toString()] of an integer. *)
Definition dec (n : Z) : string := NilZero.string_of_int (Z.to_int n).

Definition join_comma (parts : list string) : string :=
  match parts with
  | [] => ""
  | p :: rest => fold_left (fun acc q => acc +:+ "," +:+ q) rest p
  end.

(** [String(v)], the coercion the regular expression test applies. *)
Fixpoint to_string (v : value) : string :=
  match v with
  | VNull => "null"
  | VBool true => "true"
  | VBool false => "false"
  | VNum n => dec n
  | VStr s => s
  | VBig n => dec n
  | VArr elems =>
      join_comma (map (fun e => match e with VNull => "" | _ => to_string e end) elems)
  | VObj _ => "[object Object]"
  end.

(** [/^[0-9]+$/.test(value)] together with [BigInt(value)]: the digits of
    a non-empty all-digit string. *)
Definition digits_of (v : value) : option Z :=
  match NilZero.uint_of_string (to_string v) with
  | Some d => Some (Z.of_uint d)
  | None => None
  end.

(** The replacer of [serialize]: a BigInt becomes its decimal string.
    [JSON.stringify] calls it on every value, top down. *)
Fixpoint serialize (data : value) : json :=
  match data with
  | VNull => JNull
  | VBool b => JBool b
  | VNum n => JNum n
  | VStr s => JStr s
  | VBig n => JStr (dec n)
  | VArr elems => JArr (map serialize elems)
  | VObj fields => JObj (map (fun kv => (fst kv, serialize (snd kv))) fields)
  end.

(** The reviver of [deserialize]. *)
Definition reviver (key : string) (v : value) : value :=
  if String.eqb key "index" then
    match digits_of v with
    | Some n => VBig n
    | None => v
    end
  else v.

(** [JSON.parse] with the reviver: children first (an array element under
    the key of its position), then the value itself under its own key. *)
Fixpoint revive (key : string) (j : json) {struct j} : value :=
  reviver key
    match j with
    | JNull => VNull
    | JBool b => VBool b
    | JNum n => VNum n
    | JStr s => VStr s
    | JArr elems =>
        VArr ((fix go (i : nat) (l : list json) : list value :=
                 match l with
                 | [] => []
                 | x :: rest => revive (dec (Z.of_nat i)) x :: go (S i) rest
                 end) 0%nat elems)
    | JObj fields =>
        VObj ((fix go (l : list (string * json)) : list (string * value) :=
                 match l with
                 | [] => []
                 | (k, x) :: rest => (k, revive k x) :: go rest
                 end) fields)
    end.

Definition deserialize (data : json) : value := revive "" data.

(** Values that survive the round trip: a BigInt only as a non-negative
    value of a key [index], and nothing else under a key [index] whose
    string form is all digits. *)
Fixpoint stable (key : string) (v : value) {struct v} : Prop :=
  match v with
  | VBig n => key = "index" /\ 0 <= n
  | VArr elems =>
      (fix go (i : nat) (l : list value) : Prop :=
         match l with
         | [] => True
         | x :: rest => stable (dec (Z.of_nat i)) x /\ go (S i) rest
         end) 0%nat elems
      /\ (key = "index" -> digits_of v = None)
  | VObj fields =>
      (fix go (l : list (string * value)) : Prop :=
         match l with
         | [] => True
         | (k, x) :: rest => stable k x /\ go rest
         end) fields
  | _ => key = "index" -> digits_of v = None
  end.

(** A transaction as a client may send it: the attribute [index] holds a
    string of digits. *)
Definition tx_with_index : value := VObj [("transactionId", VStr "t1"); ("index", VStr "42")].

End Json.

(* ===================================================================== *)
(** * Blocks and the LevelDB block store (types/block.d.ts,
      src/storage/leveldb.js) *)
(* ===================================================================== *)

Module LevelDB.
Import Json.

(** A transaction is a JavaScript object: its attributes in order. *)
Definition transaction : Type := list (string * value).

(** [entry[key]]: [None] is [undefined]. *)
Fixpoint get_attr (key : string) (t : list (string * value)) : option value :=
  match t with
  | [] => None
  | (k, v) :: rest => if String.eqb k key then Some v else get_attr key rest
  end.

(** [x == null] *)
Definition nullish (x : option value) : bool :=
  match x with
  | None | Some VNull => true
  | Some _ => false
  end.

(** A block. A block received from a peer is whatever object the peer
    sent, so every field may be missing. *)
Record Block : Type := mkBlock {
  version : option string;
  index : option Z;
  timestamp : option Z;
  nonce : option Z;
  prevHash : option string;
  hash : option string;
  transactions : option (list transaction)
}.

Definition with_transactions (b : Block) (txs : list transaction) : Block :=
  mkBlock (version b) (index b) (timestamp b) (nonce b) (prevHash b) (hash b) (Some txs).

(** The main keyspace: block index (an 8-byte big-endian key) to block,
    in key order. The model orders the keys as integers, which is the
    byte order of the keys for the unsigned 64-bit indexes of the
    specification. The store keeps [serialize block] and reads it back
    with [deserialize]; the model keeps the block. *)
Definition keyspace : Type := list (Z * Block).

Fixpoint put (key : Z) (b : Block) (s : keyspace) : keyspace :=
  match s with
  | [] => [(key, b)]
  | (k, b') :: rest =>
      if key <? k then (key, b) :: s
      else if key =? k then (key, b) :: rest
      else (k, b') :: put key b rest
  end.

Fixpoint get (key : Z) (s : keyspace) : option Block :=
  match s with
  | [] => None
  | (k, b) :: rest => if key =? k then Some b else get key rest
  end.

(** [createReadStream({reverse, limit})] and [createKeyStream]: the
    entries in key order, or in reverse, at most [limit] of them when
    [limit] is not negative ([-1] is "no limit"). *)
Definition createReadStream (reverse : bool) (limit : Z) (s : keyspace) : keyspace :=
  let entries := if reverse then rev s else s in
  if limit <? 0 then entries else firstn (Z.to_nat limit) entries.

(** The storage object: the main keyspace and, when [indexKeys] was
    configured, one index keyspace per index key, from the string form of
    an attribute value to the indexes of the blocks that hold it. *)
Record storage : Type := mkStorage {
  main : keyspace;
  indexStorages : option (gmap string (gmap string (list Z)))
}.

(** [indexValue.toString()] unless it is a string already. *)
Definition index_value (v : value) : string :=
  match v with
  | VStr s => s
  | _ => to_string v
  end.

Definition getIndexedBlockIndexes (indexStorage : gmap string (list Z)) (indexValue : string)
  : list Z :=
  default [] (indexStorage !! indexValue).

Definition index_transaction (blockIndex : Z) (ix : gmap string (gmap string (list Z)))
    (t : transaction) : gmap string (gmap string (list Z)) :=
  map_imap (fun indexKey indexStorage =>
    Some (if nullish (get_attr indexKey t) then indexStorage
          else
            let indexValue := index_value (default VNull (get_attr indexKey t)) in
            let indexes := getIndexedBlockIndexes indexStorage indexValue in
            let indexes' :=
              if existsb (Z.eqb blockIndex) indexes then indexes else indexes ++ [blockIndex] in
            <[indexValue := indexes']> indexStorage)) ix.

Definition storeBlock (block : Block) (db : storage) : storage :=
  match index block with
  | None => db
  | Some i =>
      mkStorage (put i block (main db))
        (match indexStorages db with
         | None => None
         | Some ix =>
             Some (match transactions block with
                   | None => ix
                   | Some txs => fold_left (index_transaction i) txs ix
                   end)
         end)
  end.

Definition restoreBlock (i : Z) (db : storage) : option Block := get i (main db).

Definition getIndexes (limit : Z) (direction : string) (db : storage) : list Z :=
  map fst (createReadStream (String.eqb direction "backward") limit (main db)).

Definition getLastIndex (db : storage) : Z :=
  match getIndexes 1 "backward" db with
  | [i] => i
  | _ => -1
  end.

(** The key of the last entry, [d] on the empty keyspace. *)
Fixpoint last_key (d : Z) (s : keyspace) : Z :=
  match s with
  | [] => d
  | (k, _) :: rest => last_key k rest
  end.

(** ** Queries *)

Record TransactionCondition : Type := mkCondition {
  operation : option string;
  ambiguous : option bool;
  conditions : option (list (string * value))
}.

Inductive condition_arg : Type :=
| OneCondition (c : TransactionCondition)
| ConditionArray (cs : list TransactionCondition).

(** The query object; [offset], [limit] and the other scalar fields hold
    any value, the code looks at their type. *)
Record BlockQuery : Type := mkQuery {
  direction : option string;
  offset : option value;
  limit : option value;
  timestampStart : option value;
  timestampEnd : option value;
  headerOnly : option value;
  transactionCondition : option condition_arg
}.

Definition with_offset (q : BlockQuery) (o : option value) : BlockQuery :=
  mkQuery (direction q) o (limit q) (timestampStart q) (timestampEnd q) (headerOnly q)
    (transactionCondition q).

(** What a query returns for a block: the block, or its header. *)
Inductive emitted : Type :=
| EBlock (b : Block)
| EHeader (i : option Z) (ts : option Z) (transactionCount : nat).

(** [a === b] on values of distinct origin: two objects or arrays are
    never the same reference. *)
Definition strict_eq (a : option value) (b : value) : bool :=
  match a, b with
  | Some VNull, VNull => true
  | Some (VBool x), VBool y => Bool.eqb x y
  | Some (VNum x), VNum y => x =? y
  | Some (VStr x), VStr y => String.eqb x y
  | Some (VBig x), VBig y => x =? y
  | _, _ => false
  end.

(** [s.includes(t)] on strings. *)
Fixpoint is_prefix (t s : string) : bool :=
  match t, s with
  | EmptyString, _ => true
  | String a t', String b s' => Ascii.eqb a b && is_prefix t' s'
  | String _ _, EmptyString => false
  end.

Fixpoint str_includes (s t : string) : bool :=
  is_prefix t s ||
  match s with
  | EmptyString => false
  | String _ s' => str_includes s' t
  end.

(** [entry[key].includes(c)]: a string searches for the string form of
    [c], an array for an element identical to [c], anything else has no
    method [includes]. *)
Definition js_includes (x : option value) (c : value) : result bool :=
  match x with
  | Some (VStr s) => Returned (str_includes s (to_string c))
  | Some (VArr elems) => Returned (existsb (fun e => strict_eq (Some e) c) elems)
  | _ => Thrown TypeError
  end.

(** Stable sort with a comparator ([Array.prototype.sort]). *)
Fixpoint insert_sorted {A : Type} (before : A -> A -> bool) (x : A) (l : list A) : list A :=
  match l with
  | [] => [x]
  | y :: rest => if before x y then x :: l else y :: insert_sorted before x rest
  end.

Definition sort_by {A : Type} (before : A -> A -> bool) (l : list A) : list A :=
  fold_left (fun sorted x => insert_sorted before x sorted) l [].

(** [splice()] without arguments removes nothing. *)
Definition splice_nothing {A : Type} (l : list A) : list A := l.

Section Queries.

(** The relational comparison [a < b] of the language on two values. *)
Variable js_lt : value -> value -> bool.

(** The first pass of a "between" condition: keep the keys whose value is
    an object with [begin] and [end], [begin] not above [end]; the others
    are deleted from the condition. *)
Definition between_conditions (conds : list (string * value))
  : result (list (string * (value * value))) :=
  for_each (fun kept kv =>
    match snd kv with
    | VNull => Thrown TypeError
    | VObj range =>
        match get_attr "begin" range, get_attr "end" range with
        | Some b, Some e =>
            if nullish (Some b) || nullish (Some e) || js_lt e b then Returned kept
            else Returned (kept ++ [(fst kv, (b, e))])
        | _, _ => Returned kept
        end
    | _ => Returned kept
    end) conds [].

Definition _filterTransactions (txs : list transaction) (c : TransactionCondition)
  : result (list transaction) :=
  match conditions c with
  | None => Returned txs
  | Some conds =>
      let is_and := match operation c with Some op => String.eqb op "and" | None => false end in
      let between := match operation c with Some op => String.eqb op "between" | None => false end in
      let disjunction := negb (is_and || between) in
      let ambiguous := default false (ambiguous c) in
      if between then
        ranges ← between_conditions conds;
        Returned (List.filter (fun entry =>
          forallb (fun kr =>
            negb (nullish (get_attr (fst kr) entry)
                  || js_lt (default VNull (get_attr (fst kr) entry)) (fst (snd kr))
                  || js_lt (snd (snd kr)) (default VNull (get_attr (fst kr) entry))))
            ranges) txs)
      else
        filter_with (fun entry =>
          found ← for_each (fun found kv =>
                     if (found : bool) then Returned true
                     else if ambiguous then js_includes (get_attr (fst kv) entry) (snd kv)
                     else Returned (strict_eq (get_attr (fst kv) entry) (snd kv)))
                   conds false;
          Returned (if (found : bool) then disjunction else negb disjunction)) txs
  end.

Definition filterTransactions (txs : list transaction) (cond : condition_arg)
  : result (list transaction) :=
  match cond with
  | ConditionArray cs => for_each _filterTransactions cs txs
  | OneCondition c => _filterTransactions txs c
  end.

Definition in_timestamps (timestampStart timestampEnd : option Z) (b : Block) : bool :=
  negb (match timestampStart, timestamp b with
        | Some lo, Some t => t <? lo
        | _, _ => false
        end)
  && negb (match timestampEnd, timestamp b with
           | Some hi, Some t => hi <? t
           | _, _ => false
           end).

(** *** The serial scan *)

(** The variables of the scan that the "data" handler updates. *)
Record scan : Type := mkScan {
  scan_result : list emitted;
  scan_transactionCount : Z;
  scan_finished : bool
}.

(** The "data" handler of [#restoreBlocksSerially]. *)
Definition on_data (offset limit : Z) (timestampStart timestampEnd : option Z)
    (headerOnly : bool) (cond : option condition_arg) (s : scan) (data : Z * Block)
  : result scan :=
  if scan_finished s then Returned s
  else if fst data =? 0 then Returned s
  else
    let block := snd data in
    if negb (in_timestamps timestampStart timestampEnd block) then Returned s
    else
      (* the block after the condition filter, or [None] when the handler returns *)
      filtered ← match cond with
                 | None => Returned (Some block)
                 | Some c =>
                     match transactions block with
                     | None => Thrown TypeError
                     | Some txs =>
                         kept ← filterTransactions txs c;
                         Returned (if (length kept =? 0)%nat then None
                                   else Some (with_transactions block kept))
                     end
                 end;
      match filtered with
      | None => Returned s
      | Some block =>
          if headerOnly then
            (* the header has no [transactions]: reading their length throws *)
            Thrown TypeError
          else
            match transactions block with
            | None => Thrown TypeError
            | Some txs =>
                let txs :=
                  if scan_transactionCount s + Z.of_nat (length txs) <? offset
                  then splice_nothing txs else txs in
                let transactionCount := scan_transactionCount s + Z.of_nat (length txs) in
                let txs :=
                  if limit <? transactionCount then splice_nothing txs else txs in
                Returned (mkScan (scan_result s ++ [EBlock (with_transactions block txs)])
                            transactionCount (scan_finished s))
            end
      end.

Definition restoreBlocksSerially (reverse : bool) (offset limit : Z)
    (timestampStart timestampEnd : option Z) (headerOnly : bool)
    (cond : option condition_arg) (db : storage) : result (list emitted) :=
  let stream := createReadStream reverse limit (main db) in
  s ← for_each (on_data offset limit timestampStart timestampEnd headerOnly cond)
        stream (mkScan [] 0 false);
  Returned (scan_result s).

(** *** The index-assisted path *)

Definition same_index (b1 b2 : Block) : bool :=
  match index b1, index b2 with
  | Some i, Some j => i =? j
  | None, None => true
  | _, _ => false
  end.

(** The inner function [restoreBlocksWithIndexes(self, conditions, ...)]:
    the blocks the indexes give for one condition. *)
Definition blocks_of_condition (db : storage) (ix : gmap string (gmap string (list Z)))
    (conds : option (list (string * value))) (timestampStart timestampEnd : option Z)
  : result (list Block) :=
  match conds with
  | None => Thrown TypeError
  | Some conds =>
      for_each (fun blocks kv =>
        match snd kv with
        | VNull => Thrown TypeError
        | v =>
            let value := index_value v in
            if (String.length value =? 0)%nat then Returned blocks
            else
              match ix !! fst kv with
              | None => Thrown TypeError
              | Some indexStorage =>
                  let blockIndexes := getIndexedBlockIndexes indexStorage value in
                  let _blocks := omap (fun i => get i (main db)) blockIndexes in
                  let _blocks := List.filter (in_timestamps timestampStart timestampEnd) _blocks in
                  Returned (fold_left (fun blocks block =>
                              match transactions block with
                              | None | Some [] => blocks
                              | Some _ =>
                                  if existsb (fun b => same_index b block) blocks then blocks
                                  else blocks ++ [block]
                              end) _blocks blocks)
              end
        end) conds []
  end.

Definition index_before (reverse : bool) (b1 b2 : Block) : bool :=
  match index b1, index b2 with
  | Some i, Some j => if reverse then j <? i else i <? j
  | _, _ => false
  end.

Definition restoreBlocksWithIndexes (reverse : bool) (offset limit : Z)
    (timestampStart timestampEnd : option Z) (headerOnly : bool)
    (cond : condition_arg) (db : storage) (ix : gmap string (gmap string (list Z)))
  : result (list emitted) :=
  blocks ← match cond with
           | ConditionArray cs =>
               for_each (fun blocks entry =>
                 _blocks ← blocks_of_condition db ix (conditions entry) timestampStart timestampEnd;
                 Returned (blocks ++ _blocks)) cs []
           | OneCondition c =>
               blocks_of_condition db ix (conditions c) timestampStart timestampEnd
           end;
  blocks ← for_each (fun done block =>
              match transactions block with
              | None => Thrown TypeError
              | Some txs =>
                  kept ← filterTransactions txs cond;
                  Returned (done ++ [with_transactions block kept])
              end) blocks [];
  let blocks := sort_by (index_before reverse) blocks in
  let blocks := if limit =? -1 then blocks else firstn (Z.to_nat limit) blocks in
  Returned (if headerOnly
            then map (fun b => EHeader (index b) (timestamp b)
                                 (length (default [] (transactions b)))) blocks
            else map EBlock blocks).

(** Whether every key of every condition has an index and no condition
    is a "between". *)
Definition condition_indexed (ix : gmap string (gmap string (list Z)))
    (c : TransactionCondition) : bool :=
  negb (match operation c with Some op => String.eqb op "between" | None => false end)
  && match conditions c with
     | None => true
     | Some conds => forallb (fun kv => bool_decide (is_Some (ix !! fst kv))) conds
     end.

Definition positive_number (x : option value) : option Z :=
  match x with
  | Some (VNum n) => if 0 <? n then Some n else None
  | _ => None
  end.

Definition restoreBlocks (query : option BlockQuery) (db : storage) : result (list emitted) :=
  let reverse :=
    match query with
    | Some q =>
        match direction q with
        | Some d => if String.eqb d "forward" then false
                    else true
        | None => true
        end
    | None => true
    end in
  let offset := default 0 (q ← query; positive_number (offset q)) in
  let limit := default (-1) (q ← query; positive_number (limit q)) in
  let timestampStart := q ← query; positive_number (timestampStart q) in
  let timestampEnd := q ← query; positive_number (timestampEnd q) in
  let headerOnly :=
    match query with
    | Some q => match headerOnly q with Some (VBool b) => b | _ => false end
    | None => false
    end in
  let transactionCondition := q ← query; transactionCondition q in
  match indexStorages db, transactionCondition with
  | Some ix, Some cond =>
      let enabled :=
        match cond with
        | ConditionArray cs => forallb (condition_indexed ix) cs
        | OneCondition c => condition_indexed ix c
        end in
      if enabled
      then restoreBlocksWithIndexes reverse offset limit timestampStart timestampEnd
             headerOnly cond db ix
      else restoreBlocksSerially reverse offset limit timestampStart timestampEnd
             headerOnly transactionCondition db
  | _, _ =>
      restoreBlocksSerially reverse offset limit timestampStart timestampEnd
        headerOnly transactionCondition db
  end.

End Queries.

(** A store with the genesis block and one sealed block, and the query
    "the first block, oldest first". *)
Definition genesis_sample : Block :=
  mkBlock (Some "1.0") (Some 0) (Some 1639065600000) (Some 5) (Some "") (Some "0000aa") (Some []).

Definition block1_sample : Block :=
  mkBlock (Some "1.0") (Some 1) (Some 1639065600100) (Some 0) (Some "0000aa") (Some "bb")
    (Some [[("transactionId", VStr "t1")]]).

Definition store_sample : storage :=
  storeBlock block1_sample (storeBlock genesis_sample (mkStorage [] None)).

Definition first_block_query : BlockQuery :=
  mkQuery (Some "forward") None (Some (VNum 1)) None None None None.

(** The same blocks in a store that indexes [transactionId], and the
    query "the first block that holds transaction t1, oldest first". *)
Definition indexed_store_sample : storage :=
  storeBlock block1_sample
    (storeBlock genesis_sample (mkStorage [] (Some {[ "transactionId" := ∅ ]}))).

Definition first_block_of_t1_query : BlockQuery :=
  mkQuery (Some "forward") None (Some (VNum 1)) None None None
    (Some (OneCondition (mkCondition None None (Some [("transactionId", VStr "t1")])))).

(** Two blocks with the same header: all the fields but the
    transactions. *)
Definition same_header (b1 b2 : Block) : Prop :=
  version b1 = version b2 /\ index b1 = index b2 /\ timestamp b1 = timestamp b2
  /\ nonce b1 = nonce b2 /\ prevHash b1 = prevHash b2 /\ hash b1 = hash b2.


Definition t1_exact : TransactionCondition :=
  mkCondition None None (Some [("transactionId", VStr "t1"); ("owner", VStr "me")]).

Definition t1_and : TransactionCondition :=
  mkCondition (Some "and") None (Some [("transactionId", VStr "t1"); ("owner", VStr "me")]).

Definition owner_like : TransactionCondition :=
  mkCondition None (Some true) (Some [("owner", VStr "m")]).

Definition sample_transactions : list transaction :=
  [ [("transactionId", VStr "t1")];
    [("transactionId", VStr "t2"); ("owner", VStr "me")];
    [("transactionId", VStr "t3"); ("owner", VStr "you")] ].

End LevelDB.
(* ===================================================================== *)
(** * The blockchain engine (src/blockchain.js) *)
(* ===================================================================== *)

Module Blockchain.
Import Json LevelDB.

(** A transaction object held in memory: its identity (the pool compares
    references) and its attributes. *)
Definition object : Type := (nat * transaction)%type.

(** The engine: [#version], [#transactions] (the pool), [#storage]. *)
Record Blockchain : Type := mkBlockchain {
  bc_version : string;
  bc_transactions : list object;
  bc_storage : storage
}.

(** [new Blockchain(version, "LevelDB", path, indexKeys)] on an empty
    directory. *)
Definition new (version : string) (indexKeys : option (list string)) : Blockchain :=
  mkBlockchain version []
    (mkStorage []
       (match indexKeys with
        | None => None
        | Some keys => Some (list_to_map (map (fun k => (k, (∅ : gmap string (list Z)))) keys))
        end)).

Definition addTransaction (transaction : object) (bc : Blockchain) : Blockchain :=
  if existsb (fun t => Nat.eqb (fst t) (fst transaction)) (bc_transactions bc) then bc
  else mkBlockchain (bc_version bc) (bc_transactions bc ++ [transaction]) (bc_storage bc).

(** The root hash of the genesis block. *)
Definition H0 : string := "1183f7f0cb6243e92d5e4ba2fb626b02bca27ffe89c77dcbd7003167405da253".

(** [hash.startsWith("0000")], [hash.substring(0, 4) == "0000"] *)
Definition starts_with_0000 (hash : string) : bool := is_prefix "0000" hash.

(** A string operand that may be [undefined] in a concatenation. *)
Definition concat_operand (s : option string) : string := default "undefined" s.

Section Engine.

(** [Crypto.createHash("sha256").update(s, "utf8").digest("hex")] *)
Variable sha256_hex : string -> string.
(** The text [JSON.stringify] writes for a JSON tree. *)
Variable json_text : json -> string.

Definition generateHash (nonce : Z) (prevHash currentHash : string) : string :=
  sha256_hex (prevHash +:+ dec nonce +:+ currentHash).

(** [#findNonce]: the loop [do hash = ...(++nonce) while (hash does not
    start with "0000")], run for at most [fuel] rounds from [nonce]. *)
Fixpoint findNonce_from (fuel : nat) (nonce : Z) (prevHash currentHash : string) : option Z :=
  match fuel with
  | O => None
  | S fuel' =>
      if starts_with_0000 (generateHash nonce prevHash currentHash) then Some nonce
      else findNonce_from fuel' (nonce + 1) prevHash currentHash
  end.

Definition findNonce (fuel : nat) (prevHash currentHash : string) : option Z :=
  findNonce_from fuel 0 prevHash currentHash.

(** The hash of a transaction: of the text of [serialize(entry)]. *)
Definition transaction_hash (entry : transaction) : string :=
  sha256_hex (json_text (serialize (VObj entry))).

(** The callback of [list.reduce] in [findRoot]: an entry at an even
    position is pushed, an entry at an odd position is hashed into the
    last element of the result. *)
Definition reduce_step (result : list string) (entry_index : string * nat) : list string :=
  let (entry, index) := entry_index in
  if Nat.even index then result ++ [entry]
  else
    match rev result with
    | [] => result
    | prevHash :: _ => removelast result ++ [sha256_hex (prevHash +:+ entry)]
    end.

Definition reduce_pairs (hashList : list string) : list string :=
  fold_left reduce_step (combine hashList (seq 0 (length hashList))) [].

(** The reference: replace each consecutive pair by the hash of its
    concatenation, carry a trailing single element through. *)
Fixpoint pair_up (hashes : list string) : list string :=
  match hashes with
  | a :: b :: rest => sha256_hex (a +:+ b) :: pair_up rest
  | _ => hashes
  end.

Lemma fold_reduce_step_pairs (l : list string) : forall (done : list string) (i : nat),
  Nat.even i = true ->
  fold_left reduce_step (combine l (seq i (length l))) done = done ++ pair_up l.
Proof.
  induction l as [ l IH ] using (induction_ltof1 _ (@length string)).
  unfold ltof in IH. intros done i Hi.
  destruct l as [ | a [ | b rest ] ].
  - cbn. now rewrite app_nil_r.
  - cbn. now rewrite Hi.
  - cbn [length seq combine fold_left pair_up reduce_step]. rewrite Hi.
    replace (Nat.even (S i)) with false
      by (rewrite Nat.even_succ, <- Nat.negb_even, Hi; reflexivity).
    rewrite rev_app_distr. cbn [rev app]. rewrite removelast_last.
    rewrite (IH rest) by (cbn; try rewrite Nat.even_succ_succ; auto; lia).
    now rewrite <- app_assoc.
Qed.

Lemma reduce_pairs_pair_up (l : list string) : reduce_pairs l = pair_up l.
Proof. unfold reduce_pairs. now rewrite fold_reduce_step_pairs. Qed.

Lemma pair_up_length (l : list string) :
  (2 <= length l -> length (pair_up l) < length l)%nat.
Proof.
  induction l as [ l IH ] using (induction_ltof1 _ (@length string)).
  unfold ltof in IH. destruct l as [ | a [ | b rest ] ]; cbn; try lia.
  intros _. destruct rest as [ | c [ | d rest' ] ]; cbn; try lia.
  specialize (IH (c :: d :: rest')). cbn in IH. lia.
Qed.

(** [findRoot]: on the empty list the recursion of the source never
    reaches a list of one element, there is no root. *)
Equations? findRoot (hashList : list string) : option string by wf (length hashList) lt :=
  findRoot [] := None;
  findRoot [root] := Some root;
  findRoot (a :: b :: rest) := findRoot (reduce_pairs (a :: b :: rest)).
Proof.
  rewrite reduce_pairs_pair_up. apply (pair_up_length (a :: b :: rest)). cbn. lia.
Qed.

Definition getRootHash (transactions : list transaction) : option string :=
  match transactions with
  | [] => None
  | _ => findRoot (map transaction_hash transactions)
  end.

(** The reference definition of the Merkle root, in the words of the
    specification. *)
Equations? reference_root (hashes : list string) : option string by wf (length hashes) lt :=
  reference_root [] := None;
  reference_root [root] := Some root;
  reference_root (a :: b :: rest) := reference_root (pair_up (a :: b :: rest)).
Proof. apply (pair_up_length (a :: b :: rest)). cbn. lia. Qed.

(** [#createBlock]: seals the pool into a block and stores it, when the
    arguments have the types it asks for. *)
Definition createBlock (index nonce : value) (prevHash hash : option string) (now : Z)
    (bc : Blockchain) : option Block * Blockchain :=
  match index, nonce, prevHash, hash with
  | VBig i, VNum n, Some p, Some h =>
      let block := mkBlock (Some (bc_version bc)) (Some i) (Some now) (Some n) (Some p) (Some h)
                     (Some (map snd (bc_transactions bc))) in
      (Some block, mkBlockchain (bc_version bc) [] (storeBlock block (bc_storage bc)))
  | _, _, _, _ => (None, bc)
  end.

(** [generateGenesisBlock], when the nonce search ends within [fuel]
    rounds. *)
Definition generateGenesisBlock (fuel : nat) (now : Z) (bc : Blockchain)
  : option (option Block * Blockchain) :=
  match findNonce fuel "" H0 with
  | None => None
  | Some nonce =>
      let currentHash := generateHash nonce "" H0 in
      Some (createBlock (VBig 0) (VNum nonce) (Some "") (Some currentHash) now bc)
  end.


(** The first call of [done] settles the promise; the later ones are
    ignored. *)
Definition settle {A : Type} (first : option string) (then_ : result A) : result A :=
  match first with
  | Some error => Thrown error
  | None => then_
  end.

Definition first_error (e1 e2 : option string) : option string :=
  match e1 with
  | Some _ => e1
  | None => e2
  end.

(** [commitProofOfWork(index, rootHash, nonce)]; the arguments are any
    values, [VNull] for a missing one. *)
Definition commitProofOfWork (index rootHash nonce : value) (now : Z) (bc : Blockchain)
  : result (option Block) * Blockchain :=
  match index, rootHash, nonce with
  | VNum i, VStr root, VNum n =>
      match bc_transactions bc with
      | [] => (Returned None, bc)
      | _ =>
          let lastIndex := getLastIndex (bc_storage bc) in
          if i <=? lastIndex then (Returned None, bc)
          else
            let e1 :=
              if bool_decide (Some root = getRootHash (map snd (bc_transactions bc))) then None
              else Some "Route Hash does not match." in
            match restoreBlock lastIndex (bc_storage bc) with
            | None => (settle e1 (Thrown TypeError), bc)
            | Some lastBlock =>
                let lastHash := hash lastBlock in
                let hash := generateHash n (concat_operand lastHash) root in
                let e2 :=
                  if starts_with_0000 hash then None else Some "Invalid hash value." in
                let (block, bc') := createBlock index nonce lastHash (Some hash) now bc in
                (settle (first_error e1 e2) (Returned block), bc')
            end
      end
  | _, _, _ => (Returned None, bc)
  end.

(** [commitBlock] *)
Definition commitBlock (now : Z) (bc : Blockchain) : result (option Block) * Blockchain :=
  match bc_transactions bc with
  | [] => (Returned None, bc)
  | _ =>
      let lastIndex := getLastIndex (bc_storage bc) in
      let rootHash := getRootHash (map snd (bc_transactions bc)) in
      match restoreBlock lastIndex (bc_storage bc) with
      | None => (Thrown TypeError, bc)
      | Some lastBlock =>
          let lastHash := hash lastBlock in
          let nonce := 0 in
          let index := lastIndex + 1 in
          match rootHash with
          | None => (Thrown "failed to acquire the root hash.", bc)
          | Some rootHash =>
              let hash := generateHash nonce (concat_operand lastHash) rootHash in
              let (block, bc') := createBlock (VBig index) (VNum nonce) lastHash (Some hash) now bc in
              (Returned block, bc')
          end
      end
  end.

Definition show_index (i : option Z) : string :=
  match i with
  | Some i => dec i
  | None => "undefined"
  end.

(** The body of the loop of [#validateBlocks] for one block; the state of
    the loop is [(currentIndex, lastPrevHash)]. *)
Definition validate_block (state : Z * option string) (block : Block)
  : result (Z * option string) :=
  let (currentIndex, lastPrevHash) := state in
  match version block, index block, timestamp block, nonce block, prevHash block,
        transactions block with
  | Some _, Some index, Some _, Some nonce, Some prevHash, Some transactions =>
      if negb (index =? currentIndex + 1)
      then Thrown ("The index is not continuous. Block index: " +:+ dec index
                   +:+ ", Previous index" +:+ dec currentIndex)
      else
        match getRootHash transactions with
        | None => Thrown ("Invalid rootHash value. Block index: " +:+ dec index)
        | Some rootHash =>
            let generatedHash := generateHash nonce prevHash rootHash in
            if negb (bool_decide (hash block = Some generatedHash))
            then Thrown ("Invalid hash value. Block index: " +:+ dec index)
            else if negb (bool_decide (lastPrevHash = Some prevHash))
            then Thrown ("The hash value is not continuous. Block index: " +:+ dec index)
            else Returned (currentIndex + 1, hash block)
        end
  | _, _, _, _, _, _ =>
      Thrown ("Incomplete block data. Block index: " +:+ show_index (index block))
  end.

(** [#validateBlocks] *)
Definition validateBlocks (blocks : list Block) (bc : Blockchain) : result unit :=
  let lastIndex := getLastIndex (bc_storage bc) in
  if lastIndex =? -1 then Returned tt
  else
    match restoreBlock lastIndex (bc_storage bc) with
    | None => Thrown TypeError
    | Some lastBlock =>
        _ ← for_each validate_block blocks (lastIndex, hash lastBlock);
        Returned tt
    end.

(** [#storeBlocks] *)
Definition storeBlocks (blocks : list Block) (bc : Blockchain) : result unit * Blockchain :=
  match validateBlocks blocks bc with
  | Thrown e => (Thrown e, bc)
  | Returned _ =>
      (Returned tt,
       mkBlockchain (bc_version bc) (bc_transactions bc)
         (fold_left (fun db block => storeBlock block db) blocks (bc_storage bc)))
  end.

(** The blocks [setBlocks] keeps: [block.index > lastIndex]. *)
Definition newer_than (lastIndex : Z) (block : Block) : bool :=
  match index block with
  | Some i => lastIndex <? i
  | None => false
  end.

(** [setBlocks] *)
Definition setBlocks (newValue : option (list Block)) (bc : Blockchain)
  : result unit * Blockchain :=
  match newValue with
  | None => (Returned tt, bc)
  | Some newValue =>
      let lastIndex := getLastIndex (bc_storage bc) in
      let blocks := List.filter (newer_than lastIndex) newValue in
      match blocks with
      | [] => (Returned tt, bc)
      | _ =>
          match storeBlocks blocks bc with
          | (Thrown e, bc') => (Thrown ("failed to syncronize blocks. " +:+ e), bc')
          | (Returned _, bc') => (Returned tt, bc')
          end
      end
  end.

(** ** What the specification says of a chain *)

(** Consecutive blocks of the store are chained by their hashes. *)
Definition chained (db : storage) : Prop :=
  forall (i : Z) (b b' : Block),
    restoreBlock i db = Some b -> restoreBlock (i + 1) db = Some b' ->
    prevHash b' = hash b.

(** A block passes validation after a block of index [prevIndex] and hash
    [lastHash]. *)
Definition valid_block (prevIndex : Z) (lastHash : option string) (b : Block) : Prop :=
  exists v i ts n p txs root,
    version b = Some v /\ index b = Some i /\ timestamp b = Some ts /\ nonce b = Some n
    /\ prevHash b = Some p /\ transactions b = Some txs
    /\ i = prevIndex + 1
    /\ getRootHash txs = Some root
    /\ hash b = Some (generateHash n p root)
    /\ lastHash = Some p.

(** Every block of a list passes validation, each after the one before. *)
Fixpoint valid_chain (prevIndex : Z) (lastHash : option string) (blocks : list Block) : Prop :=
  match blocks with
  | [] => True
  | b :: rest => valid_block prevIndex lastHash b /\ valid_chain (prevIndex + 1) (hash b) rest
  end.

(** The keys of a store are block indexes: not negative, ascending. *)
Fixpoint ascending_from (low : Z) (s : keyspace) : Prop :=
  match s with
  | [] => True
  | (k, _) :: rest => low <= k /\ ascending_from (k + 1) rest
  end.

Definition well_formed (db : storage) : Prop := ascending_from 0 (main db).

(** The store holds a last block of index [last] and hash [lastHash]. *)
Definition ends_with (db : storage) (last : Z) (lastHash : option string) : Prop :=
  getLastIndex db = last /\ exists b, restoreBlock last db = Some b /\ hash b = lastHash.

(** Block 0, when the store holds it, carries the hash of the genesis
    block. *)
Definition genesis_at_0 (db : storage) : Prop :=
  forall b0, restoreBlock 0 db = Some b0 ->
    exists fuel nonce, findNonce fuel "" H0 = Some nonce
      /\ hash b0 = Some (generateHash nonce "" H0).

(** A store that holds a block holds block 0. *)
Definition rooted (db : storage) : Prop :=
  main db <> [] -> exists b0, restoreBlock 0 db = Some b0.

Definition store_invariant (db : storage) : Prop :=
  well_formed db /\ chained db /\ genesis_at_0 db /\ rooted db.

(** ** The states the engine reaches *)

(** One operation of the engine. [sync_allowed] says on which stores
    [setBlocks] is run. *)
Inductive step (sync_allowed : Blockchain -> Prop) : Blockchain -> Blockchain -> Prop :=
| step_addTransaction (transaction : object) (bc : Blockchain) :
    step sync_allowed bc (addTransaction transaction bc)
| step_generateGenesisBlock (fuel : nat) (now : Z) (bc : Blockchain) r bc' :
    generateGenesisBlock fuel now bc = Some (r, bc') ->
    step sync_allowed bc bc'
| step_commitBlock (now : Z) (bc : Blockchain) :
    step sync_allowed bc (snd (commitBlock now bc))
| step_commitProofOfWork (index rootHash nonce : value) (now : Z) (bc : Blockchain) :
    step sync_allowed bc (snd (commitProofOfWork index rootHash nonce now bc))
| step_setBlocks (newValue : option (list Block)) (bc : Blockchain) :
    sync_allowed bc ->
    step sync_allowed bc (snd (setBlocks newValue bc)).

Inductive reachable (sync_allowed : Blockchain -> Prop) (version : string)
    (indexKeys : option (list string)) : Blockchain -> Prop :=
| reachable_new : reachable sync_allowed version indexKeys (new version indexKeys)
| reachable_step (bc bc' : Blockchain) :
    reachable sync_allowed version indexKeys bc ->
    step sync_allowed bc bc' ->
    reachable sync_allowed version indexKeys bc'.

(** The hash of the last block of the store. *)
Definition lastHash (db : storage) : option string :=
  match restoreBlock (getLastIndex db) db with
  | Some lastBlock => hash lastBlock
  | None => None
  end.

Definition any_store (bc : Blockchain) : Prop := True.
Definition holds_a_block (bc : Blockchain) : Prop := main (bc_storage bc) <> [].

End Engine.

(** Two blocks a peer may send that are not chained, and a block that
    lacks most fields. *)
Definition unchained_pair : list Block :=
  [ mkBlock (Some "1.0") (Some 0) (Some 1) (Some 0) (Some "") (Some "aa") (Some []);
    mkBlock (Some "1.0") (Some 1) (Some 2) (Some 0) (Some "zz") (Some "bb") (Some []) ].


(** Stand-ins for SHA-256 and for the JSON text, to run the engine on
    examples: every hash starts with "0000". *)
Definition sample_sha256 (s : string) : string := "0000" +:+ s.
Definition sample_text (j : json) : string := "{}".

Definition sample_transaction : object := (1%nat, [("transactionId", VStr "t1")]).

(** A node after the genesis block, one transaction and one sealed block. *)
Definition sample_chain : Blockchain :=
  snd (commitBlock sample_sha256 sample_text 20
         (addTransaction sample_transaction
            (snd (createBlock (VBig 0) (VNum 0) (Some "")
                    (Some (generateHash sample_sha256 0 "" H0)) 10 (new "1.0" None))))).

(** A stand-in for SHA-256 under which the nonce search has to look:
    of the texts ["0"], ["1"], ["2"], ... only ["2"] hashes to four
    leading zeros. *)
Definition sample_sha256_two (s : string) : string :=
  if String.eqb s "2" then "0000" +:+ s else "ffff" +:+ s.

(** A node that holds a transaction and no block. *)
Definition sample_before_genesis : Blockchain :=
  addTransaction sample_transaction (new "1.0" None).

(** The block a peer seals after the two blocks of [sample_chain]. *)
Definition sample_block2 : Block :=
  let hash0 := generateHash sample_sha256 0 "" H0 in
  let root := sample_sha256 "{}" in
  let hash1 := generateHash sample_sha256 0 hash0 root in
  mkBlock (Some "1.0") (Some 2) (Some 30) (Some 0) (Some hash1)
    (Some (generateHash sample_sha256 0 hash1 root)) (Some [[("transactionId", VStr "t2")]]).

End Blockchain.
(* ===================================================================== *)
(** * The orchestrator's transaction intake (src/server.js) *)
(* ===================================================================== *)

Module Server.
Import Json LevelDB Blockchain.

(** [object[key] = v] and [delete object[key]] *)
Fixpoint set_attr (key : string) (v : value) (attrs : list (string * value))
  : list (string * value) :=
  match attrs with
  | [] => [(key, v)]
  | (k, x) :: rest =>
      if String.eqb k key then (k, v) :: rest else (k, x) :: set_attr key v rest
  end.

Definition delete_attr (key : string) (attrs : list (string * value)) : list (string * value) :=
  List.filter (fun kv => negb (String.eqb (fst kv) key)) attrs.

(** What a caller passes as [transaction]: one object, or an array of
    objects. An array is an object too: it has its elements and its own
    named properties. *)
Inductive request : Type :=
| One (transaction : object)
| Many (properties : list (string * value)) (entries : list object).

(** The fields of [BlockchainServer] the intake uses. *)
Record BlockchainServer : Type := mkServer {
  processingConsensus : bool;
  transactionBacklog : list object;
  blockchain : Blockchain
}.

(** The loop [transactions.forEach] at the end of [addTransaction]. *)
Definition accept (server : BlockchainServer) (transaction : object) : BlockchainServer :=
  if processingConsensus server || negb (nullish (get_attr "@temp" (snd transaction)))
  then mkServer (processingConsensus server) (transactionBacklog server ++ [transaction])
         (blockchain server)
  else mkServer (processingConsensus server) (transactionBacklog server)
         (addTransaction transaction (blockchain server)).

(** [addTransaction(transaction, temporary)] at the time [now]; returns
    the argument as the call leaves it, and the server. *)
Definition addTransaction (transaction : request) (temporary : option bool) (now : Z)
    (server : BlockchainServer) : request * BlockchainServer :=
  let temporary := default false temporary in
  match transaction with
  | One t =>
      let t :=
        if negb (nullish (get_attr "transactionId" (snd t))) && temporary
        then (fst t, set_attr "@temp" (VNum now) (snd t))
        else t in
      (One t, accept server t)
  | Many properties entries =>
      (* the callback of [transaction.map] writes to [transaction], the array *)
      let properties :=
        fold_left (fun properties entry =>
          if negb (nullish (get_attr "transactionId" (snd entry))) && temporary
          then set_attr "@temp" (VNum now) properties
          else properties) entries properties in
      (Many properties entries, fold_left accept entries server)
  end.

(** [commitTransaction(transactionId)] with the identifiers as a list. *)
Definition commitTransaction (transactionIds : list value) (server : BlockchainServer)
  : BlockchainServer :=
  match transactionBacklog server with
  | [] => server
  | backlog =>
      fold_left (fun server transaction =>
        let tid := get_attr "transactionId" (snd transaction) in
        if negb (nullish tid) && existsb (strict_eq tid) transactionIds
        then
          let transaction := (fst transaction, delete_attr "@temp" (snd transaction)) in
          if processingConsensus server
          then mkServer (processingConsensus server)
                 (transactionBacklog server ++ [transaction]) (blockchain server)
          else mkServer (processingConsensus server) (transactionBacklog server)
                 (Blockchain.addTransaction transaction (blockchain server))
        else mkServer (processingConsensus server)
               (transactionBacklog server ++ [transaction]) (blockchain server))
        backlog (mkServer (processingConsensus server) [] (blockchain server))
  end.

(** A server that has just started, and one transaction with an
    identifier. *)
Definition idle_server : BlockchainServer := mkServer false [] (new "1.0" None).
Definition tx1 : object := (1%nat, [("transactionId", VStr "t1"); ("amount", VNum 5)]).

(** [set processingConsensus(newValue)] *)
Definition set_processingConsensus (newValue : value) (server : BlockchainServer)
  : BlockchainServer :=
  match newValue with
  | VBool b => mkServer b (transactionBacklog server) (blockchain server)
  | _ => server
  end.

(** [retrieveTransactionFromBacklog()] *)
Definition retrieveTransactionFromBacklog (server : BlockchainServer) : BlockchainServer :=
  if processingConsensus server then server
  else
    match transactionBacklog server with
    | [] => server
    | backlog =>
        fold_left (fun server transaction =>
          if negb (nullish (get_attr "@temp" (snd transaction)))
          then mkServer (processingConsensus server) (transactionBacklog server ++ [transaction])
                 (blockchain server)
          else mkServer (processingConsensus server) (transactionBacklog server)
                 (Blockchain.addTransaction transaction (blockchain server)))
          backlog (mkServer (processingConsensus server) [] (blockchain server))
    end.

(** Whether [commitTransaction] finalizes a transaction of the backlog:
    it has an identifier, and the identifier is one of those given. *)
Definition committed (transactionIds : list value) (transaction : object) : bool :=
  let tid := get_attr "transactionId" (snd transaction) in
  negb (nullish tid) && existsb (strict_eq tid) transactionIds.

(** The transaction without its ["@temp"]. *)
Definition finalized (transaction : object) : object :=
  (fst transaction, delete_attr "@temp" (snd transaction)).

Definition is_temporary (transaction : object) : bool :=
  negb (nullish (get_attr "@temp" (snd transaction))).

(** ** The nodes of the network (handleData "nodes") *)

(** The settings the handler reads; a node of [nodes] is an object with
    an [id] and a [url]. *)
Record Setting : Type := mkSetting {
  protocol : option string;
  host : option string;
  port : option Z;
  nodes : option (list (list (string * value)))
}.

Section Nodes.

(** [x == s] for a value [x] that is neither a string nor [null]. *)
Variable loose_eq : value -> string -> bool.

(** [entry.url == u] *)
Definition url_is (u : string) (entry : list (string * value)) : bool :=
  match get_attr "url" entry with
  | Some (VStr s) => String.eqb s u
  | Some VNull | None => false
  | Some x => loose_eq x u
  end.

(** The callback of [nodes.forEach]; [url] is the node's own url. *)
Definition merge_node (protocol url : string) (known : option (list (list (string * value))))
    (node : value) : result (option (list (list (string * value)))) :=
  match node with
  | VNull => Thrown TypeError
  | VObj fields =>
      match get_attr "url" fields with
      | Some (VStr u) =>
          if String.eqb u url then Returned known
          else if negb (is_prefix (protocol +:+ "://") u) then Returned known
          else
            match known with
            | None => Thrown TypeError
            | Some entries =>
                if existsb (url_is u) entries then Returned known
                else Returned (Some (entries ++ [fields]))
            end
      | _ => Returned known
      end
  | _ => Returned known
  end.

(** [handleData("nodes", data)] *)
Definition handle_nodes (data : value) (settings : Setting) : result Setting :=
  match data with
  | VArr received =>
      match protocol settings, host settings, port settings with
      | Some p, Some h, Some n =>
          let url := p +:+ "://" +:+ h +:+ ":" +:+ dec n in
          known ← for_each (merge_node p url) received (nodes settings);
          match known with
          | None => Thrown TypeError
          | Some _ => Returned (mkSetting (protocol settings) (host settings) (port settings) known)
          end
      | _, _, _ => Returned settings
      end
  | _ => Returned settings
  end.

End Nodes.

(** The urls of the nodes that have one. *)
Definition string_urls (entries : list (list (string * value))) : list string :=
  omap (fun entry => match get_attr "url" entry with Some (VStr u) => Some u | _ => None end)
    entries.

(** What the merge of reported nodes has added to the known nodes:
    nodes with a new url of the protocol, other than the node's own. *)
Definition merged (protocol url : string) (known known' : list (list (string * value))) : Prop :=
  exists added,
    known' = known ++ added
    /\ (forall node, In node added ->
          exists u, get_attr "url" node = Some (VStr u) /\ u <> url
                    /\ is_prefix (protocol +:+ "://") u = true
                    /\ ~ In u (string_urls known))
    /\ (List.NoDup (string_urls known) -> List.NoDup (string_urls known')).

(** The settings of node S1 of a cluster of two, and what a peer reports:
    S1 itself, S2 which S1 knows, a new node S3, S3 again, and a node of
    another protocol. *)
Definition settings_S1 : Setting :=
  mkSetting (Some "tcp") (Some "localhost") (Some 15001)
    (Some [[("id", VStr "S2"); ("url", VStr "tcp://localhost:15002")]]).

Definition reported_nodes : value :=
  VArr [ VObj [("id", VStr "S1"); ("url", VStr "tcp://localhost:15001")];
         VObj [("id", VStr "S2"); ("url", VStr "tcp://localhost:15002")];
         VObj [("id", VStr "S3"); ("url", VStr "tcp://localhost:15003")];
         VObj [("id", VStr "S3"); ("url", VStr "tcp://localhost:15003")];
         VObj [("id", VStr "S4"); ("url", VStr "ws://localhost:15004")] ].

(** A server in the middle of a consensus round that holds a temporary
    transaction, a transaction that waits for the end of the round, and a
    second temporary transaction. *)
Definition tx_temp1 : object :=
  (1%nat, [("transactionId", VStr "t1"); ("@temp", VNum 100)]).
Definition tx_waiting : object := (2%nat, [("transactionId", VStr "t2")]).
Definition tx_temp3 : object :=
  (3%nat, [("transactionId", VStr "t3"); ("@temp", VNum 200)]).

Definition busy_server : BlockchainServer :=
  mkServer true [tx_temp1; tx_waiting; tx_temp3] (new "1.0" None).

End Server.
(* ===================================================================== *)
(** * The proof-of-work consensus: the timer (src/consensus/pow.js) *)
(* ===================================================================== *)

Module Pow.
Import Json LevelDB Blockchain Server.

(** What the callback of the timer does besides changing the server. *)
Inductive effect : Type :=
| Log (message : string)
| BroadcastStartPow (beginTime : Z)
| ComputeProofOfWork.

Section Timer.

(** [current - x < 30*60*1000] for an ["@temp"] [x] that is not a number:
    the language coerces [x], or throws. *)
Variable recent : Z -> value -> result bool.

(** Whether the sweep of the backlog keeps a transaction. *)
Definition kept (current : Z) (transaction : object) : result bool :=
  match get_attr "@temp" (snd transaction) with
  | None | Some VNull => Returned true
  | Some (VNum stamp) => Returned (current - stamp <? 30 * 60 * 1000)
  | Some x => recent current x
  end.

(** The callback of [setInterval] in [startConsensus], up to the moment
    it starts the search for the proof of work. [current] and [clock] are
    the two readings of the clock; [terminated] says whether the server
    is closed. The callback may throw: the server is returned as the
    exception leaves it. *)
Definition tick (terminated : bool) (current clock : Z) (server : BlockchainServer)
  : BlockchainServer * result (list effect) :=
  if terminated then (server, Returned [])
  else if processingConsensus server then (server, Returned [Log "Already in process."])
  else
    let server := mkServer true (transactionBacklog server) (blockchain server) in
    let swept :=
      match transactionBacklog server with
      | [] => Returned []
      | backlog => filter_with (kept current) backlog
      end in
    match swept with
    | Thrown e => (server, Thrown e)
    | Returned backlog =>
        let server := mkServer true backlog (blockchain server) in
        match bc_transactions (blockchain server) with
        | [] => (server, Returned [])
        | _ =>
            (server,
             Returned [Log "started the consensus."; BroadcastStartPow (clock + 300);
                       ComputeProofOfWork])
        end
    end.

(** What a node does by itself and for its clients: its timer fires,
    a transaction is added, transactions are finalized. *)
Inductive local_step : BlockchainServer -> BlockchainServer -> Prop :=
| local_tick (current clock : Z) (server : BlockchainServer) :
    local_step server (fst (tick false current clock server))
| local_addTransaction (transaction : request) (temporary : option bool) (now : Z)
    (server : BlockchainServer) :
    local_step server (snd (Server.addTransaction transaction temporary now server))
| local_commitTransaction (transactionIds : list value) (server : BlockchainServer) :
    local_step server (Server.commitTransaction transactionIds server).

End Timer.

(** A server with three transactions in its backlog: one that is not
    temporary, a temporary one of ten minutes ago, a temporary one of
    forty minutes ago; the time is 3 000 000 ms. *)
Definition aging_server : BlockchainServer :=
  mkServer false
    [ (1%nat, [("transactionId", VStr "t1")]);
      (2%nat, [("transactionId", VStr "t2"); ("@temp", VNum 2400000)]);
      (3%nat, [("transactionId", VStr "t3"); ("@temp", VNum 600000)]) ]
    (new "1.0" None).

End Pow.

(* ===================================================================== *)
(** * The Raft consensus engine (src/consensus/raft.js) *)
(* ===================================================================== *)

Module Raft.
Import Json.

Definition node_id : Type := string.

Inductive RaftState : Type := Follower | Candidate | Leader.

(** An entry of [#provisionalBlocks]. *)
Record provisional : Type := mkProvisional {
  transaction : value;
  type : string;
  consensus : Z;
  owner : node_id
}.

(** The [entry] of an append: [{sequence, transaction, type}] for a
    provisional block, [{sequences}] for the order to seal a block. A
    sequence travels as a decimal string; the model holds the integer. *)
Record append_entry : Type := mkEntry {
  entry_type : option string;
  entry_sequence : option Z;
  entry_transaction : option value;
  entry_sequences : option (list Z)
}.

Inductive command : Type :=
| vote (id : option node_id) (term : option Z)
| append (id : option node_id) (term : option Z) (sequence : option Z)
    (entry : option append_entry)
| addTransaction (data : option value)
| addTemporaryTransaction (data : option value)
| commitTransaction (data : option value)
| getDiagnostics
| other_command (name : string).

Inductive data : Type :=
| voted (granted : option bool) (from : option node_id) (term : option Z)
| appended (from : option node_id) (term : option Z) (sequence : option Z)
| diagnostics
| other_data (name : string).

Inductive message : Type :=
| Command (c : command)
| Data (d : data).

(** What a handler does besides changing the fields of the engine. *)
Inductive effect : Type :=
| Broadcast (m : message)
| Reply (m : message)
| SendToNode (m : message) (to : node_id)
| Heartbeat
| WaitAndForward
| WaitAndForwardCommitting
| EngineAddTransaction (transaction : value) (temporary : bool)
| EngineCommitTransaction (transaction : value)
| CreateBlock
| NotifyLastBlock
| Super.

(** The private fields of the class. *)
Record Raft : Type := mkRaft {
  id : node_id;
  state : RaftState;
  votedId : option node_id;
  leaderId : option node_id;
  votes : list node_id;
  nodes : list node_id;
  term : Z;
  provisionalBlocksequence : Z;
  lostProvisionalBlocksequences : list Z;
  provisionalBlocks : list (Z * provisional);
  transactionBacklog : list value;
  temporaryTransactionBacklog : list value;
  commitedTransactionBacklog : list value
}.

(** [new Raft(settings)] *)
Definition new (id : node_id) (nodes : list node_id) : Raft :=
  mkRaft id Follower None None [] nodes 0 0 [] [] [] [] [].

Definition with_election (state : RaftState) (votedId : option node_id) (votes : list node_id)
    (term : Z) (r : Raft) : Raft :=
  mkRaft (id r) state votedId (leaderId r) votes (nodes r) term
    (provisionalBlocksequence r) (lostProvisionalBlocksequences r) (provisionalBlocks r)
    (transactionBacklog r) (temporaryTransactionBacklog r) (commitedTransactionBacklog r).

Definition with_leaderId (leaderId : option node_id) (r : Raft) : Raft :=
  mkRaft (id r) (state r) (votedId r) leaderId (votes r) (nodes r) (term r)
    (provisionalBlocksequence r) (lostProvisionalBlocksequences r) (provisionalBlocks r)
    (transactionBacklog r) (temporaryTransactionBacklog r) (commitedTransactionBacklog r).

Definition with_provisional (sequence : Z) (lost : list Z) (blocks : list (Z * provisional))
    (r : Raft) : Raft :=
  mkRaft (id r) (state r) (votedId r) (leaderId r) (votes r) (nodes r) (term r)
    sequence lost blocks
    (transactionBacklog r) (temporaryTransactionBacklog r) (commitedTransactionBacklog r).

Definition with_backlogs (transactions temporary commited : list value) (r : Raft) : Raft :=
  mkRaft (id r) (state r) (votedId r) (leaderId r) (votes r) (nodes r) (term r)
    (provisionalBlocksequence r) (lostProvisionalBlocksequences r) (provisionalBlocks r)
    transactions temporary commited.

(** [Set.add] *)
Definition set_add (x : node_id) (s : list node_id) : list node_id :=
  if existsb (String.eqb x) s then s else s ++ [x].

(** [Map.get], [Map.set], [Map.delete] on a map in insertion order. *)
Fixpoint map_get {V : Type} (key : Z) (m : list (Z * V)) : option V :=
  match m with
  | [] => None
  | (k, v) :: rest => if key =? k then Some v else map_get key rest
  end.

Fixpoint map_set {V : Type} (key : Z) (v : V) (m : list (Z * V)) : list (Z * V) :=
  match m with
  | [] => [(key, v)]
  | (k, v') :: rest => if key =? k then (k, v) :: rest else (k, v') :: map_set key v rest
  end.

Definition map_delete {V : Type} (key : Z) (m : list (Z * V)) : list (Z * V) :=
  List.filter (fun kv => negb (key =? fst kv)) m.

(** [array.includes(x)] and [array.splice(array.indexOf(x), 1)] *)
Definition includes (x : Z) (l : list Z) : bool := existsb (Z.eqb x) l.

Fixpoint remove_first (x : Z) (l : list Z) : list Z :=
  match l with
  | [] => []
  | y :: rest => if x =? y then rest else y :: remove_first x rest
  end.

(** The integers [from], [from + 1], ... below [to]. *)
Definition range (from to : Z) : list Z :=
  map (fun k => from + Z.of_nat k) (seq 0 (Z.to_nat (to - from))).

(** [Math.floor((this.#nodes.length+1)/2)+1] *)
Definition quorum (r : Raft) : Z := (Z.of_nat (length (nodes r)) + 1) / 2 + 1.

(** What a sealed provisional entry does to the engine. *)
Definition drain_effects (entry : provisional) : list effect :=
  if String.eqb (type entry) "normal" then [EngineAddTransaction (transaction entry) false]
  else if String.eqb (type entry) "temporary" then [EngineAddTransaction (transaction entry) true]
  else if String.eqb (type entry) "commit" then [EngineCommitTransaction (transaction entry)]
  else [].

Definition append_of (r : Raft) (sequence : Z) (entry : provisional) : message :=
  Command (append (Some (id r)) (Some (term r)) None
             (Some (mkEntry (Some (type entry)) (Some sequence) (Some (transaction entry)) None))).

(** [#watchProvisionalBlocks]: the commit sweep of the leader. *)
Definition watchProvisionalBlocks (r : Raft) : Raft * list effect :=
  match provisionalBlocks r with
  | [] => (r, [])
  | blocks =>
      (* the loop over the map: what is drained, what is left, the two lists *)
      let '(effects, completed, unprocessed) :=
        fold_left (fun acc kv =>
          let '(effects, completed, unprocessed) := acc in
          let (sequence, entry) := (kv : Z * provisional) in
          if quorum r <=? consensus entry
          then (effects ++ drain_effects entry, completed ++ [sequence], unprocessed)
          else if negb (String.eqb (owner entry) (id r))
          then (effects, completed, unprocessed ++ [sequence])
          else (effects, completed, unprocessed))
          blocks ([], [], []) in
      let blocks := fold_left (fun blocks sequence => map_delete sequence blocks) completed blocks in
      let effects :=
        match completed with
        | [] => effects
        | _ =>
            effects
            ++ [Broadcast (Command (append (Some (id r)) (Some (term r)) None
                                      (Some (mkEntry None None None (Some completed)))));
                CreateBlock; NotifyLastBlock]
        end in
      (* the unprocessed entries are taken over and sent again *)
      let '(blocks, resent) :=
        fold_left (fun acc sequence =>
          let '(blocks, resent) := acc in
          match map_get sequence blocks with
          | None => (blocks, resent)
          | Some entry =>
              let entry := mkProvisional (transaction entry) (type entry) 0 (id r) in
              (map_set sequence entry blocks, resent ++ [Broadcast (append_of r sequence entry)])
          end) unprocessed (blocks, []) in
      (with_provisional (provisionalBlocksequence r) (lostProvisionalBlocksequences r) blocks r,
       effects ++ resent)
  end.

(** The callback of the timer set by [heartbeat()]. *)
Definition timeout (r : Raft) : Raft * list effect :=
  match state r with
  | Leader =>
      let (r', effects) := watchProvisionalBlocks r in
      (r', Broadcast (Command (append (Some (id r)) (Some (term r))
                                 (Some (provisionalBlocksequence r)) None))
           :: effects ++ [Heartbeat])
  | _ =>
      let r' := with_leaderId None (with_election Candidate (Some (id r)) [id r] (term r + 1) r) in
      (r', [Broadcast (Command (vote (Some (id r')) (Some (term r')))); Heartbeat])
  end.

(** The loop of the follower's commit sweep; [false] when an entry is
    missing in the middle of the loop (an exception ends the sweep). *)
Fixpoint drain_sequences (sequences : list Z) (blocks : list (Z * provisional))
  : list (Z * provisional) * list effect * bool :=
  match sequences with
  | [] => (blocks, [], true)
  | sequence :: rest =>
      match map_get sequence blocks with
      | None => (blocks, [], false)
      | Some entry =>
          let '(blocks', effects, ok) := drain_sequences rest (map_delete sequence blocks) in
          (blocks', drain_effects entry ++ effects, ok)
      end
  end.

(** [#forwardTransaction] *)
Definition forwardTransaction (r : Raft) : Raft * list effect * bool :=
  match leaderId r with
  | None => (r, [], false)
  | Some leader =>
      if String.eqb leader (id r) then (r, [], true)
      else
        let transactions := transactionBacklog r in
        let temporaryTransactions := temporaryTransactionBacklog r in
        (with_backlogs [] [] (commitedTransactionBacklog r) r,
         (match transactions with
          | [] => []
          | _ => [SendToNode (Command (addTransaction (Some (VArr transactions)))) leader]
          end)
         ++ (match temporaryTransactions with
             | [] => []
             | _ => [SendToNode (Command (addTemporaryTransaction
                                            (Some (VArr temporaryTransactions)))) leader]
             end),
         true)
  end.

(** The error callbacks of the two sends of [#forwardTransaction]: the
    entries are put back at the head of the backlog, but for the first. *)
Definition forward_failed (transactions : list value) (r : Raft) : Raft :=
  with_backlogs (tail transactions ++ transactionBacklog r) (temporaryTransactionBacklog r)
    (commitedTransactionBacklog r) r.

Definition forward_temporary_failed (transactions : list value) (r : Raft) : Raft :=
  with_backlogs (transactionBacklog r) (tail transactions ++ temporaryTransactionBacklog r)
    (commitedTransactionBacklog r) r.

Definition as_array (request : value) : list value :=
  match request with
  | VArr entries => entries
  | _ => [request]
  end.

(** [#addTransaction(request, temporary)] *)
Definition addTransaction_ (request : value) (temporary : bool) (r : Raft) : Raft * list effect :=
  match state r with
  | Leader =>
      let sequence := provisionalBlocksequence r + 1 in
      let type := if temporary then "temporary" else "normal" in
      let entry := mkProvisional request type 0 (id r) in
      let r' := with_provisional sequence (lostProvisionalBlocksequences r)
                  (map_set sequence entry (provisionalBlocks r)) r in
      (r', [Broadcast (append_of r' sequence entry); Heartbeat])
  | _ =>
      let r' :=
        if temporary
        then with_backlogs (transactionBacklog r)
               (temporaryTransactionBacklog r ++ as_array request) (commitedTransactionBacklog r) r
        else with_backlogs (transactionBacklog r ++ as_array request)
               (temporaryTransactionBacklog r) (commitedTransactionBacklog r) r in
      match leaderId r' with
      | Some _ => let '(r'', effects, _) := forwardTransaction r' in (r'', effects)
      | None => (r', [WaitAndForward])
      end
  end.

(** [#forwardCommittingTransaction] *)
Definition forwardCommittingTransaction (r : Raft) : Raft * list effect * bool :=
  match commitedTransactionBacklog r with
  | [] => (r, [], true)
  | transactionIds =>
      match leaderId r with
      | None => (r, [], false)
      | Some leader =>
          if String.eqb leader (id r) then (r, [], true)
          else
            (with_backlogs (transactionBacklog r) (temporaryTransactionBacklog r) [] r,
             [SendToNode (Command (commitTransaction (Some (VArr transactionIds)))) leader],
             true)
      end
  end.

(** [#commitTransaction(request)] *)
Definition commitTransaction_ (request : value) (r : Raft) : Raft * list effect :=
  match state r with
  | Leader =>
      let sequence := provisionalBlocksequence r + 1 in
      let entry := mkProvisional request "commit" 0 (id r) in
      let r' := with_provisional sequence (lostProvisionalBlocksequences r)
                  (map_set sequence entry (provisionalBlocks r)) r in
      (r', [Broadcast (append_of r' sequence entry); Heartbeat])
  | _ =>
      let r' := with_backlogs (transactionBacklog r) (temporaryTransactionBacklog r)
                  (commitedTransactionBacklog r ++ as_array request) r in
      match leaderId r' with
      | Some _ => let '(r'', effects, _) := forwardCommittingTransaction r' in (r'', effects)
      | None => (r', [WaitAndForwardCommitting])
      end
  end.

(** The branch of [handleCommand] for an append that carries a
    provisional block [{type, sequence, transaction}] sent by [sender]. *)
Definition append_provisional (sender : node_id) (type : string) (sequence : Z)
    (transaction : value) (r : Raft) : Raft * list effect :=
  let reply := Reply (Data (appended (Some (id r)) (Some (term r)) (Some sequence))) in
  if (sequence <=? provisionalBlocksequence r)
     && negb (includes sequence (lostProvisionalBlocksequences r))
  then (r, [reply])
  else
    let '(current, lost) :=
      if provisionalBlocksequence r <? sequence
      then (sequence,
            lostProvisionalBlocksequences r ++ range (provisionalBlocksequence r + 1) sequence)
      else if includes sequence (lostProvisionalBlocksequences r)
      then (provisionalBlocksequence r, remove_first sequence (lostProvisionalBlocksequences r))
      else (provisionalBlocksequence r, lostProvisionalBlocksequences r) in
    (with_provisional current lost
       (map_set sequence (mkProvisional transaction type 1 sender) (provisionalBlocks r)) r,
     [reply; Heartbeat]).

(** The branch for an append that carries [{sequences}]. *)
Definition append_sequences (sequences : list Z) (r : Raft) : Raft * list effect :=
  match sequences with
  | [] => (r, [])
  | _ =>
      if existsb (fun sequence =>
                    match map_get sequence (provisionalBlocks r) with
                    | None => true
                    | Some _ => false
                    end) sequences
      then (r, [])
      else
        let '(blocks, effects, ok) := drain_sequences sequences (provisionalBlocks r) in
        (with_provisional (provisionalBlocksequence r) (lostProvisionalBlocksequences r) blocks r,
         Heartbeat :: effects ++ (if ok then [CreateBlock; NotifyLastBlock] else []))
  end.

Definition is_object (v : value) : bool :=
  match v with
  | VObj _ | VArr _ => true
  | _ => false
  end.

(** [handleCommand(command, data, replyHandler)] *)
Definition handleCommand (c : command) (r : Raft) : Raft * list effect :=
  match c with
  | vote (Some candidate) (Some t) =>
      if t <? term r then (r, [])
      else
        let r := if term r <? t then with_election (state r) None (votes r) t r else r in
        match votedId r with
        | Some v =>
            if negb (String.eqb v candidate)
            then (r, [Reply (Data (voted (Some false) None (Some (term r))))])
            else (with_election Follower (Some candidate) (votes r) (term r) r,
                  [Reply (Data (voted (Some true) (Some (id r)) (Some (term r)))); Heartbeat])
        | None =>
            (with_election Follower (Some candidate) (votes r) (term r) r,
             [Reply (Data (voted (Some true) (Some (id r)) (Some (term r)))); Heartbeat])
        end
  | vote _ _ => (r, [])
  | append (Some sender) (Some t) _ entry =>
      let r := if term r <? t then with_election Follower (votedId r) (votes r) t r else r in
      let r := if term r <=? t then with_leaderId (Some sender) r else r in
      match entry with
      | None => (r, [Heartbeat])
      | Some e =>
          match entry_type e, entry_sequence e, entry_transaction e with
          | Some type, Some sequence, Some transaction =>
              append_provisional sender type sequence transaction r
          | _, _, _ =>
              match entry_sequences e with
              | Some sequences => append_sequences sequences r
              | None => (r, [Heartbeat])
              end
          end
      end
  | append _ _ _ _ => (r, [])
  | addTransaction (Some request) =>
      if is_object request then addTransaction_ request false r else (r, [])
  | addTransaction None => (r, [])
  | addTemporaryTransaction (Some request) =>
      if is_object request then addTransaction_ request true r else (r, [])
  | addTemporaryTransaction None => (r, [])
  | commitTransaction (Some request) =>
      match request with
      | VObj _ | VArr _ | VNull => commitTransaction_ request r
      | _ => (r, [])
      end
  | commitTransaction None => (r, [])
  | getDiagnostics => (r, [Reply (Data diagnostics)])
  | other_command _ => (r, [Super])
  end.

(** [handleData(dataName, data)] *)
Definition handleData (d : data) (r : Raft) : Raft * list effect :=
  match d with
  | voted (Some true) (Some from) (Some t) =>
      if t <? term r then (r, [])
      else
        match state r with
        | Candidate =>
            let votes := set_add from (votes r) in
            if quorum r <=? Z.of_nat (length votes)
            then (with_election Leader (votedId r) votes (term r) r,
                  [Broadcast (Command (append (Some (id r)) (Some (term r)) None None));
                   Heartbeat])
            else (with_election Candidate (votedId r) votes (term r) r, [])
        | _ => (r, [])
        end
  | voted _ _ _ => (r, [])
  | appended (Some _) _ (Some sequence) =>
      match map_get sequence (provisionalBlocks r) with
      | None => (r, [])
      | Some entry =>
          let entry := mkProvisional (transaction entry) (type entry) (consensus entry + 1)
                         (owner entry) in
          watchProvisionalBlocks
            (with_provisional (provisionalBlocksequence r) (lostProvisionalBlocksequences r)
               (map_set sequence entry (provisionalBlocks r)) r)
      end
  | appended _ _ _ => (r, [])
  | diagnostics => (r, [Super])
  | other_data name =>
      if String.eqb name "transaction" || String.eqb name "committedTransaction"
      then (r, [])
      else (r, [Super])
  end.

(** ** A cluster *)

(** A message on its way: the sender, the receiver. *)
Record packet : Type := mkPacket {
  src : node_id;
  dst : node_id;
  body : message
}.

(** The engines of the nodes, and every message sent so far: a message
    may be delivered late, more than once, out of order, or never. *)
Record cluster : Type := mkCluster {
  node : node_id -> Raft;
  network : list packet
}.

(** The messages a node sends for its effects; [reply_to] is the peer
    whose message it is handling, if any. *)
Definition packets_of (self : Raft) (reply_to : option node_id) (e : effect) : list packet :=
  match e with
  | Broadcast m => map (fun peer => mkPacket (id self) peer m) (nodes self)
  | Reply m =>
      match reply_to with
      | Some peer => [mkPacket (id self) peer m]
      | None => []
      end
  | SendToNode m to =>
      if existsb (String.eqb to) (nodes self) then [mkPacket (id self) to m] else []
  | _ => []
  end.

Definition update (n : node_id) (r : Raft) (f : node_id -> Raft) : node_id -> Raft :=
  fun m => if String.eqb m n then r else f m.

Definition run (n : node_id) (reply_to : option node_id) (outcome : Raft * list effect)
    (c : cluster) : cluster :=
  mkCluster (update n (fst outcome) (node c))
    (network c ++ flat_map (packets_of (fst outcome) reply_to) (snd outcome)).

(** The other members of the cluster: the setting [nodes] of a node. *)
Definition peers (members : list node_id) (n : node_id) : list node_id :=
  List.filter (fun m => negb (String.eqb m n)) members.

Definition start (members : list node_id) : cluster :=
  mkCluster (fun n => new n (peers members n)) [].

(** A command a client sends to a node. *)
Definition client_command (c : command) : Prop :=
  match c with
  | addTransaction _ | addTemporaryTransaction _ | commitTransaction _
  | getDiagnostics | other_command _ => True
  | _ => False
  end.

(** One step of a cluster whose nodes fail by crashing only: a timer of
    a node fires, a message of the network reaches its receiver, or a
    client sends a command to a node. A crashed node takes no step. *)
Inductive step (members : list node_id) : cluster -> cluster -> Prop :=
| step_timeout (n : node_id) (c : cluster) :
    In n members ->
    step members c (run n None (timeout (node c n)) c)
| step_command (p : packet) (cmd : command) (c : cluster) :
    In p (network c) -> In (dst p) members -> body p = Command cmd ->
    step members c (run (dst p) (Some (src p)) (handleCommand cmd (node c (dst p))) c)
| step_data (p : packet) (d : data) (c : cluster) :
    In p (network c) -> In (dst p) members -> body p = Data d ->
    step members c (run (dst p) (Some (src p)) (handleData d (node c (dst p))) c)
| step_client (n : node_id) (cmd : command) (c : cluster) :
    In n members -> client_command cmd ->
    step members c (run n None (handleCommand cmd (node c n)) c)
| step_forward_failed (n : node_id) (transactions : list value) (temporary : bool)
    (c : cluster) :
    In n members ->
    step members c
      (run n None
         (if temporary then forward_temporary_failed transactions (node c n)
          else forward_failed transactions (node c n), []) c)
| step_forward_again (n : node_id) (committing : bool) (c : cluster) :
    In n members ->
    step members c
      (run n None
         (fst (if committing then forwardCommittingTransaction (node c n)
               else forwardTransaction (node c n))) c).

Inductive reachable (members : list node_id) : cluster -> Prop :=
| reachable_start : reachable members (start members)
| reachable_step (c c' : cluster) :
    reachable members c -> step members c c' -> reachable members c'.

(** [n] is the leader of term [t]. *)
Definition leader_of (c : cluster) (n : node_id) (t : Z) : Prop :=
  state (node c n) = Leader /\ term (node c n) = t.

(** [voter] has granted its vote of term [t] to [candidate]: the reply is
    in the network. *)
Definition granted (c : cluster) (voter candidate : node_id) (t : Z) : Prop :=
  In (mkPacket voter candidate (Data (voted (Some true) (Some voter) (Some t)))) (network c).

(** The lost sequences of a node are distinct and below its current
    sequence. *)
Definition lost_bounded (r : Raft) : Prop :=
  List.NoDup (lostProvisionalBlocksequences r)
  /\ forall k, In k (lostProvisionalBlocksequences r) -> k < provisionalBlocksequence r.

(** The handler has left the lost sequences as they were, and the
    current sequence has not decreased. *)
Definition keeps_lost (r r' : Raft) : Prop :=
  lostProvisionalBlocksequences r' = lostProvisionalBlocksequences r
  /\ provisionalBlocksequence r <= provisionalBlocksequence r'.

(** ** The vocabulary of the election proof *)

(** The messages of an election: a request for a vote, a granted vote. *)
Definition election_message (m : message) : bool :=
  match m with
  | Command (vote _ _) => true
  | Data (voted (Some true) _ _) => true
  | _ => false
  end.

Definition message_of (e : effect) : option message :=
  match e with
  | Broadcast m | Reply m | SendToNode m _ => Some m
  | _ => None
  end.

(** Effects that send no message of an election. *)
Definition calm (effects : list effect) : Prop :=
  Forall (fun e => forall m, message_of e = Some m -> election_message m = false) effects.

(** The handler has left the vote and the votes as they were; the term
    has not changed, or it has grown and the node is a follower. *)
Definition quiet (r r' : Raft) : Prop :=
  id r' = id r /\ nodes r' = nodes r /\ votedId r' = votedId r /\ votes r' = votes r
  /\ ((state r' = state r /\ term r' = term r) \/ (state r' = Follower /\ term r < term r')).

(** The node grants its vote of term [t] to [candidate]. *)
Definition grants (r r' : Raft) (effects : list effect) (candidate : node_id) (t : Z) : Prop :=
  term r <= t /\ (term r < t \/ votedId r = None \/ votedId r = Some candidate)
  /\ id r' = id r /\ nodes r' = nodes r
  /\ state r' = Follower /\ votedId r' = Some candidate /\ votes r' = votes r /\ term r' = t
  /\ effects = [Reply (Data (voted (Some true) (Some (id r)) (Some t))); Heartbeat].

(** The node becomes a candidate of the next term. *)
Definition runs (r r' : Raft) (effects : list effect) : Prop :=
  state r <> Leader
  /\ id r' = id r /\ nodes r' = nodes r
  /\ state r' = Candidate /\ votedId r' = Some (id r) /\ votes r' = [id r]
  /\ term r' = term r + 1
  /\ effects = [Broadcast (Command (vote (Some (id r)) (Some (term r + 1)))); Heartbeat].

(** The candidate counts a vote. *)
Definition counts (r r' : Raft) (from : node_id) (t : Z) : Prop :=
  term r <= t /\ state r = Candidate
  /\ id r' = id r /\ nodes r' = nodes r /\ votedId r' = votedId r /\ term r' = term r
  /\ votes r' = set_add from (votes r)
  /\ (state r' = Candidate
      \/ (state r' = Leader /\ quorum r <= Z.of_nat (length (votes r')))).

(** The invariant: every node has its settings; a message of an election
    comes from a member and tells the truth about its sender; a request
    or a granted vote of a term exists only once its sender and its
    receiver have reached the term; a voter that is still in the term has
    voted for the receiver of its vote; no voter grants two votes in a
    term; the votes of a candidate or leader are its own and the ones
    granted to it in its term; a leader holds a quorum of votes. *)
Record invariant (members : list node_id) (c : cluster) : Prop := mkInvariant {
  configured : forall n, id (node c n) = n /\ nodes (node c n) = peers members n;
  sources_ok : forall p, In p (network c) -> In (src p) members;
  requests_ok : forall p cand t, In p (network c) -> body p = Command (vote cand t) ->
    cand = Some (src p) /\ exists t', t = Some t' /\ t' <= term (node c (src p));
  grants_ok : forall p from t, In p (network c) -> body p = Data (voted (Some true) from t) ->
    from = Some (src p)
    /\ exists t', t = Some t' /\ t' <= term (node c (dst p)) /\ t' <= term (node c (src p))
        /\ (term (node c (src p)) = t' -> votedId (node c (src p)) = Some (dst p));
  votes_once : forall p1 p2 f1 f2 t, In p1 (network c) -> In p2 (network c) ->
    body p1 = Data (voted (Some true) f1 t) -> body p2 = Data (voted (Some true) f2 t) ->
    src p1 = src p2 -> dst p1 = dst p2;
  candidates_ok : forall n, state (node c n) <> Follower ->
    In n members /\ votedId (node c n) = Some n /\ List.NoDup (votes (node c n))
    /\ forall v, In v (votes (node c n)) ->
         In v members /\ (v = n \/ granted c v n (term (node c n)));
  leaders_ok : forall n, state (node c n) = Leader ->
    quorum (node c n) <= Z.of_nat (length (votes (node c n)))
}.

(** A cluster of three nodes and a run in which S1 is elected. *)
Definition three : list node_id := ["S1"; "S2"; "S3"].

Definition vote_of_S1 : packet := mkPacket "S1" "S2" (Command (vote (Some "S1") (Some 1))).
Definition voted_by_S2 : packet := mkPacket "S2" "S1" (Data (voted (Some true) (Some "S2") (Some 1))).

Definition elected_S1 : cluster :=
  let c1 := run "S1" None (timeout (node (start three) "S1")) (start three) in
  let c2 := run "S2" (Some "S1") (handleCommand (vote (Some "S1") (Some 1)) (node c1 "S2")) c1 in
  run "S1" (Some "S2") (handleData (voted (Some true) (Some "S2") (Some 1)) (node c2 "S1")) c2.

(** A follower that has seen sequence 5 and misses sequence 3. *)
Definition follower_sample : Raft :=
  mkRaft "S2" Follower (Some "S1") (Some "S1") [] ["S1"; "S3"] 1 5 [3]
    [(4, mkProvisional (VObj []) "normal" 1 "S1")] [] [] [].

(** The leader's append of the missed sequence 3, as [follower_sample]
    receives it. *)
Definition append_of_3 : command :=
  append (Some "S1") (Some 1) None
    (Some (mkEntry (Some "normal") (Some 3) (Some (VObj [])) None)).

(** What a step does to the term and the state of a node: the term does
    not decrease; a node whose term has grown is not the leader; a node
    that has become the leader was a candidate of the same term and
    holds a quorum of votes. *)
Definition moves (r r' : Raft) : Prop :=
  term r <= term r'
  /\ (term r < term r' -> state r' <> Leader)
  /\ (state r' = Leader -> state r <> Leader ->
      state r = Candidate /\ term r' = term r
      /\ quorum r' <= Z.of_nat (length (votes r'))).

(** A follower of S1 that waits for the leader with two transactions to
    forward. *)
Definition forwarding_sample : Raft :=
  mkRaft "S2" Follower (Some "S1") (Some "S1") [] ["S1"; "S3"] 1 0 [] []
    [VObj [("transactionId", VStr "t1")]; VObj [("transactionId", VStr "t2")]] [] [].

(** The leader S1 of a cluster of three, and the leader with a
    provisional block of its own under sequence 1. *)
Definition leader_sample : Raft :=
  mkRaft "S1" Leader (Some "S1") None ["S1"; "S2"] ["S2"; "S3"] 1 0 [] [] [] [] [].

Definition leader_with_block : Raft :=
  mkRaft "S1" Leader (Some "S1") None ["S1"; "S2"] ["S2"; "S3"] 1 1 []
    [(1, mkProvisional (VObj [("transactionId", VStr "t1")]) "normal" 0 "S1")] [] [] [].

(** A follower of term 1 that has seen no sequence. *)
Definition fresh_follower : Raft :=
  mkRaft "S2" Follower (Some "S1") (Some "S1") [] ["S1"; "S3"] 1 0 [] [] [] [] [].

End Raft.
(* ===================================================================== *)
(** * The TCP client: sending with retries (src/communication/tcp.js) *)
(* ===================================================================== *)

Module Tcp.
Import Json.

(** What [send] is given as [message]: nothing ([null], [undefined]), an
    object, or a string. *)
Inductive payload : Type :=
| Missing
| Object (v : value)
| Text (s : string).

(** What [send] does: it hands [encoded] to the socket, it throws, it
    calls the error handler, it emits "error". *)
Inductive event : Type :=
| SendAndWait (encoded : option string)
| Throw (error : string)
| ErrorHandler
| EmitError.

(** The client as a call of [send] finds it: whether [#client] is
    there, whether the status is "opened", and whether the socket reports
    an error for what it is given. *)
Record attempt : Type := mkAttempt {
  connected : bool;
  opened : bool;
  failed : bool
}.

Section Send.

(** The text [JSON.stringify] writes for a JSON tree. *)
Variable json_text : json -> string.

(** [send(message, errorHandler, retry)] and the calls of [send] its
    timers make; [socket] describes the client at each of these calls,
    the first call first (after the last one the client is gone). *)
Fixpoint send (message : payload) (errorHandler : bool) (retry : option Z)
    (socket : list attempt) : list event :=
  match message with
  | Missing => []
  | _ =>
      let encoded :=
        match message with
        | Object v => Some (json_text (serialize v))
        | _ => None
        end in
      match socket with
      | [] => []
      | now :: later =>
          if negb (connected now) then []
          else if negb (opened now) then [Throw "The socket is not open yet."]
          else
            SendAndWait encoded
            :: (if failed now then
                  let retry := default 3 retry in
                  if 0 <? retry
                  then send (match encoded with Some s => Text s | None => Missing end)
                         errorHandler (Some (retry - 1)) later
                  else (if errorHandler then [ErrorHandler] else []) ++ [EmitError]
                else [])
      end
  end.

End Send.

(** A socket that is open and fails every time. *)
Definition failing_socket : list attempt :=
  [mkAttempt true true true; mkAttempt true true true; mkAttempt true true true;
   mkAttempt true true true; mkAttempt true true true].

End Tcp.

(* ===================================================================== *)
(** * The logger: the time stamp of a line (src/util/logger.js) *)
(* ===================================================================== *)

Module Logger.
Import Json.

(** [s.slice(-n)]: the last [n] characters of [s]. *)
Definition slice_last (n : nat) (s : string) : string :=
  substring (String.length s - n) n s.

(** [("00" + n).slice(-2)] and [("000" + n).slice(-3)] *)
Definition pad2 (n : Z) : string := slice_last 2 ("00" +:+ dec n).
Definition pad3 (n : Z) : string := slice_last 3 ("000" +:+ dec n).

(** [dateString()] for the date whose fields are given ([month] as
    [getMonth()] returns it, from 0). *)
Definition dateString (year month date hours minutes seconds milliseconds : Z) : string :=
  dec year +:+ "/" +:+ pad2 (month + 1) +:+ "/" +:+ pad2 date +:+ " "
  +:+ pad2 hours +:+ ":" +:+ pad2 minutes +:+ ":" +:+ pad2 seconds +:+ ":"
  +:+ pad3 milliseconds.

End Logger.

(* ===================================================================== *)
(** * Properties of the serializer *)
(* ===================================================================== *)

Module JsonProps.
Import Json.

(** Induction over values, through the lists that nest them. *)
Lemma value_rect_nested (P : value -> Prop) :
  P VNull -> (forall b, P (VBool b)) -> (forall n, P (VNum n)) ->
  (forall s, P (VStr s)) -> (forall n, P (VBig n)) ->
  (forall elems, Forall P elems -> P (VArr elems)) ->
  (forall fields, Forall (fun kv => P (snd kv)) fields -> P (VObj fields)) ->
  forall v, P v.
Proof.
  intros HNull HBool HNum HStr HBig HArr HObj.
  fix IH 1. intros [ | b | n | s | n | elems | fields ].
  - exact HNull.
  - apply HBool.
  - apply HNum.
  - apply HStr.
  - apply HBig.
  - apply HArr. induction elems as [ | x rest IHrest ]; constructor.
    + apply IH.
    + exact IHrest.
  - apply HObj. induction fields as [ | [k x] rest IHrest ]; constructor.
    + apply IH.
    + exact IHrest.
Qed.

Lemma digits_of_dec (n : Z) : 0 <= n -> digits_of (VStr (dec n)) = Some n.
Proof.
  intros Hn. unfold digits_of, dec. cbn [to_string].
  destruct n as [ | p | p ]; [ reflexivity | | lia ].
  cbn [Z.to_int NilZero.string_of_int].
  rewrite NilZero.usu by apply DecimalPos.Unsigned.to_uint_nonnil.
  unfold Z.of_uint. rewrite DecimalPos.Unsigned.of_to. reflexivity.
Qed.

Lemma reviver_stable_scalar (key : string) (v : value) :
  (key = "index" -> digits_of v = None) -> reviver key v = v.
Proof.
  intros H. unfold reviver. destruct (String.eqb_spec key "index") as [-> | _].
  - now rewrite H.
  - reflexivity.
Qed.

Lemma reviver_big (n : Z) : 0 <= n -> reviver "index" (VStr (dec n)) = VBig n.
Proof.
  intros Hn. unfold reviver. change (String.eqb "index" "index") with true.
  cbv iota. rewrite (digits_of_dec n Hn). reflexivity.
Qed.

Lemma revive_serialize (v : value) :
  forall key, stable key v -> revive key (serialize v) = v.
Proof.
  induction v as [ | b | n | s | n | elems IH | fields IH ] using value_rect_nested;
    intros key Hst.
  - apply reviver_stable_scalar, Hst.
  - apply reviver_stable_scalar, Hst.
  - apply reviver_stable_scalar, Hst.
  - apply reviver_stable_scalar, Hst.
  - destruct Hst as [-> Hn]. apply reviver_big, Hn.
  - destruct Hst as [Helems Hkey]. cbn [serialize revive].
    assert (Hgo : forall i,
      (fix go (i : nat) (l : list value) : Prop :=
         match l with
         | [] => True
         | x :: rest => stable (dec (Z.of_nat i)) x /\ go (S i) rest
         end) i elems ->
      (fix go (i : nat) (l : list json) : list value :=
         match l with
         | [] => []
         | x :: rest => revive (dec (Z.of_nat i)) x :: go (S i) rest
         end) i (map serialize elems) = elems).
    { clear Helems Hkey. induction IH as [ | x rest Hx _ IHrest ]; intros i Hi.
      - reflexivity.
      - destruct Hi as [Hxi Hi]. cbn [map]. rewrite (Hx _ Hxi), (IHrest _ Hi).
        reflexivity. }
    rewrite (Hgo 0%nat Helems). apply reviver_stable_scalar, Hkey.
  - cbn [serialize revive].
    assert (Hgo :
      (fix go (l : list (string * json)) : list (string * value) :=
         match l with
         | [] => []
         | (k, x) :: rest => (k, revive k x) :: go rest
         end) (map (fun kv => (fst kv, serialize (snd kv))) fields) = fields).
    { cbn [stable] in Hst. induction IH as [ | [k x] rest Hx _ IHrest ].
      - reflexivity.
      - destruct Hst as [Hkx Hst]. cbn [map fst snd].
        cbn [snd] in Hx. rewrite (Hx _ Hkx), (IHrest Hst). reflexivity. }
    rewrite Hgo. apply reviver_stable_scalar. intros _. reflexivity.
Qed.

(** Induction over JSON trees. *)
Lemma json_rect_nested (P : json -> Prop) :
  P JNull -> (forall b, P (JBool b)) -> (forall n, P (JNum n)) -> (forall s, P (JStr s)) ->
  (forall elems, Forall P elems -> P (JArr elems)) ->
  (forall fields, Forall (fun kv => P (snd kv)) fields -> P (JObj fields)) ->
  forall j, P j.
Proof.
  intros HNull HBool HNum HStr HArr HObj.
  fix IH 1. intros [ | b | n | s | elems | fields ].
  - exact HNull.
  - apply HBool.
  - apply HNum.
  - apply HStr.
  - apply HArr. induction elems as [ | x rest IHrest ]; constructor.
    + apply IH.
    + exact IHrest.
  - apply HObj. induction fields as [ | [k x] rest IHrest ]; constructor.
    + apply IH.
    + exact IHrest.
Qed.

Lemma of_uint_nonneg (d : Decimal.uint) : 0 <= Z.of_uint d.
Proof. unfold Z.of_uint. apply N2Z.is_nonneg. Qed.

(** What the reviver returns is stable, when the children of the value
    are. *)
Lemma reviver_stable (key : string) (v : value) :
  (forall n, v <> VBig n) ->
  ((key = "index" -> digits_of v = None) -> stable key v) ->
  stable key (reviver key v).
Proof.
  intros Hbig Hv. unfold reviver. destruct (String.eqb_spec key "index") as [-> | Hne].
  - destruct (digits_of v) as [ n | ] eqn:Hd.
    + cbn. split; [ reflexivity | ]. unfold digits_of in Hd.
      destruct (NilZero.uint_of_string _); [ | discriminate ].
      injection Hd as <-. apply of_uint_nonneg.
    + apply Hv. intros _. reflexivity.
  - apply Hv. intros Heq. contradiction.
Qed.

(** Every value read from a JSON text is stable: what came over the wire
    is written to the store and read back unchanged. *)
Lemma deserialized_stable (j : json) : forall key, stable key (revive key j).
Proof.
  induction j as [ | b | n | s | elems IH | fields IH ] using json_rect_nested; intros key;
    cbn [revive]; apply reviver_stable; try (intros; discriminate); try (intros H; exact H).
  - intros Hkey. cbn [stable]. split; [ | exact Hkey ].
    clear Hkey. generalize 0%nat. induction IH as [ | x rest Hx _ IHrest ]; intros i.
    + exact I.
    + split; [ apply Hx | apply IHrest ].
  - intros _. cbn [stable]. induction IH as [ | [k x] rest Hx _ IHrest ].
    + exact I.
    + split; [ apply Hx | apply IHrest ].
Qed.

Lemma wire_roundtrip (j : json) :
  deserialize (serialize (deserialize j)) = deserialize j.
Proof. unfold deserialize. apply revive_serialize, deserialized_stable. Qed.

(** C7, as stated, fails: the reviver turns the digit string under the
    key [index] of a transaction into a BigInt, so the round trip does not
    give the transaction back. *)
Lemma C7_roundtrip_counterexample :
  ~ (forall x : value, deserialize (serialize x) = x).
Proof.
  intros H. specialize (H tx_with_index). vm_compute in H. discriminate H.
Qed.

(** C7 (amended): [deserialize (serialize x) = x] for every block or
    transaction [x] in which a BigInt occurs only as a non-negative value
    of a key [index] and no other value under a key [index] has an
    all-digit string form. *)
Theorem C7_roundtrip_stable (x : value) :
  stable "" x -> deserialize (serialize x) = x.
Proof. intros Hst. unfold deserialize. apply revive_serialize, Hst. Qed.

Lemma C7_roundtrip_stable_witness :
  let block :=
    VObj [("version", VStr "1.0"); ("index", VBig 7); ("timestamp", VNum 1639065600000);
          ("nonce", VNum 0); ("prevHash", VStr "ab"); ("hash", VStr "cd");
          ("transactions", VArr [VObj [("transactionId", VStr "t1"); ("amount", VNum 100)]])] in
  deserialize (serialize block) = block.
Proof.
  intros block. apply (C7_roundtrip_stable block).
  vm_compute. repeat split; try discriminate; try reflexivity; try (intros; discriminate).
Defined.

End JsonProps.
(* ===================================================================== *)
(** * Properties of the block store queries *)
(* ===================================================================== *)

Module LevelDBProps.
Import Json LevelDB.

Section Offset.

Variable js_lt : value -> value -> bool.

Lemma on_data_offset (o1 o2 limit : Z) (ts te : option Z) (headerOnly : bool)
    (cond : option condition_arg) (s : scan) (data : Z * Block) :
  on_data js_lt o1 limit ts te headerOnly cond s data
  = on_data js_lt o2 limit ts te headerOnly cond s data.
Proof.
  unfold on_data, splice_nothing.
  destruct (scan_finished s); [ reflexivity | ].
  destruct (fst data =? 0); [ reflexivity | ].
  destruct (negb (in_timestamps ts te (snd data))); [ reflexivity | ].
  match goal with |- mbind ?k ?m = mbind _ ?m => destruct m as [ [ block | ] | e ] end;
    cbn; try reflexivity.
  destruct headerOnly; [ reflexivity | ].
  destruct (transactions block) as [ txs | ]; [ | reflexivity ].
  now destruct (_ <? o1), (_ <? o2).
Qed.

Lemma for_each_ext {A S : Type} (f g : S -> A -> result S) (l : list A) :
  (forall s x, f s x = g s x) -> forall s, for_each f l s = for_each g l s.
Proof.
  intros Hfg. induction l as [ | x rest IH ]; intros s; cbn.
  - reflexivity.
  - rewrite Hfg. destruct (g s x); [ apply IH | reflexivity ].
Qed.

Lemma restoreBlocksSerially_offset (reverse : bool) (o1 o2 limit : Z) (ts te : option Z)
    (headerOnly : bool) (cond : option condition_arg) (db : storage) :
  restoreBlocksSerially js_lt reverse o1 limit ts te headerOnly cond db
  = restoreBlocksSerially js_lt reverse o2 limit ts te headerOnly cond db.
Proof.
  unfold restoreBlocksSerially.
  rewrite (for_each_ext _ (on_data js_lt o2 limit ts te headerOnly cond)).
  - reflexivity.
  - intros s x. apply on_data_offset.
Qed.

Lemma restoreBlocksWithIndexes_offset (reverse : bool) (o1 o2 limit : Z) (ts te : option Z)
    (headerOnly : bool) (cond : condition_arg) (db : storage)
    (ix : gmap string (gmap string (list Z))) :
  restoreBlocksWithIndexes js_lt reverse o1 limit ts te headerOnly cond db ix
  = restoreBlocksWithIndexes js_lt reverse o2 limit ts te headerOnly cond db ix.
Proof. reflexivity. Qed.

(** C10: the [offset] field of a query has no effect. Two runs of
    [restoreBlocks] on queries that differ in [offset] only (any two
    values, or none) return the same blocks, or throw alike, on the
    index-assisted path and on the serial scan. *)
Theorem C10_offset_has_no_effect (q : BlockQuery) (o1 o2 : option value) (db : storage) :
  restoreBlocks js_lt (Some (with_offset q o1)) db
  = restoreBlocks js_lt (Some (with_offset q o2)) db.
Proof.
  unfold restoreBlocks. cbn [with_offset direction offset limit timestampStart timestampEnd
    headerOnly transactionCondition mbind option_bind].
  destruct (indexStorages db) as [ ix | ], (transactionCondition q) as [ cond | ];
    try apply restoreBlocksSerially_offset.
  match goal with |- (if ?e then _ else _) = _ => destruct e end.
  - apply restoreBlocksWithIndexes_offset.
  - apply restoreBlocksSerially_offset.
Qed.

(** C9 on the serial scan, at the failing input: the store holds the
    genesis block and block 1, the query asks for one block, oldest
    first. Block 1 passes every filter (it is the answer without the
    limit), yet the answer with [limit = 1] is empty: the limit was spent
    on the genesis block, which the scan reads and skips. *)
Theorem C9_limit_counts_scanned_entries :
  restoreBlocks js_lt (Some (mkQuery (Some "forward") None None None None None None)) store_sample
    = Returned [EBlock block1_sample]
  /\ restoreBlocks js_lt (Some first_block_query) store_sample = Returned [].
Proof. split; reflexivity. Qed.

(** The two paths on the same blocks and the same query (the first
    block that holds transaction t1, oldest first): with the index the
    limit is applied to the blocks that passed the filter, and block 1 is
    returned; without it the scan stops after the genesis block, and
    nothing is returned. *)
Lemma limit_on_the_two_paths :
  restoreBlocks js_lt (Some first_block_of_t1_query) indexed_store_sample
    = Returned [EBlock block1_sample]
  /\ restoreBlocks js_lt (Some first_block_of_t1_query) store_sample = Returned [].
Proof. split; vm_compute; reflexivity. Qed.

End Offset.

End LevelDBProps.

(* ===================================================================== *)
(** * Properties of the blockchain engine *)
(* ===================================================================== *)

Module BlockchainProps.
Import Json LevelDB Blockchain.

(** ** The keyspace *)

Lemma get_put_eq (k : Z) (b : Block) (s : keyspace) : get k (put k b s) = Some b.
Proof.
  induction s as [ | [k0 b0] rest IH ]; cbn.
  - now rewrite Z.eqb_refl.
  - destruct (k <? k0) eqn:Hlt; [ cbn; now rewrite Z.eqb_refl | ].
    destruct (k =? k0) eqn:Heq; cbn.
    + now rewrite Z.eqb_refl.
    + now rewrite Heq.
Qed.

Lemma get_put_ne (k k' : Z) (b : Block) (s : keyspace) :
  k' <> k -> get k' (put k b s) = get k' s.
Proof.
  intros Hne. induction s as [ | [k0 b0] rest IH ]; cbn.
  - now rewrite (proj2 (Z.eqb_neq k' k) Hne).
  - destruct (k <? k0) eqn:Hlt; [ cbn; now rewrite (proj2 (Z.eqb_neq k' k) Hne) | ].
    destruct (k =? k0) eqn:Heq; cbn.
    + apply Z.eqb_eq in Heq. subst k0. now rewrite (proj2 (Z.eqb_neq k' k) Hne).
    + now rewrite IH.
Qed.

Lemma ascending_weaken (lo lo' : Z) (s : keyspace) :
  lo' <= lo -> ascending_from lo s -> ascending_from lo' s.
Proof. destruct s as [ | [k b] rest ]; cbn; [ trivial | ]. intros ? [? ?]. split; [ lia | assumption ]. Qed.

Lemma put_ascending (k : Z) (b : Block) (s : keyspace) : forall lo,
  lo <= k -> ascending_from lo s -> ascending_from lo (put k b s).
Proof.
  induction s as [ | [k0 b0] rest IH ]; intros lo Hlo Hs; cbn.
  - split; [ assumption | exact I ].
  - destruct Hs as [Hk0 Hrest].
    destruct (k <? k0) eqn:Hlt; [ | destruct (k =? k0) eqn:Heq ].
    + apply Z.ltb_lt in Hlt. cbn. repeat split; try lia.
      apply (ascending_weaken (k0 + 1)); [ lia | assumption ].
    + apply Z.eqb_eq in Heq. subst k0. cbn. split; assumption.
    + apply Z.ltb_ge in Hlt. apply Z.eqb_neq in Heq. cbn. split; [ assumption | ].
      apply IH; [ lia | assumption ].
Qed.

Lemma get_lower_bound (k : Z) (b : Block) (s : keyspace) : forall lo,
  ascending_from lo s -> get k s = Some b -> lo <= k.
Proof.
  induction s as [ | [k0 b0] rest IH ]; intros lo Hs Hget; cbn in *; [ discriminate | ].
  destruct Hs as [Hk0 Hrest]. destruct (k =? k0) eqn:Heq.
  - apply Z.eqb_eq in Heq. lia.
  - specialize (IH _ Hrest Hget). lia.
Qed.

Lemma getLastIndex_last_key (db : storage) : getLastIndex db = last_key (-1) (main db).
Proof.
  unfold getLastIndex, getIndexes, createReadStream. cbn [String.eqb Ascii.eqb Bool.eqb].
  change (1 <? 0) with false. change (Z.to_nat 1) with 1%nat. cbv iota.
  generalize (-1). induction (main db) as [ | [k b] rest IH ]; intros d.
  - reflexivity.
  - cbn [rev last_key]. rewrite <- (IH k).
    destruct (rev rest) as [ | [k1 b1] r ]; reflexivity.
Qed.

Lemma last_key_upper (k : Z) (b : Block) (s : keyspace) : forall lo d,
  ascending_from lo s -> get k s = Some b -> k <= last_key d s.
Proof.
  induction s as [ | [k0 b0] rest IH ]; intros lo d Hs Hget; cbn in *; [ discriminate | ].
  destruct Hs as [Hk0 Hrest]. destruct (k =? k0) eqn:Heq.
  - apply Z.eqb_eq in Heq. subst k0. clear IH Hget.
    destruct rest as [ | [k1 b1] rest' ]; cbn; [ lia | ].
    revert k k1 b1 Hk0 Hrest. induction rest' as [ | [k2 b2] r IHr ]; intros k k1 b1 Hk0 Hrest.
    + cbn in *. lia.
    + cbn in Hrest. destruct Hrest as (? & ? & Hr). cbn [last_key].
      specialize (IHr k1 k2 b2). cbn [last_key ascending_from] in IHr.
      etransitivity; [ | apply IHr ]; try lia. split; [ lia | assumption ].
  - apply (IH _ k0 Hrest Hget).
Qed.

Lemma last_key_get (s : keyspace) : forall lo d,
  ascending_from lo s -> s <> [] -> exists b, get (last_key d s) s = Some b.
Proof.
  induction s as [ | [k0 b0] rest IH ]; intros lo d Hs Hne; [ congruence | ].
  destruct Hs as [Hk0 Hrest]. cbn [last_key]. destruct rest as [ | [k1 b1] rest' ].
  - exists b0. cbn. now rewrite Z.eqb_refl.
  - destruct (IH (k0 + 1) k0 Hrest) as [b Hb]; [ congruence | ].
    exists b. cbn [get]. pose proof (get_lower_bound _ _ _ _ Hrest Hb) as Hlow.
    destruct (last_key k0 ((k1, b1) :: rest') =? k0) eqn:Heq; [ | exact Hb ].
    apply Z.eqb_eq in Heq. lia.
Qed.

Lemma last_key_empty_iff (s : keyspace) :
  ascending_from 0 s -> (last_key (-1) s = -1 <-> s = []).
Proof.
  intros Hs. split; [ | intros ->; reflexivity ].
  destruct s as [ | [k b] rest ]; [ reflexivity | ]. intros Heq. exfalso.
  destruct (last_key_get _ 0 (-1) Hs) as [b' Hb']; [ congruence | ].
  rewrite Heq in Hb'. pose proof (get_lower_bound _ _ _ _ Hs Hb'). lia.
Qed.

Lemma main_storeBlock (block : Block) (db : storage) :
  main (storeBlock block db)
  = match index block with Some i => put i block (main db) | None => main db end.
Proof. unfold storeBlock. now destruct (index block). Qed.

(** ** Appending a block after the last one *)

Section Engine.

Variable sha256_hex : string -> string.
Variable json_text : json -> string.

Lemma append_block (db : storage) (last : Z) (lastHash : option string) (block : Block) :
  well_formed db -> chained db -> ends_with db last lastHash ->
  index block = Some (last + 1) -> prevHash block = lastHash ->
  well_formed (storeBlock block db) /\ chained (storeBlock block db)
  /\ ends_with (storeBlock block db) (last + 1) (hash block)
  /\ restoreBlock 0 (storeBlock block db) = restoreBlock 0 db.
Proof.
  intros Hwf Hch (Hlast & lb & Hlb & Hlh) Hidx Hprev.
  unfold well_formed, chained, ends_with, restoreBlock in *.
  rewrite getLastIndex_last_key in *. rewrite !main_storeBlock, Hidx.
  assert (Hlow : 0 <= last) by (eapply get_lower_bound; eassumption).
  assert (Hmax : forall k b, get k (main db) = Some b -> k <= last).
  { intros k b Hk. rewrite <- Hlast. eapply last_key_upper; eassumption. }
  assert (Hwf' : ascending_from 0 (put (last + 1) block (main db)))
    by (apply put_ascending; [ lia | assumption ]).
  assert (Hnew : get (last + 1) (put (last + 1) block (main db)) = Some block)
    by apply get_put_eq.
  split; [ exact Hwf' | ]. split; [ | split ].
  - intros i b b' Hb Hb'.
    destruct (Z.eq_dec (i + 1) (last + 1)) as [Heq | Hne].
    + assert (i = last) by lia. subst i. rewrite Hnew in Hb'.
      rewrite get_put_ne in Hb by lia. congruence.
    + rewrite get_put_ne in Hb' by lia.
      destruct (Z.eq_dec i (last + 1)) as [-> | Hne'].
      * apply Hmax in Hb'. lia.
      * rewrite get_put_ne in Hb by lia. eapply Hch; eassumption.
  - split.
    + apply Z.le_antisymm.
      * destruct (last_key_get _ 0 (-1) Hwf') as [b Hb].
        { intros Hempty. rewrite Hempty in Hnew. discriminate. }
        destruct (Z.eq_dec (last_key (-1) (put (last + 1) block (main db))) (last + 1))
          as [-> | Hne]; [ lia | ].
        rewrite get_put_ne in Hb by exact Hne. apply Hmax in Hb. lia.
      * eapply last_key_upper; eassumption.
    + exists block. split; [ exact Hnew | reflexivity ].
  - apply get_put_ne. lia.
Qed.

(** ** Validation *)

Lemma validate_block_valid (state state' : Z * option string) (block : Block) :
  validate_block sha256_hex json_text state block = Returned state' ->
  valid_block sha256_hex json_text (fst state) (snd state) block
  /\ state' = (fst state + 1, hash block).
Proof.
  destruct state as [currentIndex lastPrevHash]. unfold validate_block, valid_block. cbn [fst snd].
  destruct (version block) as [v | ]; [ | discriminate ].
  destruct (index block) as [i | ]; [ | discriminate ].
  destruct (timestamp block) as [ts | ]; [ | discriminate ].
  destruct (nonce block) as [n | ]; [ | discriminate ].
  destruct (prevHash block) as [p | ]; [ | discriminate ].
  destruct (transactions block) as [txs | ]; [ | discriminate ].
  destruct (i =? currentIndex + 1) eqn:Hi; [ | discriminate ]. cbn [negb].
  destruct (getRootHash sha256_hex json_text txs) as [root | ] eqn:Hroot; [ | discriminate ].
  case_bool_decide as Hh; [ | discriminate ]. cbn [negb].
  case_bool_decide as Hp; [ | discriminate ]. cbn [negb].
  intros [= <-]. apply Z.eqb_eq in Hi. split; [ | reflexivity ].
  exists v, i, ts, n, p, txs, root. repeat split; try reflexivity; assumption.
Qed.

Lemma valid_block_validate (currentIndex : Z) (lastPrevHash : option string) (block : Block) :
  valid_block sha256_hex json_text currentIndex lastPrevHash block ->
  validate_block sha256_hex json_text (currentIndex, lastPrevHash) block
  = Returned (currentIndex + 1, hash block).
Proof.
  intros (v & i & ts & n & p & txs & root & Hv & Hi & Hts & Hn & Hp & Htxs & -> & Hroot & Hh & ->).
  unfold validate_block. rewrite Hv, Hi, Hts, Hn, Hp, Htxs, Z.eqb_refl, Hroot. cbn [negb].
  rewrite !bool_decide_eq_true_2 by (assumption || reflexivity). reflexivity.
Qed.

Lemma validate_chain_valid (blocks : list Block) : forall state state',
  for_each (validate_block sha256_hex json_text) blocks state = Returned state' ->
  valid_chain sha256_hex json_text (fst state) (snd state) blocks.
Proof.
  induction blocks as [ | b rest IH ]; intros state state' Hrun;
    cbn [for_each valid_chain] in *; [ exact I | ].
  destruct (validate_block sha256_hex json_text state b) as [ s1 | e ] eqn:Hb; [ | discriminate ].
  apply validate_block_valid in Hb. destruct Hb as [Hvalid ->].
  split; [ exact Hvalid | ]. apply (IH _ _ Hrun).
Qed.

Lemma valid_chain_validate (blocks : list Block) : forall currentIndex lastPrevHash,
  valid_chain sha256_hex json_text currentIndex lastPrevHash blocks ->
  exists state', for_each (validate_block sha256_hex json_text) blocks
                   (currentIndex, lastPrevHash) = Returned state'.
Proof.
  induction blocks as [ | b rest IH ]; intros currentIndex lastPrevHash Hchain;
    cbn [for_each valid_chain] in *.
  - eexists; reflexivity.
  - destruct Hchain as [Hb Hrest]. rewrite (valid_block_validate _ _ _ Hb).
    apply IH, Hrest.
Qed.

(** Storing a valid chain after the last block keeps the store chained. *)
Lemma store_valid_chain (blocks : list Block) : forall db last lastHash,
  well_formed db -> chained db -> ends_with db last lastHash ->
  valid_chain sha256_hex json_text last lastHash blocks ->
  let db' := fold_left (fun db block => storeBlock block db) blocks db in
  well_formed db' /\ chained db' /\ restoreBlock 0 db' = restoreBlock 0 db
  /\ main db' <> [].
Proof.
  induction blocks as [ | b rest IH ]; intros db last lastHash Hwf Hch Hend Hvalid; cbn.
  - repeat split; try assumption. destruct Hend as (_ & lb & Hlb & _).
    unfold restoreBlock in Hlb. intros Hempty. rewrite Hempty in Hlb. discriminate.
  - destruct Hvalid as [Hb Hrest].
    destruct Hb as (v & i & ts & n & p & txs & root & _ & Hi & _ & _ & Hp & _ & -> & _ & _ & ->).
    destruct (append_block db last (Some p) b Hwf Hch Hend Hi Hp) as (Hwf' & Hch' & Hend' & H0).
    destruct (IH _ _ _ Hwf' Hch' Hend' Hrest) as (? & ? & H0' & ?).
    repeat split; try assumption. now rewrite H0'.
Qed.

(** ** The nonce search *)

Lemma findNonce_from_unique (prevHash currentHash : string) (fuel1 : nat) :
  forall fuel2 start n1 n2,
  findNonce_from sha256_hex fuel1 start prevHash currentHash = Some n1 ->
  findNonce_from sha256_hex fuel2 start prevHash currentHash = Some n2 ->
  n1 = n2.
Proof.
  induction fuel1 as [ | fuel1 IH ]; intros fuel2 start n1 n2 H1 H2; [ discriminate | ].
  destruct fuel2 as [ | fuel2 ]; [ discriminate | ]. cbn [findNonce_from] in H1, H2.
  destruct (starts_with_0000 (generateHash sha256_hex start prevHash currentHash));
    [ congruence | ]. eapply IH; eassumption.
Qed.

Lemma findNonce_from_found (prevHash currentHash : string) (fuel : nat) :
  forall start nonce,
  findNonce_from sha256_hex fuel start prevHash currentHash = Some nonce ->
  starts_with_0000 (generateHash sha256_hex nonce prevHash currentHash) = true.
Proof.
  induction fuel as [ | fuel IH ]; intros start nonce H; [ discriminate | ].
  cbn [findNonce_from] in H.
  destruct (starts_with_0000 (generateHash sha256_hex start prevHash currentHash)) eqn:Hs;
    [ congruence | ]. eapply IH; eassumption.
Qed.

(** ** The invariant of the store *)

Lemma invariant_new (version : string) (indexKeys : option (list string)) :
  store_invariant sha256_hex (bc_storage (new version indexKeys)).
Proof.
  unfold store_invariant, well_formed, chained, genesis_at_0, rooted, restoreBlock. cbn.
  repeat split; try discriminate; congruence.
Qed.

Lemma ends_with_last (db : storage) :
  well_formed db -> main db <> [] ->
  exists lastBlock, restoreBlock (getLastIndex db) db = Some lastBlock
    /\ ends_with db (getLastIndex db) (hash lastBlock) /\ getLastIndex db <> -1.
Proof.
  intros Hwf Hne. unfold ends_with, restoreBlock. rewrite getLastIndex_last_key.
  destruct (last_key_get _ 0 (-1) Hwf Hne) as [b Hb]. exists b.
  repeat split; try assumption.
  - exists b. split; [ assumption | reflexivity ].
  - intros Heq. apply (last_key_empty_iff _ Hwf) in Heq. contradiction.
Qed.

Lemma createBlock_storage (index nonce : value) (prevHash hash : option string) (now : Z)
    (bc : Blockchain) :
  let (r, bc') := createBlock index nonce prevHash hash now bc in
  match r with
  | None => bc' = bc
  | Some block =>
      exists i n p h, index = VBig i /\ nonce = VNum n /\ prevHash = Some p /\ hash = Some h
        /\ LevelDB.index block = Some i /\ LevelDB.prevHash block = Some p
        /\ LevelDB.hash block = Some h
        /\ bc_storage bc' = storeBlock block (bc_storage bc)
  end.
Proof.
  unfold createBlock.
  destruct index; try reflexivity. destruct nonce; try reflexivity.
  destruct prevHash as [ p | ]; try reflexivity. destruct hash as [ h | ]; try reflexivity.
  eexists _, _, _, _. repeat split.
Qed.

Lemma commitProofOfWork_state (index rootHash nonce : value) (now : Z) (bc : Blockchain) :
  snd (commitProofOfWork sha256_hex json_text index rootHash nonce now bc) = bc.
Proof.
  unfold commitProofOfWork.
  destruct index; try reflexivity. destruct rootHash; try reflexivity.
  destruct nonce; try reflexivity. destruct (bc_transactions bc); [ reflexivity | ].
  destruct (_ <=? _); [ reflexivity | ].
  destruct (restoreBlock _ _); reflexivity.
Qed.

Lemma invariant_genesis (fuel : nat) (now : Z) (bc : Blockchain) r bc' :
  generateGenesisBlock sha256_hex fuel now bc = Some (r, bc') ->
  store_invariant sha256_hex (bc_storage bc) -> store_invariant sha256_hex (bc_storage bc').
Proof.
  unfold generateGenesisBlock.
  destruct (findNonce sha256_hex fuel "" H0) as [ nonce | ] eqn:Hnonce; [ | discriminate ].
  cbn [createBlock]. intros [= <- <-]. cbn [bc_storage].
  set (block := mkBlock _ _ _ _ _ _ _).
  intros (Hwf & Hch & Hgen & Hroot).
  unfold store_invariant, well_formed, chained, genesis_at_0, rooted, restoreBlock in *.
  rewrite main_storeBlock. cbn [index block].
  split; [ apply put_ascending; [ lia | assumption ] | ]. split; [ | split ].
  - intros i b b' Hb Hb'.
    destruct (Z.eq_dec i 0) as [-> | Hi].
    + rewrite get_put_eq in Hb. injection Hb as <-.
      rewrite get_put_ne in Hb' by lia.
      destruct Hroot as [b0 Hb0]; [ intros Hempty; rewrite Hempty in Hb'; discriminate | ].
      destruct (Hgen _ Hb0) as (fuel' & nonce' & Hnonce' & Hhash).
      assert (nonce' = nonce) as -> by (eapply findNonce_from_unique; eassumption).
      rewrite (Hch 0 b0 b' Hb0 Hb'). exact Hhash.
    + rewrite get_put_ne in Hb by lia.
      destruct (Z.eq_dec (i + 1) 0) as [Hi' | Hi'].
      * pose proof (get_lower_bound _ _ _ _ Hwf Hb). lia.
      * rewrite get_put_ne in Hb' by lia. eapply Hch; eassumption.
  - intros b0. rewrite get_put_eq. intros [= <-]. exists fuel, nonce. split; [ assumption | reflexivity ].
  - intros _. exists block. apply get_put_eq.
Qed.

Lemma invariant_append (db : storage) (block : Block) :
  store_invariant sha256_hex db -> main db <> [] ->
  index block = Some (getLastIndex db + 1) -> prevHash block = lastHash db ->
  store_invariant sha256_hex (storeBlock block db).
Proof.
  intros (Hwf & Hch & Hgen & Hroot) Hne Hidx Hprev.
  destruct (ends_with_last db Hwf Hne) as (lb & Hlb & Hend & _).
  unfold lastHash in Hprev. rewrite Hlb in Hprev.
  destruct (append_block db _ _ block Hwf Hch Hend Hidx Hprev) as (Hwf' & Hch' & _ & H0).
  repeat split; try assumption.
  - intros b0. rewrite H0. apply Hgen.
  - intros _. rewrite H0. apply Hroot, Hne.
Qed.

Lemma invariant_commitBlock (now : Z) (bc : Blockchain) :
  store_invariant sha256_hex (bc_storage bc) ->
  store_invariant sha256_hex (bc_storage (snd (commitBlock sha256_hex json_text now bc))).
Proof.
  intros Hinv. unfold commitBlock.
  destruct (bc_transactions bc) as [ | t pool ]; [ exact Hinv | ].
  destruct (restoreBlock _ _) as [ lb | ] eqn:Hlb; [ | exact Hinv ].
  destruct (getRootHash _ _ _) as [ root | ]; [ | exact Hinv ].
  pose proof (createBlock_storage (VBig (getLastIndex (bc_storage bc) + 1)) (VNum 0) (hash lb)
                (Some (generateHash sha256_hex 0 (concat_operand (hash lb)) root)) now bc) as Hc.
  destruct (createBlock _ _ _ _ _ _) as [ [ block | ] bc' ]; cbn [snd].
  - destruct Hc as (i & n & p & h & [= <-] & _ & Hp & _ & Hi & Hprev & _ & ->).
    apply invariant_append; try assumption.
    + unfold restoreBlock in Hlb. intros Hempty. rewrite Hempty in Hlb. discriminate.
    + unfold lastHash. rewrite Hlb. congruence.
  - now subst bc'.
Qed.

Lemma setBlocks_on_store (newValue : list Block) (bc : Blockchain) :
  well_formed (bc_storage bc) -> main (bc_storage bc) <> [] ->
  let db := bc_storage bc in
  let remaining := List.filter (newer_than (getLastIndex db)) newValue in
  (~ valid_chain sha256_hex json_text (getLastIndex db) (lastHash db) remaining ->
     exists e, setBlocks sha256_hex json_text (Some newValue) bc = (Thrown e, bc))
  /\ (valid_chain sha256_hex json_text (getLastIndex db) (lastHash db) remaining ->
     setBlocks sha256_hex json_text (Some newValue) bc
     = (Returned tt,
        mkBlockchain (bc_version bc) (bc_transactions bc)
          (fold_left (fun db block => storeBlock block db) remaining db))).
Proof.
  intros Hwf Hne. cbv zeta.
  destruct (ends_with_last _ Hwf Hne) as (lb & Hlb & Hend & Hlast).
  unfold setBlocks.
  set (remaining := List.filter (newer_than (getLastIndex (bc_storage bc))) newValue).
  assert (Hrun : storeBlocks sha256_hex json_text remaining bc
    = match for_each (validate_block sha256_hex json_text) remaining
              (getLastIndex (bc_storage bc), hash lb) with
      | Thrown e => (Thrown e, bc)
      | Returned _ =>
          (Returned tt,
           mkBlockchain (bc_version bc) (bc_transactions bc)
             (fold_left (fun db block => storeBlock block db) remaining (bc_storage bc)))
      end).
  { unfold storeBlocks, validateBlocks.
    rewrite (proj2 (Z.eqb_neq _ _) Hlast), Hlb.
    destruct (for_each _ _ _); reflexivity. }
  assert (HlastHash : lastHash (bc_storage bc) = hash lb) by (unfold lastHash; now rewrite Hlb).
  rewrite HlastHash. split.
  - intros Hinvalid. destruct remaining as [ | b rest ] eqn:Hrem; [ now destruct Hinvalid | ].
    rewrite Hrun.
    destruct (for_each _ _ _) as [ state' | e ] eqn:Hfor.
    + apply validate_chain_valid in Hfor. contradiction.
    + eexists. reflexivity.
  - intros Hvalid. destruct remaining as [ | b rest ] eqn:Hrem.
    + cbn. now destruct bc.
    + rewrite Hrun. destruct (valid_chain_validate _ _ _ Hvalid) as [state' ->]. reflexivity.
Qed.

Lemma invariant_setBlocks (newValue : option (list Block)) (bc : Blockchain) :
  main (bc_storage bc) <> [] ->
  store_invariant sha256_hex (bc_storage bc) ->
  store_invariant sha256_hex (bc_storage (snd (setBlocks sha256_hex json_text newValue bc))).
Proof.
  intros Hne Hinv. destruct newValue as [ newValue | ]; [ | exact Hinv ].
  pose proof Hinv as (Hwf & Hch & Hgen & Hroot).
  destruct (setBlocks_on_store newValue bc Hwf Hne) as [Hbad Hgood].
  destruct (ends_with_last _ Hwf Hne) as (lb & Hlb & Hend & _).
  assert (HlastHash : lastHash (bc_storage bc) = hash lb) by (unfold lastHash; now rewrite Hlb).
  set (remaining := List.filter (newer_than (getLastIndex (bc_storage bc))) newValue) in *.
  destruct (for_each (validate_block sha256_hex json_text) remaining
              (getLastIndex (bc_storage bc), hash lb)) as [ state' | e ] eqn:Hfor.
  - apply validate_chain_valid in Hfor. cbn [fst snd] in Hfor.
    rewrite <- HlastHash in Hfor. rewrite (Hgood Hfor). cbn [snd bc_storage].
    rewrite HlastHash in Hfor.
    destruct (store_valid_chain remaining _ _ _ Hwf Hch Hend Hfor) as (Hwf' & Hch' & H0 & Hne').
    repeat split; try assumption.
    + intros b0. rewrite H0. apply Hgen.
    + intros _. rewrite H0. apply Hroot, Hne.
  - assert (Hinvalid : ~ valid_chain sha256_hex json_text (getLastIndex (bc_storage bc))
                         (lastHash (bc_storage bc)) remaining).
    { rewrite HlastHash. intros Hvalid. apply valid_chain_validate in Hvalid.
      destruct Hvalid as [state' Hvalid]. congruence. }
    destruct (Hbad Hinvalid) as [e' ->]. exact Hinv.
Qed.

Lemma store_invariant_reachable (version : string) (indexKeys : option (list string))
    (bc : Blockchain) :
  reachable sha256_hex json_text holds_a_block version indexKeys bc ->
  store_invariant sha256_hex (bc_storage bc).
Proof.
  induction 1 as [ | bc bc' _ IH Hstep ]; [ apply invariant_new | ].
  destruct Hstep as [ t bc | fuel now bc r bc' Hgen | now bc | i r n now bc | newValue bc Hsync ].
  - unfold addTransaction. now destruct (existsb _ _).
  - eapply invariant_genesis; eassumption.
  - now apply invariant_commitBlock.
  - now rewrite commitProofOfWork_state.
  - now apply invariant_setBlocks.
Qed.

(** C1, as stated, fails: [setBlocks] on an empty store skips the
    validation, so two blocks of a peer that are not chained are stored
    as they are. *)
Lemma C1_hash_chain_counterexample :
  ~ (forall (sha256_hex : string -> string) (json_text : json -> string) (bc : Blockchain),
       reachable sha256_hex json_text any_store "1.0" None bc -> chained (bc_storage bc)).
Proof.
  intros H.
  specialize (H sample_sha256 sample_text
                (snd (setBlocks sample_sha256 sample_text (Some unchained_pair) (new "1.0" None)))).
  assert (Hreach : reachable sample_sha256 sample_text any_store "1.0" None
            (snd (setBlocks sample_sha256 sample_text (Some unchained_pair) (new "1.0" None)))).
  { eapply reachable_step; [ apply reachable_new | ]. apply step_setBlocks. exact I. }
  specialize (H Hreach 0 _ _ eq_refl eq_refl). discriminate H.
Qed.

(** C1 (amended): in every state the engine reaches from an empty store
    through [addTransaction], [generateGenesisBlock], [commitBlock],
    [commitProofOfWork], and [setBlocks] on a store that already holds a
    block, two consecutive blocks [i] and [i+1] of the store are chained:
    the [prevHash] of the second is the [hash] of the first. *)
Theorem C1_hash_chain (version : string) (indexKeys : option (list string)) (bc : Blockchain) :
  reachable sha256_hex json_text holds_a_block version indexKeys bc ->
  forall (i : Z) (b b' : Block),
    restoreBlock i (bc_storage bc) = Some b ->
    restoreBlock (i + 1) (bc_storage bc) = Some b' ->
    prevHash b' = hash b.
Proof. intros Hreach. apply (store_invariant_reachable _ _ _ Hreach). Qed.


(** C4, at the failing input: with a BigInt [index], the type the
    function documents and the one the proof-of-work consensus passes,
    [commitProofOfWork] returns at its type guard: no error is reported,
    whatever [rootHash] and [nonce] are. *)
Theorem C4_bigint_index_reports_nothing (index : Z) (rootHash nonce : value) (now : Z)
    (bc : Blockchain) :
  commitProofOfWork sha256_hex json_text (VBig index) rootHash nonce now bc
  = (Returned None, bc).
Proof. reflexivity. Qed.

(** With a number as [index] the errors of C4 are reported, and nothing
    is stored: [#createBlock] refuses an index that is not a BigInt. *)
Lemma commitProofOfWork_number_index (index : Z) (rootHash : string) (nonce now : Z)
    (bc : Blockchain) (lastBlock : Block) :
  bc_transactions bc <> [] -> getLastIndex (bc_storage bc) < index ->
  restoreBlock (getLastIndex (bc_storage bc)) (bc_storage bc) = Some lastBlock ->
  Some rootHash <> getRootHash sha256_hex json_text (map snd (bc_transactions bc))
  \/ starts_with_0000
       (generateHash sha256_hex nonce (concat_operand (hash lastBlock)) rootHash) = false ->
  exists e, commitProofOfWork sha256_hex json_text (VNum index) (VStr rootHash) (VNum nonce) now bc
            = (Thrown e, bc).
Proof.
  intros Hpool Hindex Hlast Hbad. unfold commitProofOfWork.
  destruct (bc_transactions bc) as [ | t pool ]; [ congruence | ].
  rewrite (proj2 (Z.leb_gt _ _) Hindex), Hlast. cbn [createBlock].
  case_bool_decide as Hroot; cbn [first_error settle].
  - destruct Hbad as [Hbad | ->]; [ contradiction | ]. eexists; reflexivity.
  - eexists; reflexivity.
Qed.

(** ** The Merkle root *)

Lemma findRoot_reference (hashes : list string) :
  findRoot sha256_hex hashes = reference_root sha256_hex hashes.
Proof.
  induction hashes as [ hashes IH ] using (induction_ltof1 _ (@length string)).
  unfold ltof in IH. destruct hashes as [ | a [ | b rest ] ]; simp findRoot reference_root;
    try reflexivity.
  rewrite reduce_pairs_pair_up. apply IH.
  apply (pair_up_length sha256_hex (a :: b :: rest)). cbn. lia.
Qed.

Lemma reference_root_some (hashes : list string) :
  hashes <> [] -> exists root, reference_root sha256_hex hashes = Some root.
Proof.
  induction hashes as [ hashes IH ] using (induction_ltof1 _ (@length string)).
  unfold ltof in IH. destruct hashes as [ | a [ | b rest ] ]; simp reference_root;
    intros Hne; [ congruence | eexists; reflexivity | ].
  apply IH.
  - apply (pair_up_length sha256_hex (a :: b :: rest)). cbn. lia.
  - discriminate.
Qed.


End Engine.


Lemma C1_hash_chain_witness :
  exists b b' : Block,
    restoreBlock 0 (bc_storage sample_chain) = Some b
    /\ restoreBlock (0 + 1) (bc_storage sample_chain) = Some b'
    /\ prevHash b' = hash b.
Proof.
  eexists. eexists. split; [ reflexivity | ]. split; [ reflexivity | ].
  apply (C1_hash_chain sample_sha256 sample_text "1.0" None sample_chain) with (i := 0);
    [ | reflexivity | reflexivity ].
  unfold sample_chain.
  eapply reachable_step; [ eapply reachable_step; [ eapply reachable_step | ] | ].
  - apply reachable_new.
  - eapply step_generateGenesisBlock with (fuel := 1%nat) (now := 10). reflexivity.
  - apply step_addTransaction.
  - apply step_commitBlock.
Defined.



End BlockchainProps.

(* ===================================================================== *)
(** * Properties of the transaction intake *)
(* ===================================================================== *)

Module ServerProps.
Import Json LevelDB Blockchain Server.

(** A single object accepted in temporary mode is annotated and held in
    the backlog. *)
Lemma addTransaction_one_temporary (now : Z) :
  addTransaction (One tx1) (Some true) now idle_server
  = (One (1%nat, [("transactionId", VStr "t1"); ("amount", VNum 5); ("@temp", VNum now)]),
     mkServer false
       [(1%nat, [("transactionId", VStr "t1"); ("amount", VNum 5); ("@temp", VNum now)])]
       (new "1.0" None)).
Proof. reflexivity. Qed.

(** C8, at the failing input: an array of one transaction accepted in
    temporary mode. The annotation is written to the array, not to the
    transaction: the transaction carries no ["@temp"], and it goes
    straight to the pool instead of the backlog of pending transactions. *)
Theorem C8_array_entries_not_annotated (now : Z) :
  let (argument, server) := addTransaction (Many [] [tx1]) (Some true) now idle_server in
  argument = Many [("@temp", VNum now)] [tx1]
  /\ get_attr "@temp" (snd tx1) = None
  /\ transactionBacklog server = []
  /\ bc_transactions (blockchain server) = [tx1].
Proof. repeat split. Qed.

End ServerProps.

(* ===================================================================== *)
(** * Properties of the Raft engine *)
(* ===================================================================== *)

Module RaftProps.
Import Json Raft.

(** ** Replication: a follower receives a provisional block *)

Lemma map_get_set_eq {V : Type} (key : Z) (v : V) (m : list (Z * V)) :
  map_get key (map_set key v m) = Some v.
Proof.
  induction m as [ | [k v'] rest IH ]; cbn.
  - now rewrite Z.eqb_refl.
  - destruct (key =? k) eqn:Heq; cbn; rewrite Heq; [ reflexivity | exact IH ].
Qed.

Lemma includes_In (x : Z) (l : list Z) : includes x l = true <-> In x l.
Proof.
  unfold includes. rewrite existsb_exists. split.
  - intros (y & Hy & Heq). apply Z.eqb_eq in Heq. now subst.
  - intros H. exists x. split; [ assumption | apply Z.eqb_refl ].
Qed.

Lemma in_range (from to k : Z) : In k (range from to) <-> from <= k < to.
Proof.
  unfold range. rewrite in_map_iff. split.
  - intros (i & <- & Hi). apply in_seq in Hi. lia.
  - intros Hk. exists (Z.to_nat (k - from)). split; [ lia | ]. apply in_seq. lia.
Qed.

Lemma remove_first_NoDup (x : Z) (l : list Z) : List.NoDup l -> ~ In x (remove_first x l).
Proof.
  induction l as [ | y rest IH ]; cbn; [ auto | ].
  intros Hnd. apply NoDup_cons_iff in Hnd. destruct Hnd as [Hy Hrest].
  destruct (x =? y) eqn:Heq.
  - apply Z.eqb_eq in Heq. now subst.
  - apply Z.eqb_neq in Heq. cbn. intros [-> | Hin]; [ congruence | ]. now apply IH.
Qed.

Lemma remove_first_In (x y : Z) (l : list Z) : In y (remove_first x l) -> In y l.
Proof.
  induction l as [ | z rest IH ]; cbn; [ auto | ].
  destruct (x =? z); [ auto | ]. cbn. intros [-> | Hin]; auto.
Qed.

Lemma remove_first_keeps_NoDup (x : Z) (l : list Z) :
  List.NoDup l -> List.NoDup (remove_first x l).
Proof.
  induction l as [ | y rest IH ]; cbn; [ auto | ].
  intros Hnd. apply NoDup_cons_iff in Hnd. destruct Hnd as [Hy Hrest].
  destruct (x =? y); [ assumption | ].
  constructor; [ | now apply IH ]. intros Hin. apply Hy. eapply remove_first_In, Hin.
Qed.

Lemma range_NoDup (from to : Z) : List.NoDup (range from to).
Proof.
  unfold range. apply Finite.Injective_map_NoDup; [ | apply seq_NoDup ].
  intros a b Hab. lia.
Qed.

Lemma append_provisional_lost_bounded (sender : node_id) (type : string) (sequence : Z)
    (transaction : value) (r : Raft) :
  lost_bounded r ->
  lost_bounded (fst (append_provisional sender type sequence transaction r))
  /\ (~ (sequence <= provisionalBlocksequence r
         /\ ~ In sequence (lostProvisionalBlocksequences r)) ->
      ~ In sequence
          (lostProvisionalBlocksequences
             (fst (append_provisional sender type sequence transaction r)))).
Proof.
  intros [Hnd Hbound]. unfold append_provisional, lost_bounded.
  destruct (sequence <=? provisionalBlocksequence r) eqn:Hle;
    [ apply Z.leb_le in Hle | apply Z.leb_gt in Hle ]; cbn [andb].
  - destruct (includes sequence (lostProvisionalBlocksequences r)) eqn:Hinc; cbn [negb].
    + rewrite (proj2 (Z.ltb_ge _ _) Hle). cbn. split; [ split | ].
      * now apply remove_first_keeps_NoDup.
      * intros k Hk. apply Hbound. eapply remove_first_In, Hk.
      * intros _. now apply remove_first_NoDup.
    + cbn. split; [ split; assumption | ]. intros Hn. exfalso. apply Hn.
      split; [ assumption | ]. rewrite <- includes_In. congruence.
  - rewrite (proj2 (Z.ltb_lt _ _) Hle). cbn. split; [ split | ].
    + apply List.NoDup_app; [ assumption | apply range_NoDup | ].
      intros k Hk Hr. apply in_range in Hr. specialize (Hbound k Hk). lia.
    + intros k Hk. apply in_app_or in Hk. destruct Hk as [Hk | Hk].
      * specialize (Hbound k Hk). lia.
      * apply in_range in Hk. lia.
    + intros _ Hin. apply in_app_or in Hin. destruct Hin as [Hin | Hin].
      * specialize (Hbound _ Hin). lia.
      * apply in_range in Hin. lia.
Qed.

(** C6: a node receives an append whose entry carries a type, a sequence
    and a transaction. If the sequence is not above its
    [provisionalBlocksequence] and not among the lost sequences, it only
    replies [appended] with the sequence, and its sequence, lost
    sequences and provisional blocks are unchanged. Otherwise it records
    the entry under the sequence with [consensus = 1] and the sender as
    owner, and replies [appended] with the sequence; when the sequence is
    above [provisionalBlocksequence], every sequence in between is marked
    lost and [provisionalBlocksequence] becomes the sequence; when it was
    a lost sequence, it is removed from the lost sequences (the lost
    sequences of a node are distinct and below its current sequence, see
    [lost_bounded_reachable]: the sequence is lost no more). *)
Theorem C6_append_provisional_block (r : Raft) (sender : node_id) (t : Z)
    (heartbeat : option Z) (type : string) (sequence : Z) (transaction : value)
    (sequences : option (list Z)) :
  let entry := mkEntry (Some type) (Some sequence) (Some transaction) sequences in
  let outcome := handleCommand (append (Some sender) (Some t) heartbeat (Some entry)) r in
  let r' := fst outcome in
  let reply := Reply (Data (appended (Some (id r)) (Some (Z.max (term r) t)) (Some sequence))) in
  let current := provisionalBlocksequence r in
  let lost := lostProvisionalBlocksequences r in
  (sequence <= current /\ ~ In sequence lost ->
     snd outcome = [reply]
     /\ provisionalBlocksequence r' = current
     /\ lostProvisionalBlocksequences r' = lost
     /\ provisionalBlocks r' = provisionalBlocks r)
  /\ (~ (sequence <= current /\ ~ In sequence lost) ->
     snd outcome = [reply; Heartbeat]
     /\ map_get sequence (provisionalBlocks r') = Some (mkProvisional transaction type 1 sender)
     /\ (current < sequence ->
           provisionalBlocksequence r' = sequence
           /\ lostProvisionalBlocksequences r' = lost ++ range (current + 1) sequence
           /\ forall k, current < k < sequence -> In k (lostProvisionalBlocksequences r'))
     /\ (sequence <= current ->
           provisionalBlocksequence r' = current
           /\ lostProvisionalBlocksequences r' = remove_first sequence lost)
     /\ (lost_bounded r -> ~ In sequence (lostProvisionalBlocksequences r'))).
Proof.
  cbv zeta. cbn [handleCommand entry_type entry_sequence entry_transaction].
  set (r1 := if term r <? t then with_election Follower (votedId r) (votes r) t r else r).
  set (r2 := if term r1 <=? t then with_leaderId (Some sender) r1 else r1).
  assert (Hsame : id r2 = id r /\ term r2 = Z.max (term r) t
                  /\ provisionalBlocksequence r2 = provisionalBlocksequence r
                  /\ lostProvisionalBlocksequences r2 = lostProvisionalBlocksequences r
                  /\ provisionalBlocks r2 = provisionalBlocks r).
  { subst r2 r1. destruct (term r <? t) eqn:Hlt; cbn [term with_election].
    - apply Z.ltb_lt in Hlt. rewrite Z.leb_refl. cbn. repeat split; lia.
    - apply Z.ltb_ge in Hlt. destruct (term r <=? t); cbn; repeat split; lia. }
  destruct Hsame as (Hid & Hterm & Hcur & Hlost & Hblocks).
  unfold append_provisional. rewrite Hid, Hterm, Hcur, Hlost, Hblocks.
  destruct (sequence <=? provisionalBlocksequence r) eqn:Hle;
    [ apply Z.leb_le in Hle | apply Z.leb_gt in Hle ]; cbn [andb].
  - destruct (includes sequence (lostProvisionalBlocksequences r)) eqn:Hinc; cbn [negb].
    + (* a lost sequence arrives *)
      apply includes_In in Hinc.
      rewrite (proj2 (Z.ltb_ge _ _) Hle). split; [ intros [_ Hn]; contradiction | ].
      intros _. cbn [fst snd with_provisional provisionalBlocks provisionalBlocksequence
                      lostProvisionalBlocksequences].
      repeat split; try lia.
      * apply map_get_set_eq.
      * intros [Hnd _]. now apply remove_first_NoDup.
    + (* already appended *)
      assert (Hnot : ~ In sequence (lostProvisionalBlocksequences r))
        by (rewrite <- includes_In; congruence).
      split; [ | intros Hn; exfalso; apply Hn; split; assumption ].
      intros _. cbn [fst snd]. repeat split; assumption.
  - (* a sequence above the current one *)
    rewrite (proj2 (Z.ltb_lt _ _) Hle). split; [ intros [Hn _]; lia | ].
    intros _. cbn [fst snd with_provisional provisionalBlocks provisionalBlocksequence
                    lostProvisionalBlocksequences].
    repeat split; try lia.
    + apply map_get_set_eq.
    + intros k Hk. apply in_or_app. right. apply in_range. lia.
    + intros [_ Hbound] Hin. apply in_app_or in Hin. destruct Hin as [Hin | Hin].
      * specialize (Hbound _ Hin). lia.
      * apply in_range in Hin. lia.
Qed.

(** ** The lost sequences of a node *)

Lemma keeps_lost_refl (r : Raft) : keeps_lost r r.
Proof. unfold keeps_lost. split; [ reflexivity | lia ]. Qed.

Ltac keeps_lost_fields := unfold keeps_lost; cbn; split; [ reflexivity | lia ].

Lemma keeps_lost_bounded (r r' : Raft) : keeps_lost r r' -> lost_bounded r -> lost_bounded r'.
Proof.
  intros [Hlost Hseq] [Hnd Hbound]. unfold lost_bounded. rewrite Hlost.
  split; [ assumption | ]. intros k Hk. specialize (Hbound k Hk). lia.
Qed.

Lemma watchProvisionalBlocks_keeps_lost (r : Raft) :
  keeps_lost r (fst (watchProvisionalBlocks r)).
Proof.
  unfold watchProvisionalBlocks.
  destruct (provisionalBlocks r) as [ | kv blocks ]; [ apply keeps_lost_refl | ].
  destruct (fold_left _ (kv :: blocks) _) as [[effects completed] unprocessed].
  destruct (fold_left _ unprocessed _) as [blocks' resent].
  unfold keeps_lost. cbn. split; [ reflexivity | lia ].
Qed.

Lemma forwardTransaction_keeps_lost (r : Raft) :
  keeps_lost r (fst (fst (forwardTransaction r))).
Proof.
  unfold forwardTransaction. destruct (leaderId r); [ | apply keeps_lost_refl ].
  destruct (String.eqb _ _); keeps_lost_fields.
Qed.

Lemma forwardCommittingTransaction_keeps_lost (r : Raft) :
  keeps_lost r (fst (fst (forwardCommittingTransaction r))).
Proof.
  unfold forwardCommittingTransaction.
  destruct (commitedTransactionBacklog r); [ apply keeps_lost_refl | ].
  destruct (leaderId r); [ | apply keeps_lost_refl ].
  destruct (String.eqb _ _); keeps_lost_fields.
Qed.

Lemma keeps_lost_trans (r1 r2 r3 : Raft) :
  keeps_lost r1 r2 -> keeps_lost r2 r3 -> keeps_lost r1 r3.
Proof. intros [H1 H2] [H3 H4]. split; [ congruence | lia ]. Qed.

Lemma addTransaction_keeps_lost (request : value) (temporary : bool) (r : Raft) :
  keeps_lost r (fst (addTransaction_ request temporary r)).
Proof.
  unfold addTransaction_. destruct (state r).
  3: keeps_lost_fields.
  all: set (r' := if temporary then _ else _);
    assert (Hr' : keeps_lost r r') by (subst r'; destruct temporary; keeps_lost_fields);
    clearbody r'; destruct (leaderId r'); [ | exact Hr' ];
    pose proof (forwardTransaction_keeps_lost r') as Hf;
    destruct (forwardTransaction r') as [[r'' effects] ok]; cbn [fst] in *;
    exact (keeps_lost_trans _ _ _ Hr' Hf).
Qed.

Lemma commitTransaction_keeps_lost (request : value) (r : Raft) :
  keeps_lost r (fst (commitTransaction_ request r)).
Proof.
  unfold commitTransaction_. destruct (state r).
  3: keeps_lost_fields.
  all: set (r' := with_backlogs _ _ _ r);
    assert (Hr' : keeps_lost r r') by (subst r'; keeps_lost_fields);
    clearbody r'; destruct (leaderId r'); [ | exact Hr' ];
    pose proof (forwardCommittingTransaction_keeps_lost r') as Hf;
    destruct (forwardCommittingTransaction r') as [[r'' effects] ok]; cbn [fst] in *;
    exact (keeps_lost_trans _ _ _ Hr' Hf).
Qed.

Lemma append_sequences_keeps_lost (sequences : list Z) (r : Raft) :
  keeps_lost r (fst (append_sequences sequences r)).
Proof.
  unfold append_sequences. destruct sequences; [ apply keeps_lost_refl | ].
  destruct (existsb _ _); [ apply keeps_lost_refl | ].
  destruct (drain_sequences _ _) as [[blocks effects] ok]. keeps_lost_fields.
Qed.

Lemma handleCommand_lost_bounded (cmd : command) (r : Raft) :
  lost_bounded r -> lost_bounded (fst (handleCommand cmd r)).
Proof.
  intros Hr.
  destruct cmd as [ cid t | sender t sequence entry | request | request | request | | name ];
    cbn [handleCommand].
  - destruct cid as [ candidate | ], t as [ t | ]; try exact Hr.
    destruct (t <? term r); [ exact Hr | ].
    set (r1 := if term r <? t then _ else r).
    assert (H1 : lost_bounded r1) by (subst r1; destruct (term r <? t); exact Hr).
    destruct (votedId r1) as [ v | ]; [ destruct (negb _) | ]; exact H1.
  - destruct sender as [ sender | ], t as [ t | ]; try exact Hr.
    set (r1 := if term r <? t then _ else r).
    set (r2 := if term r1 <=? t then _ else r1).
    assert (H2 : lost_bounded r2).
    { subst r2 r1. destruct (term r <? t); destruct (_ <=? _); exact Hr. }
    clearbody r2. clear r1.
    destruct entry as [ e | ]; [ | exact H2 ].
    destruct (entry_type e); [ destruct (entry_sequence e); [ destruct (entry_transaction e) | ] | ];
      try (destruct (entry_sequences e);
           [ eapply keeps_lost_bounded; [ apply append_sequences_keeps_lost | exact H2 ]
           | exact H2 ]).
    apply append_provisional_lost_bounded, H2.
  - destruct request as [ request | ]; [ | exact Hr ].
    destruct (is_object request); [ | exact Hr ].
    eapply keeps_lost_bounded; [ apply addTransaction_keeps_lost | exact Hr ].
  - destruct request as [ request | ]; [ | exact Hr ].
    destruct (is_object request); [ | exact Hr ].
    eapply keeps_lost_bounded; [ apply addTransaction_keeps_lost | exact Hr ].
  - destruct request as [ request | ]; [ | exact Hr ].
    destruct request; try exact Hr;
      (eapply keeps_lost_bounded; [ apply commitTransaction_keeps_lost | exact Hr ]).
  - exact Hr.
  - exact Hr.
Qed.

Lemma handleData_lost_bounded (d : data) (r : Raft) :
  lost_bounded r -> lost_bounded (fst (handleData d r)).
Proof.
  intros Hr. destruct d as [ granted from t | from t sequence | | name ]; cbn [handleData].
  - destruct granted as [ [ | ] | ], from as [ from | ], t as [ t | ]; try exact Hr.
    destruct (t <? term r); [ exact Hr | ]. destruct (state r); try exact Hr.
    destruct (quorum r <=? _); exact Hr.
  - destruct from as [ from | ], sequence as [ sequence | ]; try exact Hr.
    destruct (map_get sequence (provisionalBlocks r)); [ | exact Hr ].
    eapply keeps_lost_bounded; [ apply watchProvisionalBlocks_keeps_lost | exact Hr ].
  - exact Hr.
  - destruct (_ || _); exact Hr.
Qed.

Lemma timeout_lost_bounded (r : Raft) : lost_bounded r -> lost_bounded (fst (timeout r)).
Proof.
  intros Hr. unfold timeout. destruct (state r); try exact Hr.
  pose proof (watchProvisionalBlocks_keeps_lost r) as Hk.
  destruct (watchProvisionalBlocks r) as [r' effects]. cbn [fst] in *.
  eapply keeps_lost_bounded; eassumption.
Qed.

(** In every state a cluster reaches, the lost sequences of every node
    are distinct and below its current sequence. *)
Lemma lost_bounded_reachable (members : list node_id) (c : cluster) :
  reachable members c -> forall n, lost_bounded (node c n).
Proof.
  induction 1 as [ | c c' _ IH Hstep ]; intros m.
  - unfold lost_bounded. cbn. split; [ constructor | intros k [] ].
  - destruct Hstep as [ n c Hn | p cmd c Hp Hn Hbody | p d c Hp Hn Hbody | n cmd c Hn Hclient
                      | n transactions temporary c Hn | n committing c Hn ];
      cbn [node run]; unfold update;
      (match goal with |- context [ String.eqb m ?x ] => destruct (String.eqb m x) end;
       [ | apply IH ]); cbn [fst].
    + apply timeout_lost_bounded, IH.
    + apply handleCommand_lost_bounded, IH.
    + apply handleData_lost_bounded, IH.
    + apply handleCommand_lost_bounded, IH.
    + destruct temporary; apply (IH n).
    + destruct committing;
        (eapply keeps_lost_bounded; [ | apply (IH n) ]);
        [ apply forwardCommittingTransaction_keeps_lost | apply forwardTransaction_keeps_lost ].
Qed.

(** ** Election: what a handler does to the election fields *)

Lemma quiet_refl (r : Raft) : quiet r r.
Proof. unfold quiet. tauto. Qed.

Lemma calm_nil : calm [].
Proof. constructor. Qed.

Lemma calm_app (e1 e2 : list effect) : calm e1 -> calm e2 -> calm (e1 ++ e2).
Proof. unfold calm. intros. now apply Forall_app. Qed.

Lemma calm_cons (e : effect) (rest : list effect) :
  (forall m, message_of e = Some m -> election_message m = false) -> calm rest ->
  calm (e :: rest).
Proof. intros. now constructor. Qed.

Ltac calm_effects :=
  repeat first
    [ apply calm_nil
    | apply calm_app
    | apply calm_cons; [ cbn; intros ? [= <-]; reflexivity || (intros; discriminate) | ]
    | apply calm_cons; [ cbn; intros; discriminate | ] ].

Lemma calm_drain_effects (entry : provisional) : calm (drain_effects entry).
Proof.
  unfold drain_effects.
  destruct (String.eqb _ "normal"); [ calm_effects | ].
  destruct (String.eqb _ "temporary"); [ calm_effects | ].
  destruct (String.eqb _ "commit"); calm_effects.
Qed.

Lemma fold_left_invariant {A B : Type} (P : A -> Prop) (f : A -> B -> A) (l : list B) :
  (forall a b, P a -> P (f a b)) -> forall a, P a -> P (fold_left f l a).
Proof. intros Hf. induction l as [ | b rest IH ]; intros a Ha; cbn; auto. Qed.

Lemma watchProvisionalBlocks_quiet (r : Raft) :
  quiet r (fst (watchProvisionalBlocks r)) /\ calm (snd (watchProvisionalBlocks r)).
Proof.
  unfold watchProvisionalBlocks.
  destruct (provisionalBlocks r) as [ | kv blocks ]; [ split; [ apply quiet_refl | calm_effects ] | ].
  match goal with
  | |- context [ fold_left ?f (kv :: blocks) ([], [], []) ] =>
      assert (Heffects : calm (fst (fst (fold_left f (kv :: blocks) ([], [], [])))));
      [ apply (fold_left_invariant (fun acc => calm (fst (fst acc)))); [ | apply calm_nil ];
        intros [[e c] u] [sequence entry] He; cbn [fst] in *;
        destruct (_ <=? _); [ cbn; apply calm_app; [ assumption | apply calm_drain_effects ] | ];
        destruct (negb _); exact He
      | destruct (fold_left f (kv :: blocks) ([], [], [])) as [[effects completed] unprocessed] ]
  end.
  cbn [fst] in Heffects.
  match goal with
  | |- context [ fold_left ?f unprocessed (?b, []) ] =>
      assert (Hcalm : calm (snd (fold_left f unprocessed (b, []))));
      [ apply (fold_left_invariant (fun acc => calm (snd acc))); [ | apply calm_nil ];
        intros [b0 e] sequence He; cbn [snd] in *;
        destruct (map_get sequence b0); [ | exact He ]; cbn;
        apply calm_app; [ assumption | ]; unfold append_of; calm_effects
      | destruct (fold_left f unprocessed (b, [])) as [blocks' resent] ]
  end.
  cbn [snd] in Hcalm.
  cbn [fst snd]. split; [ unfold quiet; cbn; tauto | ].
  apply calm_app; [ | assumption ].
  destruct completed; [ assumption | ]. apply calm_app; [ assumption | calm_effects ].
Qed.

Lemma forwardTransaction_quiet (r : Raft) :
  quiet r (fst (fst (forwardTransaction r))) /\ calm (snd (fst (forwardTransaction r))).
Proof.
  unfold forwardTransaction. destruct (leaderId r); [ | split; [ apply quiet_refl | calm_effects ] ].
  destruct (String.eqb _ _); [ split; [ apply quiet_refl | calm_effects ] | ].
  cbn [fst snd]. split; [ unfold quiet; cbn; tauto | ].
  destruct (transactionBacklog r), (temporaryTransactionBacklog r); calm_effects.
Qed.

Lemma forwardCommittingTransaction_quiet (r : Raft) :
  quiet r (fst (fst (forwardCommittingTransaction r)))
  /\ calm (snd (fst (forwardCommittingTransaction r))).
Proof.
  unfold forwardCommittingTransaction.
  destruct (commitedTransactionBacklog r); [ split; [ apply quiet_refl | calm_effects ] | ].
  destruct (leaderId r); [ | split; [ apply quiet_refl | calm_effects ] ].
  destruct (String.eqb _ _); [ split; [ apply quiet_refl | calm_effects ] | ].
  cbn [fst snd]. split; [ unfold quiet; cbn; tauto | calm_effects ].
Qed.

Lemma quiet_with_backlogs (a b c : list value) (r r' : Raft) :
  quiet (with_backlogs a b c r) r' -> quiet r r'.
Proof. unfold quiet. cbn. tauto. Qed.

Lemma addTransaction_quiet (request : value) (temporary : bool) (r : Raft) :
  quiet r (fst (addTransaction_ request temporary r))
  /\ calm (snd (addTransaction_ request temporary r)).
Proof.
  unfold addTransaction_. destruct (state r) eqn:Hstate.
  3: { cbn [fst snd]. split; [ unfold quiet; cbn; tauto | unfold append_of; calm_effects ]. }
  all: set (r' := if temporary then _ else _);
    assert (Hr' : exists a b c, r' = with_backlogs a b c r)
      by (subst r'; destruct temporary; eexists _, _, _; reflexivity);
    destruct Hr' as (a & b & c & ->);
    destruct (leaderId _); [ | cbn [fst snd]; split; [ unfold quiet; cbn; tauto | calm_effects ] ];
    pose proof (forwardTransaction_quiet (with_backlogs a b c r)) as [Hq Hc];
    destruct (forwardTransaction _) as [[r'' effects] ok]; cbn [fst snd] in *;
    split; [ eapply quiet_with_backlogs; eassumption | assumption ].
Qed.

Lemma commitTransaction_quiet (request : value) (r : Raft) :
  quiet r (fst (commitTransaction_ request r)) /\ calm (snd (commitTransaction_ request r)).
Proof.
  unfold commitTransaction_. destruct (state r) eqn:Hstate.
  3: { cbn [fst snd]. split; [ unfold quiet; cbn; tauto | unfold append_of; calm_effects ]. }
  all: destruct (leaderId _); [ | cbn [fst snd]; split; [ unfold quiet; cbn; tauto | calm_effects ] ];
    match goal with |- context [ forwardCommittingTransaction ?x ] =>
      pose proof (forwardCommittingTransaction_quiet x) as [Hq Hc];
      destruct (forwardCommittingTransaction x) as [[r'' effects] ok]
    end; cbn [fst snd] in *;
    split; [ eapply quiet_with_backlogs; eassumption | assumption ].
Qed.

Lemma drain_sequences_calm (sequences : list Z) : forall blocks,
  calm (snd (fst (drain_sequences sequences blocks))).
Proof.
  induction sequences as [ | sequence rest IH ]; intros blocks; cbn; [ calm_effects | ].
  destruct (map_get sequence blocks) as [ entry | ]; [ | calm_effects ].
  specialize (IH (map_delete sequence blocks)).
  destruct (drain_sequences rest _) as [[blocks' effects] ok]. cbn [fst snd] in *.
  apply calm_app; [ apply calm_drain_effects | assumption ].
Qed.

Lemma append_quiet (sender : node_id) (t : Z) (sequence : option Z)
    (entry : option append_entry) (r : Raft) :
  quiet r (fst (handleCommand (append (Some sender) (Some t) sequence entry) r))
  /\ calm (snd (handleCommand (append (Some sender) (Some t) sequence entry) r)).
Proof.
  cbn [handleCommand].
  set (r1 := if term r <? t then with_election Follower (votedId r) (votes r) t r else r).
  set (r2 := if term r1 <=? t then with_leaderId (Some sender) r1 else r1).
  assert (Hq : quiet r r2).
  { subst r2 r1. unfold quiet. destruct (term r <? t) eqn:Hlt.
    - apply Z.ltb_lt in Hlt. destruct (_ <=? _); cbn; repeat split; tauto || lia.
    - destruct (_ <=? _); cbn; tauto. }
  assert (Hextend : forall blocks a b, quiet r (with_provisional a b blocks r2)).
  { intros. unfold quiet in *. cbn. exact Hq. }
  clearbody r2. clear r1.
  destruct entry as [ e | ]; [ | split; [ exact Hq | calm_effects ] ].
  destruct (entry_type e) as [ type | ].
  2: { destruct (entry_sequences e) as [ sequences | ]; [ | split; [ exact Hq | calm_effects ] ].
       unfold append_sequences. destruct sequences as [ | s0 rest ]; [ split; [ exact Hq | calm_effects ] | ].
       destruct (existsb _ _); [ split; [ exact Hq | calm_effects ] | ].
       pose proof (drain_sequences_calm (s0 :: rest) (provisionalBlocks r2)) as Hc.
       destruct (drain_sequences _ _) as [[blocks effects] ok]. cbn [fst snd] in *.
       split; [ apply Hextend | ].
       apply calm_cons; [ cbn; intros; discriminate | ].
       apply calm_app; [ assumption | destruct ok; calm_effects ]. }
  destruct (entry_sequence e) as [ s | ], (entry_transaction e) as [ transaction | ].
  2-4: destruct (entry_sequences e) as [ sequences | ]; [ | split; [ exact Hq | calm_effects ] ];
       unfold append_sequences; (destruct sequences as [ | s0 rest ]; [ split; [ exact Hq | calm_effects ] | ]);
       (destruct (existsb _ _); [ split; [ exact Hq | calm_effects ] | ]);
       pose proof (drain_sequences_calm (s0 :: rest) (provisionalBlocks r2)) as Hc;
       destruct (drain_sequences _ _) as [[blocks effects] ok]; cbn [fst snd] in *;
       (split; [ apply Hextend | ]);
       (apply calm_cons; [ cbn; intros; discriminate | ]);
       (apply calm_app; [ assumption | destruct ok; calm_effects ]).
  unfold append_provisional.
  destruct (_ && _); [ split; [ exact Hq | calm_effects ] | ].
  destruct (_ <? _); [ | destruct (includes _ _) ]; cbn [fst snd];
    (split; [ apply Hextend | calm_effects ]).
Qed.

Lemma handleCommand_moves (cmd : command) (r : Raft) :
  (quiet r (fst (handleCommand cmd r)) /\ calm (snd (handleCommand cmd r)))
  \/ exists candidate t,
       cmd = vote (Some candidate) (Some t)
       /\ grants r (fst (handleCommand cmd r)) (snd (handleCommand cmd r)) candidate t.
Proof.
  destruct cmd as [ cid t | sender t sequence entry | request | request | request | | name ].
  - destruct cid as [ candidate | ], t as [ t | ];
      try (left; split; [ apply quiet_refl | calm_effects ]).
    cbn [handleCommand]. destruct (t <? term r) eqn:Hold;
      [ left; split; [ apply quiet_refl | calm_effects ] | ].
    apply Z.ltb_ge in Hold. destruct (term r <? t) eqn:Hnew.
    + apply Z.ltb_lt in Hnew. cbn [votedId with_election]. right. exists candidate, t.
      split; [ reflexivity | ]. unfold grants. cbn. repeat split; auto; lia.
    + apply Z.ltb_ge in Hnew. assert (term r = t) by lia. subst t.
      destruct (votedId r) as [ v | ] eqn:Hv.
      * destruct (String.eqb_spec v candidate) as [-> | Hne]; cbn [negb].
        -- right. exists candidate, (term r). split; [ reflexivity | ].
           unfold grants. cbn. repeat split; auto; lia.
        -- left. split; [ apply quiet_refl | calm_effects ].
      * right. exists candidate, (term r). split; [ reflexivity | ].
        unfold grants. cbn. repeat split; auto; lia.
  - left. destruct sender as [ sender | ], t as [ t | ];
      try (split; [ apply quiet_refl | calm_effects ]).
    apply append_quiet.
  - left. destruct request as [ request | ]; cbn [handleCommand];
      [ | split; [ apply quiet_refl | calm_effects ] ].
    destruct (is_object request); [ apply addTransaction_quiet | split; [ apply quiet_refl | calm_effects ] ].
  - left. destruct request as [ request | ]; cbn [handleCommand];
      [ | split; [ apply quiet_refl | calm_effects ] ].
    destruct (is_object request); [ apply addTransaction_quiet | split; [ apply quiet_refl | calm_effects ] ].
  - left. destruct request as [ request | ]; cbn [handleCommand];
      [ | split; [ apply quiet_refl | calm_effects ] ].
    destruct request; try apply commitTransaction_quiet; split; apply quiet_refl || calm_effects.
  - left. split; [ apply quiet_refl | calm_effects ].
  - left. split; [ apply quiet_refl | calm_effects ].
Qed.

Lemma timeout_moves (r : Raft) :
  (quiet r (fst (timeout r)) /\ calm (snd (timeout r)))
  \/ runs r (fst (timeout r)) (snd (timeout r)).
Proof.
  unfold timeout. destruct (state r) eqn:Hstate.
  1-2: right; unfold runs; cbn; rewrite Hstate; repeat split; congruence.
  left. pose proof (watchProvisionalBlocks_quiet r) as [Hq Hc].
  destruct (watchProvisionalBlocks r) as [r' effects]. cbn [fst snd] in *.
  split; [ assumption | ].
  apply calm_cons; [ cbn; intros ? [= <-]; reflexivity | ].
  apply calm_app; [ assumption | calm_effects ].
Qed.

Lemma handleData_moves (d : data) (r : Raft) :
  calm (snd (handleData d r))
  /\ (quiet r (fst (handleData d r))
      \/ exists from t, d = voted (Some true) (Some from) (Some t)
            /\ counts r (fst (handleData d r)) from t).
Proof.
  destruct d as [ granted from t | from t sequence | | name ].
  - destruct granted as [ [ | ] | ], from as [ from | ], t as [ t | ];
      try (split; [ calm_effects | left; apply quiet_refl ]).
    cbn [handleData]. destruct (t <? term r) eqn:Hold;
      [ split; [ calm_effects | left; apply quiet_refl ] | ].
    apply Z.ltb_ge in Hold.
    destruct (state r) eqn:Hstate; try (split; [ calm_effects | left; apply quiet_refl ]).
    destruct (quorum r <=? _) eqn:Hq; cbn [fst snd].
    + apply Z.leb_le in Hq. split; [ calm_effects | ]. right. exists from, t.
      split; [ reflexivity | ]. unfold counts. cbn. repeat split; auto.
    + split; [ calm_effects | ]. right. exists from, t.
      split; [ reflexivity | ]. unfold counts. cbn. repeat split; auto.
  - destruct from as [ from | ], sequence as [ sequence | ];
      try (split; [ calm_effects | left; apply quiet_refl ]).
    cbn [handleData].
    destruct (map_get sequence (provisionalBlocks r)) as [ entry | ];
      [ | split; [ calm_effects | left; apply quiet_refl ] ].
    match goal with |- context [ watchProvisionalBlocks ?x ] =>
      pose proof (watchProvisionalBlocks_quiet x) as [Hq Hc]
    end.
    split; [ assumption | ]. left. unfold quiet in *. cbn in Hq. exact Hq.
  - split; [ calm_effects | left; apply quiet_refl ].
  - cbn [handleData]. destruct (_ || _); split; calm_effects || (left; apply quiet_refl).
Qed.

(** ** Election: the invariant of a cluster *)

Lemma set_add_In (x y : node_id) (s : list node_id) :
  In y (set_add x s) <-> y = x \/ In y s.
Proof.
  unfold set_add. destruct (existsb (String.eqb x) s) eqn:Hex.
  - apply existsb_exists in Hex. destruct Hex as (z & Hz & Heq).
    apply String.eqb_eq in Heq. subst z. split; [ auto | intros [-> | H]; assumption ].
  - rewrite in_app_iff. cbn. intuition.
Qed.

Lemma set_add_NoDup (x : node_id) (s : list node_id) :
  List.NoDup s -> List.NoDup (set_add x s).
Proof.
  intros Hs. unfold set_add. destruct (existsb (String.eqb x) s) eqn:Hex; [ assumption | ].
  apply List.NoDup_app.
  - assumption.
  - constructor; [ intros [] | constructor ].
  - intros y Hy [Heq | []]. subst y. rewrite <- not_true_iff_false in Hex. apply Hex.
    apply existsb_exists. exists x. split; [ assumption | apply String.eqb_refl ].
Qed.

(** Two sets of nodes that together outnumber the cluster share a node. *)
Lemma quorums_meet (all q1 q2 : list node_id) :
  List.NoDup q1 -> List.NoDup q2 -> incl q1 all -> incl q2 all ->
  (length all < length q1 + length q2)%nat ->
  exists v, In v q1 /\ In v q2.
Proof.
  intros Hq1 Hq2 Hin1 Hin2 Hlen.
  destruct (existsb (fun v => existsb (String.eqb v) q2) q1) eqn:Hex.
  - apply existsb_exists in Hex. destruct Hex as (v & Hv1 & Hv2).
    apply existsb_exists in Hv2. destruct Hv2 as (w & Hw & Heq).
    apply String.eqb_eq in Heq. subst w. exists v. split; assumption.
  - exfalso. assert (Hnd : List.NoDup (q1 ++ q2)).
    { apply List.NoDup_app; try assumption.
      intros v Hv1 Hv2. rewrite <- not_true_iff_false in Hex. apply Hex.
      apply existsb_exists. exists v. split; [ assumption | ].
      apply existsb_exists. exists v. split; [ assumption | apply String.eqb_refl ]. }
    assert (Hincl : incl (q1 ++ q2) all) by (apply incl_app; assumption).
    pose proof (NoDup_incl_length Hnd Hincl) as Hle. rewrite length_app in Hle. lia.
Qed.

Lemma in_packets_of (self : Raft) (reply_to : option node_id) (e : effect) (p : packet) :
  In p (packets_of self reply_to e) ->
  src p = id self /\ message_of e = Some (body p)
  /\ (forall m, e = Reply m -> reply_to = Some (dst p)).
Proof.
  destruct e; cbn; try (intros []).
  - intros Hin. apply in_map_iff in Hin. destruct Hin as (peer & <- & _). cbn.
    repeat split. intros; discriminate.
  - destruct reply_to as [ peer | ]; [ | intros [] ]. intros [<- | []]. cbn.
    repeat split.
  - destruct (existsb _ _); [ | intros [] ]. intros [<- | []]. cbn.
    repeat split. intros; discriminate.
Qed.

Lemma calm_packets (self : Raft) (reply_to : option node_id) (effects : list effect)
    (p : packet) :
  calm effects -> In p (flat_map (packets_of self reply_to) effects) ->
  election_message (body p) = false.
Proof.
  intros Hcalm Hin. apply in_flat_map in Hin. destruct Hin as (e & He & Hp).
  apply in_packets_of in Hp. destruct Hp as (_ & Hm & _).
  unfold calm in Hcalm. rewrite List.Forall_forall in Hcalm. exact (Hcalm e He _ Hm).
Qed.

Lemma node_run (n : node_id) (reply_to : option node_id) (outcome : Raft * list effect)
    (c : cluster) (m : node_id) :
  node (run n reply_to outcome c) m = if String.eqb m n then fst outcome else node c m.
Proof. reflexivity. Qed.

Lemma node_run_same (n : node_id) (reply_to : option node_id) (outcome : Raft * list effect)
    (c : cluster) :
  node (run n reply_to outcome c) n = fst outcome.
Proof. rewrite node_run. now rewrite String.eqb_refl. Qed.

Lemma node_run_other (n : node_id) (reply_to : option node_id) (outcome : Raft * list effect)
    (c : cluster) (m : node_id) :
  m <> n -> node (run n reply_to outcome c) m = node c m.
Proof. intros Hne. rewrite node_run. now rewrite (proj2 (String.eqb_neq m n) Hne). Qed.

Lemma granted_run (n : node_id) (reply_to : option node_id) (outcome : Raft * list effect)
    (c : cluster) (v cand : node_id) (t : Z) :
  granted c v cand t -> granted (run n reply_to outcome c) v cand t.
Proof. unfold granted. cbn. intros. apply in_or_app. now left. Qed.

Lemma peers_length_distinct (all : list node_id) (n : node_id) :
  List.NoDup all -> In n all -> (length (peers all n) + 1 = length all)%nat.
Proof.
  unfold peers. induction 1 as [ | m rest Hm Hrest IH ]; [ intros [] | ].
  intros [-> | Hin]; cbn.
  - rewrite String.eqb_refl. cbn.
    assert (Hall : List.filter (fun m => negb (String.eqb m n)) rest = rest).
    { clear IH Hrest. induction rest as [ | x rest' IH' ]; [ reflexivity | ]. cbn.
      destruct (String.eqb_spec x n) as [-> | Hne]; [ exfalso; apply Hm; now left | ].
      cbn. f_equal. apply IH'. intros Hin. apply Hm. now right. }
    rewrite Hall. lia.
  - destruct (String.eqb_spec m n) as [-> | Hne]; [ contradiction | ].
    cbn. rewrite <- (IH Hin). lia.
Qed.

Section Cluster.

Variable members : list node_id.
Hypothesis members_distinct : List.NoDup members.

Lemma peers_length (n : node_id) :
  In n members -> (length (peers members n) + 1 = length members)%nat.
Proof. apply peers_length_distinct, members_distinct. Qed.

Lemma invariant_start : invariant members (start members).
Proof.
  constructor; cbn; try (intros; contradiction).
  - intros n. split; reflexivity.
  - intros n H. discriminate.
Qed.

(** What a step of node [n] must establish for the invariant to hold
    after it. *)
Lemma invariant_run (c : cluster) (n : node_id) (reply_to : option node_id) (r' : Raft)
    (effects : list effect) :
  invariant members c -> In n members ->
  let r := node c n in
  let c' := run n reply_to (r', effects) c in
  let sent := flat_map (packets_of r' reply_to) effects in
  id r' = id r -> nodes r' = nodes r -> term r <= term r' ->
  (forall t' d, t' <= term r -> (term r = t' -> votedId r = Some d) ->
                term r' = t' -> votedId r' = Some d) ->
  (forall p cand t, In p sent -> body p = Command (vote cand t) ->
     cand = Some n /\ t = Some (term r')) ->
  (forall p from t, In p sent -> body p = Data (voted (Some true) from t) ->
     from = Some n /\ t = Some (term r') /\ votedId r' = Some (dst p)
     /\ term r' <= term (node c' (dst p))) ->
  (state r' <> Follower ->
     votedId r' = Some n /\ List.NoDup (votes r')
     /\ forall v, In v (votes r') -> In v members /\ (v = n \/ granted c' v n (term r'))) ->
  (state r' = Leader -> quorum r' <= Z.of_nat (length (votes r'))) ->
  invariant members c'.
Proof.
  intros Hinv Hn r c' sent Hid Hnodes Hterm Hpromise Hrequests Hgrants Hself Hleader.
  destruct (configured members c Hinv n) as [Hidn Hnodesn]. fold r in Hidn, Hnodesn.
  assert (Hmono : forall m, term (node c m) <= term (node c' m)).
  { intros m. subst c'. rewrite node_run. cbn [fst].
    destruct (String.eqb_spec m n) as [-> | _]; [ exact Hterm | lia ]. }
  assert (Hnet : forall p, In p (network c') <-> In p (network c) \/ In p sent).
  { intros p. subst c' sent. cbn. apply in_app_iff. }
  assert (Hsrc : forall p, In p sent -> src p = n).
  { intros p Hp. subst sent. apply in_flat_map in Hp. destruct Hp as (e & _ & Hp).
    apply in_packets_of in Hp. destruct Hp as (-> & _). congruence. }
  assert (Hself' : node c' n = r') by (subst c'; now rewrite node_run_same).
  constructor.
  - intros m. subst c'. rewrite node_run. cbn [fst].
    destruct (String.eqb_spec m n) as [-> | _]; [ | apply (configured members c Hinv) ].
    rewrite Hid, Hnodes. split; assumption.
  - intros p Hp. apply Hnet in Hp. destruct Hp as [Hp | Hp].
    + apply (sources_ok members c Hinv p Hp).
    + now rewrite (Hsrc p Hp).
  - intros p cand t Hp Hbody. apply Hnet in Hp. destruct Hp as [Hp | Hp].
    + destruct (requests_ok members c Hinv p cand t Hp Hbody) as (Hcand & t' & Ht & Hle).
      split; [ assumption | ]. exists t'. split; [ assumption | ].
      specialize (Hmono (src p)). lia.
    + destruct (Hrequests p cand t Hp Hbody) as [-> ->]. rewrite (Hsrc p Hp).
      split; [ reflexivity | ]. exists (term r'). rewrite Hself'. split; [ reflexivity | lia ].
  - intros p from t Hp Hbody. apply Hnet in Hp. destruct Hp as [Hp | Hp].
    + destruct (grants_ok members c Hinv p from t Hp Hbody) as (Hfrom & t' & Ht & Hdst & Hsrc' & Hvoted).
      split; [ assumption | ]. exists t'. split; [ assumption | ].
      split; [ specialize (Hmono (dst p)); lia | ].
      split; [ specialize (Hmono (src p)); lia | ].
      destruct (String.eqb_spec (src p) n) as [Heq | Hne].
      * rewrite Heq in *. rewrite Hself'. apply Hpromise; assumption.
      * subst c'. rewrite node_run_other by assumption. exact Hvoted.
    + destruct (Hgrants p from t Hp Hbody) as (-> & -> & Hvoted & Hdst).
      rewrite (Hsrc p Hp), Hself'. split; [ reflexivity | ].
      exists (term r'). split; [ reflexivity | ]. split; [ assumption | ].
      split; [ lia | ]. intros _. assumption.
  - intros p1 p2 f1 f2 t Hp1 Hp2 Hb1 Hb2 Hsame.
    apply Hnet in Hp1. apply Hnet in Hp2.
    assert (Hmixed : forall p q fp fq, In p (network c) -> In q sent ->
              body p = Data (voted (Some true) fp t) -> body q = Data (voted (Some true) fq t) ->
              src p = src q -> dst p = dst q).
    { intros p q fp fq Hp Hq Hbp Hbq Hsrcs.
      destruct (Hgrants q fq t Hq Hbq) as (_ & -> & Hvoted & _).
      destruct (grants_ok members c Hinv p fp _ Hp Hbp) as (_ & t' & [= <-] & _ & Hle & Hold).
      rewrite Hsrcs, (Hsrc q Hq) in Hle, Hold. fold r in Hle, Hold.
      assert (Hd : votedId r' = Some (dst p)) by (apply (Hpromise (term r')); auto; lia).
      congruence. }
    destruct Hp1 as [Hp1 | Hp1], Hp2 as [Hp2 | Hp2].
    + eapply (votes_once members c Hinv); eassumption.
    + eapply Hmixed; eassumption.
    + symmetry. eapply Hmixed; eauto.
    + destruct (Hgrants p1 f1 t Hp1 Hb1) as (_ & _ & Hv1 & _).
      destruct (Hgrants p2 f2 t Hp2 Hb2) as (_ & _ & Hv2 & _). congruence.
  - intros m. subst c'. rewrite node_run. cbn [fst].
    destruct (String.eqb_spec m n) as [-> | Hne].
    + intros Hstate. destruct (Hself Hstate) as (Hv & Hnd & Hvotes).
      split; [ assumption | ]. split; [ assumption | ]. split; [ assumption | ].
      exact Hvotes.
    + intros Hstate. destruct (candidates_ok members c Hinv m Hstate) as (Hm & Hv & Hnd & Hvotes).
      repeat split; try assumption.
      * apply (Hvotes v H).
      * destruct (Hvotes v H) as [_ [-> | Hg]]; [ now left | right; now apply granted_run ].
  - intros m. subst c'. rewrite node_run. cbn [fst].
    destruct (String.eqb_spec m n) as [-> | Hne]; [ exact Hleader | apply (leaders_ok members c Hinv) ].
Qed.

Lemma invariant_quiet (c : cluster) (n : node_id) (reply_to : option node_id) (r' : Raft)
    (effects : list effect) :
  invariant members c -> In n members -> quiet (node c n) r' -> calm effects ->
  invariant members (run n reply_to (r', effects) c).
Proof.
  intros Hinv Hn (Hid & Hnodes & Hvoted & Hvotes & Hstate) Hcalm.
  apply invariant_run; try assumption.
  - destruct Hstate as [[_ ->] | [_ Hlt]]; lia.
  - intros t' d Hle Hold Hnew. rewrite Hvoted. apply Hold.
    destruct Hstate as [[_ Heq] | [_ Hlt]]; lia.
  - intros p cand t Hp Hbody. apply (calm_packets _ _ _ _ Hcalm) in Hp.
    rewrite Hbody in Hp. discriminate.
  - intros p from t Hp Hbody. apply (calm_packets _ _ _ _ Hcalm) in Hp.
    rewrite Hbody in Hp. discriminate.
  - intros Hcand. destruct Hstate as [[Hs Ht] | [Hs _]]; [ | contradiction ].
    rewrite Hs in Hcand. destruct (candidates_ok members c Hinv n Hcand) as (_ & Hv & Hnd & Hall).
    rewrite Hvoted, Hvotes, Ht. repeat split; try assumption.
    + apply (Hall v H).
    + destruct (Hall v H) as [_ [-> | Hg]]; [ now left | right; now apply granted_run ].
  - intros Hlead. destruct Hstate as [[Hs Ht] | [Hs _]]; [ | congruence ].
    rewrite Hs in Hlead. pose proof (leaders_ok members c Hinv n Hlead) as Hq.
    unfold quorum in *. now rewrite Hvotes, Hnodes.
Qed.

Lemma invariant_runs (c : cluster) (n : node_id) (reply_to : option node_id) (r' : Raft)
    (effects : list effect) :
  invariant members c -> In n members -> runs (node c n) r' effects ->
  invariant members (run n reply_to (r', effects) c).
Proof.
  intros Hinv Hn (Hnot & Hid & Hnodes & Hstate & Hvoted & Hvotes & Hterm & ->).
  destruct (configured members c Hinv n) as [Hidn _].
  assert (Hsent : forall p,
            In p (flat_map (packets_of r' reply_to)
                    [Broadcast (Command (vote (Some (id (node c n))) (Some (term (node c n) + 1))));
                     Heartbeat]) ->
            body p = Command (vote (Some n) (Some (term r')))).
  { intros p Hp. cbn in Hp. rewrite app_nil_r in Hp. apply in_map_iff in Hp.
    destruct Hp as (peer & <- & _). cbn. now rewrite Hidn, Hterm. }
  apply invariant_run; try assumption.
  - lia.
  - intros t' d Hle _ Hnew. lia.
  - intros p cand t Hp Hbody. rewrite (Hsent p Hp) in Hbody. injection Hbody as <- <-. tauto.
  - intros p from t Hp Hbody. rewrite (Hsent p Hp) in Hbody. discriminate.
  - intros _. rewrite Hvoted, Hvotes, Hidn. repeat split.
    + constructor; [ intros [] | constructor ].
    + destruct H as [<- | []]. assumption.
    + destruct H as [<- | []]. now left.
  - rewrite Hstate. discriminate.
Qed.

Lemma invariant_grants (c : cluster) (p : packet) (candidate : node_id) (t : Z) (r' : Raft)
    (effects : list effect) :
  invariant members c -> In p (network c) -> In (dst p) members ->
  body p = Command (vote (Some candidate) (Some t)) ->
  grants (node c (dst p)) r' effects candidate t ->
  invariant members (run (dst p) (Some (src p)) (r', effects) c).
Proof.
  intros Hinv Hp Hn Hbody (Hle & Hmay & Hid & Hnodes & Hstate & Hvoted & Hvotes & Hterm & ->).
  destruct (configured members c Hinv (dst p)) as [Hidn _].
  destruct (requests_ok members c Hinv p _ _ Hp Hbody) as ([= Hcand] & t' & [= <-] & Hreached).
  assert (Hsent : forall q,
            In q (flat_map (packets_of r' (Some (src p)))
                    [Reply (Data (voted (Some true) (Some (id (node c (dst p)))) (Some t)));
                     Heartbeat]) ->
            q = mkPacket (dst p) (src p) (Data (voted (Some true) (Some (dst p)) (Some t)))).
  { intros q Hq. cbn in Hq. destruct Hq as [<- | []]. now rewrite Hid, Hidn. }
  apply invariant_run; try assumption.
  - lia.
  - intros t' d Hle' Hold Hnew. rewrite Hvoted.
    assert (Heq : term (node c (dst p)) = t') by lia. specialize (Hold Heq).
    destruct Hmay as [Hlt | [Hnone | Hsome]]; [ lia | congruence | congruence ].
  - intros q cand' t' Hq Hb. rewrite (Hsent q Hq) in Hb. discriminate.
  - intros q from t' Hq Hb. rewrite (Hsent q Hq) in *. cbn in Hb |- *.
    injection Hb as <- <-. rewrite Hterm. repeat split; try congruence.
    unfold update.
    destruct (String.eqb_spec (src p) (dst p)) as [_ | _]; [ lia | exact Hreached ].
  - rewrite Hstate. congruence.
  - rewrite Hstate. discriminate.
Qed.

Lemma invariant_counts (c : cluster) (p : packet) (from : node_id) (t : Z) (r' : Raft)
    (effects : list effect) :
  invariant members c -> In p (network c) -> In (dst p) members ->
  body p = Data (voted (Some true) (Some from) (Some t)) ->
  counts (node c (dst p)) r' from t -> calm effects ->
  invariant members (run (dst p) (Some (src p)) (r', effects) c).
Proof.
  intros Hinv Hp Hn Hbody (Hle & Hcand & Hid & Hnodes & Hvoted & Hterm & Hvotes & Hstate) Hcalm.
  destruct (grants_ok members c Hinv p _ _ Hp Hbody) as ([= Hfrom] & t' & [= <-] & Hreached & _).
  assert (Ht : t = term (node c (dst p))) by lia.
  assert (Hgranted : granted c from (dst p) (term (node c (dst p)))).
  { unfold granted. rewrite <- Ht. subst from. destruct p as [s d b]. cbn in *. now subst b. }
  assert (Hold : state (node c (dst p)) <> Follower) by congruence.
  destruct (candidates_ok members c Hinv (dst p) Hold) as (_ & Hv & Hnd & Hall).
  apply invariant_run; try assumption.
  - lia.
  - intros t0 d _ Hkeep Hnew. rewrite Hvoted. apply Hkeep. lia.
  - intros q cand t0 Hq Hb. apply (calm_packets _ _ _ _ Hcalm) in Hq.
    rewrite Hb in Hq. discriminate.
  - intros q f t0 Hq Hb. apply (calm_packets _ _ _ _ Hcalm) in Hq.
    rewrite Hb in Hq. discriminate.
  - intros _. rewrite Hvoted, Hvotes, Hterm. split; [ assumption | ].
    split; [ now apply set_add_NoDup | ].
    intros v Hin. apply set_add_In in Hin. destruct Hin as [-> | Hin].
    + split; [ subst from; apply (sources_ok members c Hinv p Hp) | ].
      right. now apply granted_run.
    + destruct (Hall v Hin) as [Hm [-> | Hg]]; (split; [ assumption | ]);
        [ now left | right; now apply granted_run ].
  - intros Hlead. destruct Hstate as [Hs | [_ Hq]]; [ congruence | ].
    unfold quorum in *. now rewrite Hnodes.
Qed.

Lemma invariant_step (c c' : cluster) :
  invariant members c -> step members c c' -> invariant members c'.
Proof.
  intros Hinv Hstep.
  destruct Hstep as [ n c Hn | p cmd c Hp Hn Hbody | p d c Hp Hn Hbody | n cmd c Hn Hclient
                    | n transactions temporary c Hn | n committing c Hn ].
  - rewrite (surjective_pairing (timeout (node c n))).
    destruct (timeout_moves (node c n)) as [[Hq Hc] | Hruns].
    + now apply invariant_quiet.
    + now apply invariant_runs.
  - rewrite (surjective_pairing (handleCommand cmd (node c (dst p)))).
    destruct (handleCommand_moves cmd (node c (dst p))) as [[Hq Hc] | (cand & t & -> & Hg)].
    + now apply invariant_quiet.
    + now apply (invariant_grants c p cand t).
  - rewrite (surjective_pairing (handleData d (node c (dst p)))).
    destruct (handleData_moves d (node c (dst p))) as [Hc [Hq | (from & t & -> & Hcounts)]].
    + now apply invariant_quiet.
    + now apply (invariant_counts c p from t).
  - rewrite (surjective_pairing (handleCommand cmd (node c n))).
    destruct (handleCommand_moves cmd (node c n)) as [[Hq Hc] | (cand & t & -> & _)].
    + now apply invariant_quiet.
    + destruct Hclient.
  - apply invariant_quiet; [ assumption | assumption | | apply calm_nil ].
    destruct temporary; unfold quiet; cbn; tauto.
  - destruct committing.
    + rewrite (surjective_pairing (fst (forwardCommittingTransaction (node c n)))).
      destruct (forwardCommittingTransaction_quiet (node c n)). now apply invariant_quiet.
    + rewrite (surjective_pairing (fst (forwardTransaction (node c n)))).
      destruct (forwardTransaction_quiet (node c n)). now apply invariant_quiet.
Qed.

Lemma cluster_invariant_reachable (c : cluster) : reachable members c -> invariant members c.
Proof.
  induction 1 as [ | c c' _ IH Hstep ]; [ apply invariant_start | ].
  eapply invariant_step; eassumption.
Qed.

(** C2: in every state a cluster of fixed membership reaches while its
    nodes fail by crashing only, a term has at most one leader; and a
    leader of a term holds the votes of that term of a quorum of
    [floor(N/2)+1] distinct members, [N] the number of nodes of the
    cluster: its own vote and votes granted to it by other members. *)
Theorem C2_leader_uniqueness (c : cluster) :
  reachable members c ->
  (forall (n1 n2 : node_id) (t : Z), leader_of c n1 t -> leader_of c n2 t -> n1 = n2)
  /\ (forall (n : node_id) (t : Z), leader_of c n t ->
        List.NoDup (votes (node c n))
        /\ Z.of_nat (length members) / 2 + 1 <= Z.of_nat (length (votes (node c n)))
        /\ forall v, In v (votes (node c n)) ->
             In v members /\ (v = n \/ granted c v n t)).
Proof.
  intros Hreach. pose proof (cluster_invariant_reachable c Hreach) as Hinv.
  assert (Hleader : forall n t, leader_of c n t ->
            In n members /\ votedId (node c n) = Some n
            /\ List.NoDup (votes (node c n))
            /\ Z.of_nat (length members) / 2 + 1 <= Z.of_nat (length (votes (node c n)))
            /\ forall v, In v (votes (node c n)) -> In v members /\ (v = n \/ granted c v n t)).
  { intros n t [Hstate <-].
    assert (Hnot : state (node c n) <> Follower) by congruence.
    destruct (candidates_ok members c Hinv n Hnot) as (Hn & Hv & Hnd & Hall).
    pose proof (leaders_ok members c Hinv n Hstate) as Hq. unfold quorum in Hq.
    destruct (configured members c Hinv n) as [_ Hnodes]. rewrite Hnodes in Hq.
    pose proof (peers_length n Hn) as Hlen.
    replace (Z.of_nat (length (peers members n)) + 1) with (Z.of_nat (length members)) in Hq
      by lia.
    split; [ assumption | ]. split; [ assumption | ]. split; [ assumption | ].
    split; [ assumption | exact Hall ]. }
  split.
  - intros n1 n2 t H1 H2.
    destruct (Hleader n1 t H1) as (Hm1 & Hv1 & Hnd1 & Hq1 & Hall1).
    destruct (Hleader n2 t H2) as (Hm2 & Hv2 & Hnd2 & Hq2 & Hall2).
    destruct (quorums_meet members (votes (node c n1)) (votes (node c n2))) as (v & Hin1 & Hin2);
      try assumption.
    + intros v Hv. apply (Hall1 v Hv).
    + intros v Hv. apply (Hall2 v Hv).
    + pose proof (Z.mul_div_le (Z.of_nat (length members)) 2 ltac:(lia)).
      pose proof (Z.mod_pos_bound (Z.of_nat (length members)) 2 ltac:(lia)).
      pose proof (Z.div_mod (Z.of_nat (length members)) 2 ltac:(lia)). lia.
    + destruct H1 as [_ Ht1], H2 as [_ Ht2].
      assert (Hself : forall n m, term (node c n) = t -> votedId (node c n) = Some n ->
                granted c n m t -> m = n).
      { intros n m Ht Hv Hg. unfold granted in Hg.
        destruct (grants_ok members c Hinv _ _ _ Hg eq_refl) as (_ & t' & [= <-] & _ & _ & Hvoted).
        cbn in Hvoted. specialize (Hvoted Ht). congruence. }
      destruct (Hall1 v Hin1) as [_ [Hv1' | Hg1]]; destruct (Hall2 v Hin2) as [_ [Hv2' | Hg2]].
      * congruence.
      * subst v. symmetry. now apply (Hself n1 n2).
      * subst v. now apply (Hself n2 n1).
      * apply (votes_once members c Hinv _ _ _ _ _ Hg1 Hg2 eq_refl eq_refl eq_refl).
  - intros n t Hl. destruct (Hleader n t Hl) as (_ & _ & Hnd & Hq & Hall).
    split; [ assumption | ]. split; [ assumption | exact Hall ].
Qed.

End Cluster.

Ltac find_in_list := cbn; repeat first [ left; reflexivity | right ].

Lemma C2_leader_uniqueness_witness :
  leader_of elected_S1 "S1" 1
  /\ List.NoDup (votes (node elected_S1 "S1"))
  /\ Z.of_nat (length three) / 2 + 1 <= Z.of_nat (length (votes (node elected_S1 "S1")))
  /\ granted elected_S1 "S2" "S1" 1.
Proof.
  assert (Hdistinct : List.NoDup three).
  { repeat constructor; cbn; intuition discriminate. }
  assert (Hreach : reachable three elected_S1).
  { unfold elected_S1.
    eapply reachable_step; [ eapply reachable_step; [ eapply reachable_step | ] | ].
    - apply reachable_start.
    - apply (step_timeout three "S1"). find_in_list.
    - apply (step_command three vote_of_S1 (vote (Some "S1") (Some 1))).
      + find_in_list.
      + find_in_list.
      + reflexivity.
    - apply (step_data three voted_by_S2 (voted (Some true) (Some "S2") (Some 1))).
      + find_in_list.
      + find_in_list.
      + reflexivity. }
  assert (Hleader : leader_of elected_S1 "S1" 1) by (split; reflexivity).
  destruct (C2_leader_uniqueness three Hdistinct elected_S1 Hreach) as [_ Hquorum].
  destruct (Hquorum "S1" 1 Hleader) as (Hnd & Hq & Hall).
  split; [ assumption | ]. split; [ assumption | ]. split; [ assumption | ].
  destruct (Hall "S2") as [_ [Heq | Hg]]; [ find_in_list | discriminate Heq | exact Hg ].
Defined.

(** [follower_sample] misses sequence 3; the append of sequence 3 records
    the block and leaves no lost sequence. *)
Lemma C6_append_provisional_block_witness :
  lost_bounded follower_sample
  /\ snd (handleCommand append_of_3 follower_sample)
     = [Reply (Data (appended (Some "S2") (Some 1) (Some 3))); Heartbeat]
  /\ map_get 3 (provisionalBlocks (fst (handleCommand append_of_3 follower_sample)))
     = Some (mkProvisional (VObj []) "normal" 1 "S1")
  /\ provisionalBlocksequence (fst (handleCommand append_of_3 follower_sample)) = 5
  /\ ~ In 3 (lostProvisionalBlocksequences (fst (handleCommand append_of_3 follower_sample))).
Proof.
  assert (Hbounded : lost_bounded follower_sample).
  { split.
    - repeat constructor. intros [].
    - intros k [<- | []]. reflexivity. }
  assert (Hlost : ~ (3 <= provisionalBlocksequence follower_sample
                     /\ ~ In 3 (lostProvisionalBlocksequences follower_sample))).
  { intros [_ Hnot]. apply Hnot. left. reflexivity. }
  destruct (C6_append_provisional_block follower_sample "S1" 1 None "normal" 3 (VObj []) None)
    as [_ Hrecord].
  destruct (Hrecord Hlost) as (Hreply & Hblock & _ & Hbelow & Hgone).
  split; [ exact Hbounded | ]. split; [ exact Hreply | ]. split; [ exact Hblock | ].
  split; [ apply Hbelow; cbn; lia | exact (Hgone Hbounded) ].
Defined.

End RaftProps.
(* ===================================================================== *)
(** * More on the LevelDB block store: the keys, the indexes, the scan *)
(* ===================================================================== *)

Module StorageProps.
Import Json LevelDB Blockchain BlockchainProps.

(** ** The keys *)

Lemma ascending_keys (s : keyspace) : forall lo,
  ascending_from lo s -> Forall (fun k => lo <= k) (map fst s).
Proof.
  induction s as [ | [k b] rest IH ]; intros lo Hs; cbn; [ constructor | ].
  destruct Hs as [Hk Hrest]. constructor; [ exact Hk | ].
  eapply List.Forall_impl; [ | apply (IH _ Hrest) ]. cbn. intros. lia.
Qed.

Lemma ascending_sorted (s : keyspace) : forall lo,
  ascending_from lo s -> StronglySorted Z.lt (map fst s).
Proof.
  induction s as [ | [k b] rest IH ]; intros lo Hs; cbn; [ constructor | ].
  destruct Hs as [Hk Hrest]. constructor; [ apply (IH _ Hrest) | ].
  eapply List.Forall_impl; [ | apply (ascending_keys _ _ Hrest) ]. cbn. intros. lia.
Qed.

Lemma key_stored (s : keyspace) (i : Z) : In i (map fst s) <-> is_Some (get i s).
Proof.
  induction s as [ | [k b] rest IH ]; cbn.
  - split; [ intros [] | intros [? ?]; discriminate ].
  - destruct (i =? k) eqn:Heq.
    + apply Z.eqb_eq in Heq. split; [ eexists; reflexivity | left; congruence ].
    + apply Z.eqb_neq in Heq. rewrite <- IH. split; [ intros [? | ?]; congruence | now right ].
Qed.

(** X7: [getIndexes] lists the keys of the store: going forward and
    without a limit, every index under which a block is stored, each
    once, in ascending order; going backward, the same indexes in the
    opposite order; with a limit above 0, the first [limit] of them. *)
Theorem getIndexes_in_order (db : storage) :
  well_formed db ->
  let forward := getIndexes (-1) "forward" db in
  StronglySorted Z.lt forward
  /\ (forall i, In i forward <-> is_Some (restoreBlock i db))
  /\ getIndexes (-1) "backward" db = rev forward
  /\ forall limit, 0 < limit ->
       getIndexes limit "forward" db = firstn (Z.to_nat limit) forward
       /\ getIndexes limit "backward" db = firstn (Z.to_nat limit) (rev forward).
Proof.
  intros Hwf. unfold getIndexes, createReadStream, restoreBlock. cbn [String.eqb Ascii.eqb Bool.eqb].
  change (-1 <? 0) with true. cbv iota zeta.
  split; [ apply (ascending_sorted _ 0 Hwf) | ].
  split; [ apply key_stored | ]. split; [ apply map_rev | ].
  intros limit Hlimit. rewrite (proj2 (Z.ltb_ge limit 0)) by lia.
  rewrite <- map_rev, !firstn_map. split; reflexivity.
Qed.

(** X8: [getLastIndex] is [-1] on a store without blocks; on a store
    with blocks it is the index of a stored block, and no block is stored
    under a larger index. *)
Theorem getLastIndex_is_largest (db : storage) :
  well_formed db ->
  (main db = [] -> getLastIndex db = -1)
  /\ (main db <> [] ->
      is_Some (restoreBlock (getLastIndex db) db)
      /\ forall i, is_Some (restoreBlock i db) -> i <= getLastIndex db).
Proof.
  intros Hwf. rewrite getLastIndex_last_key. unfold restoreBlock. split.
  - intros ->. reflexivity.
  - intros Hne. split.
    + destruct (last_key_get _ 0 (-1) Hwf Hne) as [b Hb]. rewrite Hb. eexists; reflexivity.
    + intros i [b Hb]. eapply last_key_upper; eassumption.
Qed.

(** X9: [storeBlock] and [restoreBlock]: a block with an index is found
    under its index afterwards, with its header, whatever was stored
    there, and the blocks under the other indexes are as they were; a
    block without an index is not stored. *)
Theorem storeBlock_restoreBlock (block : Block) (db : storage) :
  (forall i, index block = Some i -> 0 <= i ->
     (exists stored, restoreBlock i (storeBlock block db) = Some stored
                     /\ same_header stored block)
     /\ forall j, j <> i -> restoreBlock j (storeBlock block db) = restoreBlock j db)
  /\ (index block = None -> storeBlock block db = db).
Proof.
  split.
  - intros i Hi _. unfold restoreBlock. rewrite main_storeBlock, Hi. split.
    + exists block. split; [ apply get_put_eq | repeat split ].
    + intros j Hj. now apply get_put_ne.
  - intros Hi. unfold storeBlock. now rewrite Hi.
Qed.

(** ** Loops that may throw *)

Lemma for_each_invariant {A S : Type} (P : S -> Prop) (body : S -> A -> result S) (l : list A) :
  (forall s x s', In x l -> P s -> body s x = Returned s' -> P s') ->
  forall s s', P s -> for_each body l s = Returned s' -> P s'.
Proof.
  induction l as [ | x rest IH ]; intros Hbody s s' Hs Hrun; cbn in Hrun.
  - now injection Hrun as <-.
  - destruct (body s x) as [ s1 | e ] eqn:Hx; [ | discriminate ].
    apply (IH (fun s0 y s0' Hy => Hbody s0 y s0' (or_intror Hy)) s1 s');
      [ | exact Hrun ].
    apply (Hbody s x s1); [ now left | exact Hs | exact Hx ].
Qed.

Lemma for_each_thrown {A S : Type} (body : S -> A -> result S) (l : list A) :
  (forall s x e, body s x = Thrown e -> e = TypeError) ->
  forall s e, for_each body l s = Thrown e -> e = TypeError.
Proof.
  intros Hbody. induction l as [ | x rest IH ]; intros s e Hrun; cbn in Hrun; [ discriminate | ].
  destruct (body s x) as [ s1 | e1 ] eqn:Hx.
  - apply (IH _ _ Hrun).
  - injection Hrun as <-. apply (Hbody _ _ _ Hx).
Qed.

Lemma filter_with_thrown {A : Type} (p : A -> result bool) (l : list A) :
  (forall x e, p x = Thrown e -> e = TypeError) ->
  forall e, filter_with p l = Thrown e -> e = TypeError.
Proof.
  intros Hp. induction l as [ | x rest IH ]; intros e Hrun; cbn in Hrun; [ discriminate | ].
  destruct (p x) as [ keep | e1 ] eqn:Hx.
  - destruct (filter_with p rest) as [ kept | e2 ]; [ discriminate | ].
    injection Hrun as <-. now apply IH.
  - injection Hrun as <-. apply (Hp _ _ Hx).
Qed.

Lemma filter_with_pure {A : Type} (p : A -> result bool) (q : A -> bool) (l : list A) :
  (forall x, p x = Returned (q x)) -> filter_with p l = Returned (List.filter q l).
Proof.
  intros Hp. induction l as [ | x rest IH ]; cbn; [ reflexivity | ].
  rewrite Hp, IH. reflexivity.
Qed.

Lemma filter_with_throws {A : Type} (p : A -> result bool) (l : list A) (x : A) :
  (forall y e, p y = Thrown e -> e = TypeError) ->
  In x l -> p x = Thrown TypeError -> filter_with p l = Thrown TypeError.
Proof.
  intros Hp. induction l as [ | y rest IH ]; intros Hin Hx; [ destruct Hin | ]. cbn.
  destruct (p y) as [ keep | e ] eqn:Hy.
  - destruct Hin as [-> | Hin]; [ congruence | ]. now rewrite IH.
  - now rewrite (Hp _ _ Hy).
Qed.

Section Scan.

(** The relational comparison [a < b] of the language on two values. *)
Variable js_lt : value -> value -> bool.

(** ** The filter on transactions *)

Lemma for_each_found {A : Type} (f : A -> bool) (l : list A) : forall found,
  for_each (fun (found : bool) x => if found then Returned true else Returned (f x)) l found
  = Returned (found || existsb f l).
Proof.
  induction l as [ | x rest IH ]; intros found; cbn.
  - now rewrite orb_false_r.
  - destruct found; cbn; rewrite IH; [ reflexivity | ]. reflexivity.
Qed.

(** X10: a condition that is not ambiguous compares the attributes with
    [===]. With no operation, or "or", a transaction is kept when one of
    the attributes of the condition is identical in the transaction;
    with "and", a transaction is kept when none of them is. *)
Theorem exact_condition_filter (txs : list transaction) (c : TransactionCondition)
    (conds : list (string * value)) :
  conditions c = Some conds ->
  default false (ambiguous c) = false ->
  let hit entry := existsb (fun kv => strict_eq (get_attr (fst kv) entry) (snd kv)) conds in
  (operation c <> Some "and" -> operation c <> Some "between" ->
     _filterTransactions js_lt txs c = Returned (List.filter hit txs))
  /\ (operation c = Some "and" ->
      _filterTransactions js_lt txs c = Returned (List.filter (fun entry => negb (hit entry)) txs)).
Proof.
  intros Hconds Hexact hit. unfold _filterTransactions. rewrite Hconds, Hexact. split.
  - intros Hand Hbetween.
    assert (Hop : match operation c with Some op => String.eqb op "and" | None => false end = false
                  /\ match operation c with Some op => String.eqb op "between" | None => false end
                     = false).
    { destruct (operation c) as [ op | ]; [ | now split ]. split; apply String.eqb_neq; congruence. }
    destruct Hop as [-> ->]. cbn [orb negb].
    apply filter_with_pure. intros entry. rewrite for_each_found. cbn.
    unfold hit. now destruct (existsb _ conds).
  - intros ->. cbn [String.eqb Ascii.eqb Bool.eqb orb negb].
    apply filter_with_pure. intros entry. rewrite for_each_found. cbn.
    unfold hit. now destruct (existsb _ conds).
Qed.

Lemma js_includes_thrown (x : option value) (c : value) (e : string) :
  js_includes x c = Thrown e -> e = TypeError.
Proof. unfold js_includes. destruct x as [ [ | | | | | | ] | ]; congruence. Qed.

Lemma between_conditions_thrown (conds : list (string * value)) (e : string) :
  between_conditions js_lt conds = Thrown e -> e = TypeError.
Proof.
  unfold between_conditions. apply for_each_thrown. intros kept kv e'.
  destruct (snd kv) as [ | | | | | | range ]; try congruence.
  destruct (get_attr "begin" range), (get_attr "end" range); try congruence.
  destruct (_ || _); congruence.
Qed.

Lemma _filterTransactions_thrown (txs : list transaction) (c : TransactionCondition) (e : string) :
  _filterTransactions js_lt txs c = Thrown e -> e = TypeError.
Proof.
  unfold _filterTransactions. destruct (conditions c) as [ conds | ]; [ | discriminate ].
  destruct (match operation c with Some op => String.eqb op "between" | None => false end).
  - destruct (between_conditions js_lt conds) as [ ranges | e' ] eqn:Hb; cbn; [ discriminate | ].
    intros [= <-]. apply (between_conditions_thrown _ _ Hb).
  - apply filter_with_thrown. intros entry e'.
    match goal with |- mbind _ ?m = _ -> _ => destruct m as [ found | e'' ] eqn:Hfound end; cbn;
      [ discriminate | ].
    intros [= <-]. revert Hfound. apply for_each_thrown. intros found kv e3.
    destruct found; [ discriminate | ]. destruct (default false (ambiguous c)); [ | discriminate ].
    apply js_includes_thrown.
Qed.


(** X11: an ambiguous condition calls [includes] on the attribute of
    the transaction: when a transaction of the list lacks the first
    attribute of the condition, the filter throws a TypeError. *)
Theorem ambiguous_condition_throws (txs : list transaction) (c : TransactionCondition)
    (key : string) (v : value) (rest : list (string * value)) (entry : transaction) :
  conditions c = Some ((key, v) :: rest) ->
  ambiguous c = Some true ->
  operation c <> Some "between" ->
  In entry txs -> get_attr key entry = None ->
  _filterTransactions js_lt txs c = Thrown TypeError.
Proof.
  intros Hconds Hamb Hop Hin Hkey.
  destruct (_filterTransactions js_lt txs c) as [ kept | e ] eqn:Hrun;
    [ exfalso | now rewrite (_filterTransactions_thrown _ _ _ Hrun) ].
  revert Hrun. unfold _filterTransactions. rewrite Hconds, Hamb.
  replace (match operation c with Some op => String.eqb op "between" | None => false end)
    with false
    by (destruct (operation c) as [ op | ]; [ | reflexivity ];
        symmetry; apply String.eqb_neq; congruence).
  cbn [default]. intros Hrun.
  rewrite (filter_with_throws _ txs entry) in Hrun; [ discriminate | | exact Hin | ].
  - intros y e.
    match goal with |- mbind _ ?m = _ -> _ => destruct m as [ found | e'' ] eqn:Hfound end; cbn;
      [ discriminate | ].
    intros [= <-]. revert Hfound. apply for_each_thrown. intros found kv e3.
    destruct found; [ discriminate | ]. apply js_includes_thrown.
  - cbn [for_each fst snd]. rewrite Hkey. reflexivity.
Qed.

(** ** The serial scan *)

Lemma in_createReadStream (reverse : bool) (limit : Z) (s : keyspace) (x : Z * Block) :
  In x (createReadStream reverse limit s) -> In x s.
Proof.
  unfold createReadStream. intros Hin.
  assert (Hentries : In x (if reverse then rev s else s)).
  { destruct (limit <? 0); [ exact Hin | ]. rewrite <- (firstn_skipn (Z.to_nat limit)). apply in_or_app. now left. }
  destruct reverse; [ now apply in_rev | exact Hentries ].
Qed.

(** X12: what the serial scan returns, when it is not asked for headers
    only: each block it returns is a block of the store, stored under a
    key other than 0 (the genesis block is never returned), inside the
    window of timestamps; without a condition it is returned with its
    transactions, with a condition with the transactions the condition
    keeps, of which there is one at least. *)
Theorem serial_scan_returns (reverse : bool) (offset limit : Z) (ts te : option Z)
    (cond : option condition_arg) (db : storage) (out : list emitted) :
  restoreBlocksSerially js_lt reverse offset limit ts te false cond db = Returned out ->
  Forall (fun e =>
    exists k b txs kept,
      In (k, b) (main db) /\ k <> 0 /\ in_timestamps ts te b = true
      /\ transactions b = Some txs
      /\ e = EBlock (with_transactions b kept)
      /\ match cond with
         | None => kept = txs
         | Some c => filterTransactions js_lt txs c = Returned kept /\ kept <> []
         end) out.
Proof.
  unfold restoreBlocksSerially.
  destruct (for_each _ _ _) as [ s | e ] eqn:Hrun; cbn; [ | discriminate ].
  intros [= <-]. revert Hrun.
  match goal with |- _ -> Forall ?emits _ =>
    apply (for_each_invariant (fun s => Forall emits (scan_result s))); [ | constructor ]
  end.
  intros s0 [k b] s' Hin Hs0. apply in_createReadStream in Hin.
  unfold on_data, splice_nothing. cbn [fst snd].
  destruct (scan_finished s0); [ now intros [= <-] | ].
  destruct (k =? 0) eqn:Hk; [ now intros [= <-] | ]. apply Z.eqb_neq in Hk.
  destruct (in_timestamps ts te b) eqn:Hwindow; cbn [negb]; [ | now intros [= <-] ].
  destruct cond as [ c | ].
  - destruct (transactions b) as [ txs | ] eqn:Htxs; cbn; [ | discriminate ].
    destruct (filterTransactions js_lt txs c) as [ kept | e ] eqn:Hkept; cbn; [ | discriminate ].
    destruct (length kept =? 0)%nat eqn:Hlen; [ now intros [= <-] | ].
    cbn [transactions with_transactions].
    destruct (_ <? offset), (limit <? _); intros [= <-]; cbn [scan_result];
      (apply Forall_app; split; [ exact Hs0 | ]);
      (constructor; [ | constructor ]);
      exists k, b, txs, kept; repeat split; try assumption;
      try (destruct b; reflexivity);
      intros ->; discriminate.
  - cbn. destruct (transactions b) as [ txs | ] eqn:Htxs; [ | discriminate ].
    destruct (_ <? offset), (limit <? _); intros [= <-]; cbn [scan_result];
      (apply Forall_app; split; [ exact Hs0 | ]);
      (constructor; [ | constructor ]);
      exists k, b, txs, txs; repeat split; try assumption.
Qed.


End Scan.

Lemma getIndexes_in_order_witness :
  getIndexes (-1) "forward" store_sample = [0; 1]
  /\ getIndexes (-1) "backward" store_sample = rev (getIndexes (-1) "forward" store_sample)
  /\ getIndexes 1 "backward" store_sample = [1].
Proof.
  destruct (getIndexes_in_order store_sample) as (_ & _ & Hback & Hlimit).
  - vm_compute. repeat split; discriminate.
  - split; [ reflexivity | ]. split; [ exact Hback | ].
    destruct (Hlimit 1) as [_ ->]; [ lia | reflexivity ].
Defined.

Lemma getLastIndex_is_largest_witness :
  getLastIndex (mkStorage [] None) = -1
  /\ is_Some (restoreBlock (getLastIndex store_sample) store_sample)
  /\ forall i, is_Some (restoreBlock i store_sample) -> i <= getLastIndex store_sample.
Proof.
  split.
  - apply (getLastIndex_is_largest (mkStorage [] None)); [ exact I | reflexivity ].
  - apply (getLastIndex_is_largest store_sample).
    + vm_compute. repeat split; discriminate.
    + discriminate.
Defined.

Lemma exact_condition_filter_witness :
  _filterTransactions (fun _ _ => false) sample_transactions t1_exact
  = Returned [ [("transactionId", VStr "t1")]; [("transactionId", VStr "t2"); ("owner", VStr "me")] ]
  /\ _filterTransactions (fun _ _ => false) sample_transactions t1_and
     = Returned [ [("transactionId", VStr "t3"); ("owner", VStr "you")] ].
Proof.
  split.
  - apply (exact_condition_filter (fun _ _ => false) sample_transactions t1_exact
             [("transactionId", VStr "t1"); ("owner", VStr "me")]);
      [ reflexivity | reflexivity | discriminate | discriminate ].
  - apply (exact_condition_filter (fun _ _ => false) sample_transactions t1_and
             [("transactionId", VStr "t1"); ("owner", VStr "me")]);
      reflexivity.
Defined.

Lemma ambiguous_condition_throws_witness :
  _filterTransactions (fun _ _ => false) sample_transactions owner_like = Thrown TypeError.
Proof.
  apply (ambiguous_condition_throws (fun _ _ => false) sample_transactions owner_like
           "owner" (VStr "m") [] [("transactionId", VStr "t1")]);
    [ reflexivity | reflexivity | discriminate | now left | reflexivity ].
Defined.


Lemma serial_scan_returns_witness :
  Forall (fun e => exists k b txs kept,
            In (k, b) (main store_sample) /\ k <> 0 /\ in_timestamps None None b = true
            /\ transactions b = Some txs /\ e = EBlock (with_transactions b kept)
            /\ kept = txs)
    [EBlock block1_sample].
Proof.
  apply (serial_scan_returns (fun _ _ => false) false 0 (-1) None None None store_sample).
  reflexivity.
Defined.

End StorageProps.
(* ===================================================================== *)
(** * More on the blockchain engine: the nonce search, sealing a block,
      the pool *)
(* ===================================================================== *)

Module EngineProps.
Import Json LevelDB Blockchain BlockchainProps.

Section Engine.

Variable sha256_hex : string -> string.
Variable json_text : json -> string.

(** ** The nonce search *)

Lemma findNonce_from_least (prevHash currentHash : string) (fuel : nat) :
  forall start nonce,
  findNonce_from sha256_hex fuel start prevHash currentHash = Some nonce ->
  start <= nonce
  /\ forall m, start <= m < nonce ->
       starts_with_0000 (generateHash sha256_hex m prevHash currentHash) = false.
Proof.
  induction fuel as [ | fuel IH ]; intros start nonce H; [ discriminate | ].
  cbn [findNonce_from] in H.
  destruct (starts_with_0000 (generateHash sha256_hex start prevHash currentHash)) eqn:Hs.
  - injection H as <-. split; [ lia | ]. intros m Hm. lia.
  - destruct (IH _ _ H) as [Hle Hbelow]. split; [ lia | ].
    intros m Hm. destruct (Z.eq_dec m start) as [-> | Hne]; [ exact Hs | ].
    apply Hbelow. lia.
Qed.

Lemma findNonce_from_enough (prevHash currentHash : string) (fuel : nat) :
  forall start n,
  start <= n -> (Z.to_nat (n - start) < fuel)%nat ->
  starts_with_0000 (generateHash sha256_hex n prevHash currentHash) = true ->
  exists nonce, findNonce_from sha256_hex fuel start prevHash currentHash = Some nonce
                /\ nonce <= n.
Proof.
  induction fuel as [ | fuel IH ]; intros start n Hle Hfuel Hn; [ lia | ].
  cbn [findNonce_from].
  destruct (starts_with_0000 (generateHash sha256_hex start prevHash currentHash)) eqn:Hs.
  - exists start. split; [ reflexivity | lia ].
  - assert (start <> n) by (intros ->; congruence).
    apply IH; [ lia | lia | exact Hn ].
Qed.

(** X1: [#findNonce] returns the least nonce, counted from 0, whose hash
    starts with "0000": the nonce it returns has such a hash and no
    smaller one has; and when some nonce [n] has such a hash, the search
    ends within [n + 1] rounds with a nonce that is not above [n]. *)
Theorem findNonce_is_least (prevHash currentHash : string) :
  (forall fuel nonce,
     findNonce sha256_hex fuel prevHash currentHash = Some nonce ->
     0 <= nonce
     /\ starts_with_0000 (generateHash sha256_hex nonce prevHash currentHash) = true
     /\ forall m, 0 <= m < nonce ->
          starts_with_0000 (generateHash sha256_hex m prevHash currentHash) = false)
  /\ (forall n,
        0 <= n ->
        starts_with_0000 (generateHash sha256_hex n prevHash currentHash) = true ->
        exists nonce,
          findNonce sha256_hex (S (Z.to_nat n)) prevHash currentHash = Some nonce
          /\ nonce <= n).
Proof.
  split.
  - intros fuel nonce H. unfold findNonce in H.
    destruct (findNonce_from_least _ _ _ _ _ H) as [Hle Hbelow].
    split; [ exact Hle | ]. split; [ | exact Hbelow ].
    eapply findNonce_from_found; eassumption.
  - intros n Hn Hhash. unfold findNonce.
    apply findNonce_from_enough; [ lia | | exact Hhash ].
    rewrite Z.sub_0_r. lia.
Qed.

(** ** The root hash *)

Lemma getRootHash_some (transactions : list transaction) :
  transactions <> [] -> exists root, getRootHash sha256_hex json_text transactions = Some root.
Proof.
  intros Hne. unfold getRootHash. destruct transactions as [ | t rest ]; [ congruence | ].
  rewrite findRoot_reference. apply reference_root_some. discriminate.
Qed.

(** ** Sealing a block *)

(** X2: [commitBlock] on a node whose store ends with a block that has a
    hash, and whose pool is not empty: it returns the new block, which
    has the next index, nonce 0, the hash of the last block as
    [prevHash], the hash of these and of the root hash of the pool as
    [hash], and the transactions of the pool; the block is stored under
    its index (the store gives it back with this header), which is the
    last index from then on, the blocks stored before are as they were,
    and the pool is empty. *)
Theorem commitBlock_appends (now : Z) (bc : Blockchain) (lastBlock : Block) (lastHash : string) :
  well_formed (bc_storage bc) ->
  bc_transactions bc <> [] ->
  restoreBlock (getLastIndex (bc_storage bc)) (bc_storage bc) = Some lastBlock ->
  hash lastBlock = Some lastHash ->
  exists root,
    getRootHash sha256_hex json_text (map snd (bc_transactions bc)) = Some root
    /\ let last := getLastIndex (bc_storage bc) in
       let block :=
         mkBlock (Some (bc_version bc)) (Some (last + 1)) (Some now) (Some 0) (Some lastHash)
           (Some (generateHash sha256_hex 0 lastHash root))
           (Some (map snd (bc_transactions bc))) in
       let bc' := snd (commitBlock sha256_hex json_text now bc) in
       fst (commitBlock sha256_hex json_text now bc) = Returned (Some block)
       /\ bc_transactions bc' = []
       /\ (exists stored, restoreBlock (last + 1) (bc_storage bc') = Some stored
                          /\ same_header stored block)
       /\ getLastIndex (bc_storage bc') = last + 1
       /\ forall i, i <> last + 1 ->
            restoreBlock i (bc_storage bc') = restoreBlock i (bc_storage bc).
Proof.
  intros Hwf Hpool Hlast Hhash.
  destruct (getRootHash_some (map snd (bc_transactions bc))) as [root Hroot].
  { destruct (bc_transactions bc); [ congruence | discriminate ]. }
  exists root. split; [ exact Hroot | ]. cbv zeta.
  unfold commitBlock.
  destruct (bc_transactions bc) as [ | t pool ] eqn:Hpool'; [ congruence | ].
  rewrite <- Hpool' in *. rewrite Hlast, Hroot, Hhash. cbn [createBlock concat_operand default].
  cbn [fst snd bc_transactions bc_storage]. rewrite Hpool'.
  set (block := mkBlock _ _ _ _ _ _ _).
  split; [ reflexivity | ]. split; [ reflexivity | ].
  assert (Hne : main (bc_storage bc) <> []).
  { unfold restoreBlock in Hlast. intros Hempty. rewrite Hempty in Hlast. discriminate. }
  unfold restoreBlock. rewrite main_storeBlock. cbn [index block].
  split; [ exists block; split; [ apply get_put_eq | repeat split ] | ]. split.
  - assert (Hmax : forall k b, get k (main (bc_storage bc)) = Some b ->
                     k <= getLastIndex (bc_storage bc)).
    { intros k b Hk. rewrite getLastIndex_last_key. eapply last_key_upper; eassumption. }
    assert (Hwf' : ascending_from 0
                     (put (getLastIndex (bc_storage bc) + 1) block (main (bc_storage bc)))).
    { apply put_ascending; [ | exact Hwf ].
      pose proof (get_lower_bound _ _ _ _ Hwf Hlast). lia. }
    rewrite (getLastIndex_last_key (storeBlock block (bc_storage bc))), main_storeBlock.
    cbn [index block]. apply Z.le_antisymm.
    + destruct (last_key_get _ 0 (-1) Hwf') as [b Hb].
      { intros Hempty.
        pose proof (get_put_eq (getLastIndex (bc_storage bc) + 1) block (main (bc_storage bc)))
          as Hnew.
        rewrite Hempty in Hnew. discriminate. }
      destruct (Z.eq_dec
                  (last_key (-1)
                     (put (getLastIndex (bc_storage bc) + 1) block (main (bc_storage bc))))
                  (getLastIndex (bc_storage bc) + 1)) as [-> | Hother]; [ lia | ].
      rewrite get_put_ne in Hb by exact Hother. apply Hmax in Hb. lia.
    + eapply last_key_upper; [ exact Hwf' | apply get_put_eq ].
  - intros i Hi. apply get_put_ne. exact Hi.
Qed.


(** ** The genesis block *)

(** X4: [generateGenesisBlock], when its nonce search ends, stores and
    returns block 0 (the store gives it back with this header): its
    [prevHash] is the empty string, its nonce is the
    least one for which the hash of the nonce and the fixed root
    [H0] starts with "0000", its hash is that hash, and it takes the
    transactions of the pool with it, which is empty afterwards. *)
Theorem genesis_block (fuel : nat) (now : Z) (bc : Blockchain) (r : option Block)
    (bc' : Blockchain) :
  generateGenesisBlock sha256_hex fuel now bc = Some (r, bc') ->
  exists nonce,
    r = Some (mkBlock (Some (bc_version bc)) (Some 0) (Some now) (Some nonce) (Some "")
                (Some (generateHash sha256_hex nonce "" H0))
                (Some (map snd (bc_transactions bc))))
    /\ starts_with_0000 (generateHash sha256_hex nonce "" H0) = true
    /\ (forall m, 0 <= m < nonce -> starts_with_0000 (generateHash sha256_hex m "" H0) = false)
    /\ (exists stored, restoreBlock 0 (bc_storage bc') = Some stored
          /\ index stored = Some 0 /\ prevHash stored = Some ""
          /\ hash stored = Some (generateHash sha256_hex nonce "" H0))
    /\ bc_transactions bc' = [].
Proof.
  unfold generateGenesisBlock.
  destruct (findNonce sha256_hex fuel "" H0) as [ nonce | ] eqn:Hnonce; [ | discriminate ].
  cbn [createBlock]. intros [= <- <-]. exists nonce.
  pose proof (findNonce_from_found _ _ _ _ _ _ Hnonce) as Hhash.
  destruct (findNonce_from_least _ _ _ _ _ Hnonce) as [_ Hleast].
  split; [ reflexivity | ]. split; [ exact Hhash | ]. split; [ exact Hleast | ].
  split; [ | reflexivity ].
  cbn [bc_storage]. unfold restoreBlock. rewrite main_storeBlock. cbn [index].
  eexists. split; [ apply get_put_eq | repeat split ].
Qed.

(** ** The pool *)

Lemma pool_commitBlock (now : Z) (bc : Blockchain) :
  bc_transactions (snd (commitBlock sha256_hex json_text now bc)) = bc_transactions bc
  \/ bc_transactions (snd (commitBlock sha256_hex json_text now bc)) = [].
Proof.
  unfold commitBlock. destruct (bc_transactions bc) as [ | t pool ] eqn:Hpool; [ now left | ].
  destruct (restoreBlock _ _) as [ lb | ]; [ | now left ].
  destruct (getRootHash _ _ _) as [ root | ]; [ | now left ].
  unfold createBlock. destruct (hash lb); cbn [snd bc_transactions]; [ now right | now left ].
Qed.

Lemma pool_setBlocks (newValue : option (list Block)) (bc : Blockchain) :
  bc_transactions (snd (setBlocks sha256_hex json_text newValue bc)) = bc_transactions bc.
Proof.
  unfold setBlocks. destruct newValue as [ newValue | ]; [ | reflexivity ].
  destruct (List.filter _ _); [ reflexivity | ].
  unfold storeBlocks. destruct (validateBlocks _ _ _ _); reflexivity.
Qed.

(** X5: the pool never holds the same transaction object twice, in any
    state the engine reaches, whatever blocks are synchronized:
    [addTransaction] ignores an object that is in the pool already. *)
Theorem pool_has_no_duplicates (version : string) (indexKeys : option (list string))
    (bc : Blockchain) :
  reachable sha256_hex json_text any_store version indexKeys bc ->
  List.NoDup (map fst (bc_transactions bc)).
Proof.
  induction 1 as [ | bc bc' _ IH Hstep ]; [ constructor | ].
  destruct Hstep as [ t bc | fuel now bc r bc' Hgen | now bc | i r n now bc | newValue bc Hsync ].
  - unfold addTransaction. destruct (existsb _ _) eqn:Hin; [ exact IH | ].
    cbn [bc_transactions]. rewrite map_app. cbn [map].
    apply List.NoDup_app; [ exact IH | repeat constructor; intros [] | ].
    intros x Hx [<- | []]. apply in_map_iff in Hx. destruct Hx as (t' & Heq & Ht').
    assert (Hex : existsb (fun t0 => Nat.eqb (fst t0) (fst t)) (bc_transactions bc) = true).
    { apply existsb_exists. exists t'. split; [ exact Ht' | ]. rewrite Heq. apply Nat.eqb_refl. }
    congruence.
  - unfold generateGenesisBlock in Hgen.
    destruct (findNonce sha256_hex fuel "" H0); [ | discriminate ].
    injection Hgen as _ <-. constructor.
  - destruct (pool_commitBlock now bc) as [-> | ->]; [ exact IH | constructor ].
  - now rewrite commitProofOfWork_state.
  - now rewrite pool_setBlocks.
Qed.

(** ** Synchronizing blocks twice *)

Lemma filter_nil {A : Type} (f : A -> bool) (l : list A) :
  (forall x, In x l -> f x = false) -> List.filter f l = [].
Proof.
  induction l as [ | x rest IH ]; intros Hall; [ reflexivity | ]. cbn.
  rewrite (Hall x) by (now left). apply IH. intros y Hy. apply Hall. now right.
Qed.

Lemma stored_keys (blocks : list Block) : forall db,
  let db' := fold_left (fun db block => storeBlock block db) blocks db in
  (forall k, is_Some (get k (main db)) -> is_Some (get k (main db')))
  /\ (forall b i, In b blocks -> index b = Some i -> is_Some (get i (main db'))).
Proof.
  induction blocks as [ | b rest IH ]; intros db; cbn.
  - split; [ trivial | intros ? ? [] ].
  - destruct (IH (storeBlock b db)) as [Hkeep Hnew].
    assert (Hput : forall k, is_Some (get k (main db)) ->
                     is_Some (get k (main (storeBlock b db)))).
    { intros k Hk. rewrite main_storeBlock. destruct (index b) as [ i | ]; [ | exact Hk ].
      destruct (Z.eq_dec k i) as [-> | Hne].
      - rewrite get_put_eq. eexists; reflexivity.
      - now rewrite get_put_ne. }
    split.
    + intros k Hk. apply Hkeep, Hput, Hk.
    + intros b' i [<- | Hin] Hi.
      * apply Hkeep. rewrite main_storeBlock, Hi, get_put_eq. eexists; reflexivity.
      * eapply Hnew; eassumption.
Qed.

Lemma stored_ascending (blocks : list Block) : forall db,
  (forall b i, In b blocks -> index b = Some i -> 0 <= i) ->
  well_formed db ->
  well_formed (fold_left (fun db block => storeBlock block db) blocks db).
Proof.
  induction blocks as [ | b rest IH ]; intros db Hlow Hwf; cbn; [ exact Hwf | ].
  apply IH; [ intros b' i Hb'; apply Hlow; now right | ].
  unfold well_formed. rewrite main_storeBlock. destruct (index b) as [ i | ] eqn:Hi; [ | exact Hwf ].
  apply put_ascending; [ | exact Hwf ]. apply (Hlow b); [ now left | exact Hi ].
Qed.

(** X6: blocks that were synchronized once are ignored when they arrive
    again: on a store that holds a block, when [setBlocks] has accepted a
    list of blocks, a second [setBlocks] with the same list succeeds and
    changes nothing. *)
Theorem setBlocks_twice (newValue : list Block) (bc bc' : Blockchain) :
  well_formed (bc_storage bc) -> main (bc_storage bc) <> [] ->
  setBlocks sha256_hex json_text (Some newValue) bc = (Returned tt, bc') ->
  setBlocks sha256_hex json_text (Some newValue) bc' = (Returned tt, bc').
Proof.
  intros Hwf Hne Hset.
  destruct (setBlocks_on_store sha256_hex json_text newValue bc Hwf Hne) as [Hbad Hgood].
  destruct (ends_with_last _ Hwf Hne) as (lb & Hlb & Hend & _).
  assert (HlastHash : lastHash (bc_storage bc) = hash lb) by (unfold lastHash; now rewrite Hlb).
  set (remaining := List.filter (newer_than (getLastIndex (bc_storage bc))) newValue) in *.
  assert (Hvalid : valid_chain sha256_hex json_text (getLastIndex (bc_storage bc))
                     (lastHash (bc_storage bc)) remaining).
  { destruct (for_each (validate_block sha256_hex json_text) remaining
                (getLastIndex (bc_storage bc), hash lb)) as [ state' | e ] eqn:Hfor.
    - apply validate_chain_valid in Hfor. now rewrite HlastHash.
    - assert (Hinvalid : ~ valid_chain sha256_hex json_text (getLastIndex (bc_storage bc))
                             (lastHash (bc_storage bc)) remaining).
      { rewrite HlastHash. intros Hvalid. apply valid_chain_validate in Hvalid.
        destruct Hvalid as [state' Hvalid]. congruence. }
      destruct (Hbad Hinvalid) as [e' He']. congruence. }
  rewrite (Hgood Hvalid) in Hset. injection Hset as <-.
  assert (Hlow : 0 <= getLastIndex (bc_storage bc))
    by (eapply get_lower_bound; [ exact Hwf | exact Hlb ]).
  assert (Hwf' : well_formed
                   (fold_left (fun db block => storeBlock block db) remaining (bc_storage bc))).
  { apply stored_ascending; [ | exact Hwf ].
    intros b i Hb Hi. apply filter_In in Hb. destruct Hb as [_ Hb].
    unfold newer_than in Hb. rewrite Hi in Hb. apply Z.ltb_lt in Hb. lia. }
  unfold setBlocks. cbn [bc_storage].
  set (db' := fold_left (fun db block => storeBlock block db) remaining (bc_storage bc)) in *.
  destruct (stored_keys remaining (bc_storage bc)) as [Hkeep Hnew]. fold db' in Hkeep, Hnew.
  assert (Hupper : forall k, is_Some (get k (main db')) -> k <= getLastIndex db').
  { intros k [b Hb]. rewrite getLastIndex_last_key. eapply last_key_upper; eassumption. }
  rewrite filter_nil; [ reflexivity | ].
  intros b Hb. unfold newer_than. destruct (index b) as [ i | ] eqn:Hi; [ | reflexivity ].
  apply Z.ltb_ge. destruct (getLastIndex (bc_storage bc) <? i) eqn:Hnewer.
  - apply Hupper. apply (Hnew b); [ | exact Hi ].
    apply filter_In. split; [ exact Hb | ]. unfold newer_than. now rewrite Hi.
  - apply Z.ltb_ge in Hnewer. etransitivity; [ exact Hnewer | ].
    apply Hupper, Hkeep. unfold restoreBlock in Hlb. rewrite Hlb. eexists; reflexivity.
Qed.

End Engine.

Lemma findNonce_is_least_witness :
  findNonce sample_sha256_two 5 "" "" = Some 2
  /\ starts_with_0000 (generateHash sample_sha256_two 0 "" "") = false
  /\ starts_with_0000 (generateHash sample_sha256_two 1 "" "") = false
  /\ exists nonce, findNonce sample_sha256_two (S (Z.to_nat 2)) "" "" = Some nonce /\ nonce <= 2.
Proof.
  destruct (findNonce_is_least sample_sha256_two "" "") as [Hleast Hfinds].
  destruct (Hleast 5%nat 2 eq_refl) as (_ & _ & Hbelow).
  split; [ reflexivity | ].
  split; [ apply Hbelow; lia | ]. split; [ apply Hbelow; lia | ].
  apply Hfinds; [ lia | reflexivity ].
Defined.

Lemma commitBlock_appends_witness :
  exists root block,
    getRootHash sample_sha256 sample_text [snd sample_transaction] = Some root
    /\ fst (commitBlock sample_sha256 sample_text 30 (addTransaction sample_transaction sample_chain))
       = Returned (Some block)
    /\ index block = Some 2
    /\ getLastIndex
         (bc_storage
            (snd (commitBlock sample_sha256 sample_text 30
                    (addTransaction sample_transaction sample_chain)))) = 2.
Proof.
  destruct (commitBlock_appends sample_sha256 sample_text 30
              (addTransaction sample_transaction sample_chain)
              (mkBlock (Some "1.0") (Some 1) (Some 20) (Some 0)
                 (Some (generateHash sample_sha256 0 "" H0))
                 (Some (generateHash sample_sha256 0 (generateHash sample_sha256 0 "" H0)
                          (sample_sha256 "{}")))
                 (Some [snd sample_transaction]))
              (generateHash sample_sha256 0 (generateHash sample_sha256 0 "" H0)
                 (sample_sha256 "{}")))
    as (root & Hroot & Hret & _ & _ & Hlast & _).
  - vm_compute. repeat split; discriminate.
  - discriminate.
  - reflexivity.
  - reflexivity.
  - exists root. eexists. split; [ exact Hroot | ]. split; [ exact Hret | ].
    split; [ reflexivity | exact Hlast ].
Defined.


Lemma genesis_block_witness :
  exists nonce,
    restoreBlock 0
      (bc_storage (snd (createBlock (VBig 0) (VNum 0) (Some "")
                          (Some (generateHash sample_sha256 0 "" H0)) 10 sample_before_genesis)))
    = Some (mkBlock (Some "1.0") (Some 0) (Some 10) (Some nonce) (Some "")
              (Some (generateHash sample_sha256 nonce "" H0))
              (Some [snd sample_transaction]))
    /\ starts_with_0000 (generateHash sample_sha256 nonce "" H0) = true.
Proof.
  destruct (genesis_block sample_sha256 1 10 sample_before_genesis
              (fst (createBlock (VBig 0) (VNum 0) (Some "")
                      (Some (generateHash sample_sha256 0 "" H0)) 10 sample_before_genesis))
              (snd (createBlock (VBig 0) (VNum 0) (Some "")
                      (Some (generateHash sample_sha256 0 "" H0)) 10 sample_before_genesis))
              eq_refl)
    as (nonce & Hr & Hhash & _ & _ & _).
  exists nonce. split; [ | exact Hhash ]. injection Hr as Hr. rewrite <- Hr. reflexivity.
Defined.

Lemma pool_has_no_duplicates_witness :
  List.NoDup
    (map fst (bc_transactions (addTransaction sample_transaction
                                 (addTransaction sample_transaction (new "1.0" None))))).
Proof.
  apply (pool_has_no_duplicates sample_sha256 sample_text "1.0" None).
  eapply reachable_step; [ eapply reachable_step; [ apply reachable_new | ] | ];
    apply step_addTransaction.
Defined.

Lemma setBlocks_twice_witness :
  setBlocks sample_sha256 sample_text (Some [sample_block2])
    (snd (setBlocks sample_sha256 sample_text (Some [sample_block2]) sample_chain))
  = (Returned tt, snd (setBlocks sample_sha256 sample_text (Some [sample_block2]) sample_chain))
  /\ getLastIndex
       (bc_storage (snd (setBlocks sample_sha256 sample_text (Some [sample_block2]) sample_chain)))
     = 2.
Proof.
  split; [ | reflexivity ].
  apply (setBlocks_twice sample_sha256 sample_text [sample_block2] sample_chain).
  - vm_compute. repeat split; discriminate.
  - vm_compute. discriminate.
  - reflexivity.
Defined.

End EngineProps.
(* ===================================================================== *)
(** * More on the orchestrator: the backlog, the nodes of the network *)
(* ===================================================================== *)

Module IntakeProps.
Import Json LevelDB Blockchain Server.

(** ** The backlog *)

Lemma commitTransaction_loop (ids : list value) (p : bool) (backlog : list object) :
  forall (kept : list object) (bc : Blockchain.Blockchain),
  fold_left (fun server transaction =>
    let tid := get_attr "transactionId" (snd transaction) in
    if negb (nullish tid) && existsb (strict_eq tid) ids
    then
      let transaction := (fst transaction, delete_attr "@temp" (snd transaction)) in
      if processingConsensus server
      then mkServer (processingConsensus server)
             (transactionBacklog server ++ [transaction]) (blockchain server)
      else mkServer (processingConsensus server) (transactionBacklog server)
             (Blockchain.addTransaction transaction (blockchain server))
    else mkServer (processingConsensus server)
           (transactionBacklog server ++ [transaction]) (blockchain server))
    backlog (mkServer p kept bc)
  = if p
    then mkServer p (kept ++ map (fun t => if committed ids t then finalized t else t) backlog) bc
    else mkServer p (kept ++ List.filter (fun t => negb (committed ids t)) backlog)
           (fold_left (fun bc t => Blockchain.addTransaction (finalized t) bc)
              (List.filter (committed ids) backlog) bc).
Proof.
  induction backlog as [ | t rest IH ]; intros kept bc.
  - cbn. rewrite app_nil_r. now destruct p.
  - cbn [fold_left].
    match goal with |- fold_left _ rest ?s = _ =>
      assert (Hs : s = if committed ids t
                       then (if p then mkServer p (kept ++ [finalized t]) bc
                             else mkServer p kept (Blockchain.addTransaction (finalized t) bc))
                       else mkServer p (kept ++ [t]) bc)
        by (unfold committed, finalized; cbn;
            destruct (negb _ && _); [ destruct p | ]; reflexivity);
      rewrite Hs; clear Hs
    end.
    destruct (committed ids t) eqn:Hc; destruct p; rewrite IH; cbn [map List.filter negb];
      rewrite ?Hc; cbn [negb fold_left]; rewrite <- ?app_assoc; reflexivity.
Qed.

(** X14: [commitTransaction] on the backlog. A transaction is finalized
    when it has a [transactionId] that is one of the identifiers given.
    While no consensus round is running, the finalized transactions
    leave the backlog and are added to the pool, without their ["@temp"],
    in the order of the backlog; the others stay, in order. While a round
    is running, every transaction stays in the backlog, in order, the
    finalized ones without their ["@temp"], and the pool is as it was. *)
Theorem commitTransaction_finalizes (ids : list value) (server : BlockchainServer) :
  let server' := commitTransaction ids server in
  processingConsensus server' = processingConsensus server
  /\ (processingConsensus server = false ->
      transactionBacklog server'
      = List.filter (fun t => negb (committed ids t)) (transactionBacklog server)
      /\ blockchain server'
         = fold_left (fun bc t => Blockchain.addTransaction (finalized t) bc)
             (List.filter (committed ids) (transactionBacklog server)) (blockchain server))
  /\ (processingConsensus server = true ->
      transactionBacklog server'
      = map (fun t => if committed ids t then finalized t else t) (transactionBacklog server)
      /\ blockchain server' = blockchain server).
Proof.
  cbv zeta. unfold commitTransaction.
  destruct (transactionBacklog server) as [ | t rest ] eqn:Hbacklog.
  - rewrite Hbacklog. repeat split.
  - rewrite commitTransaction_loop.
    destruct (processingConsensus server); cbn [processingConsensus transactionBacklog blockchain app];
      repeat split; discriminate.
Qed.

Lemma commitTransaction_busy (ids : list value) (server : BlockchainServer) :
  processingConsensus server = true ->
  processingConsensus (commitTransaction ids server) = true
  /\ blockchain (commitTransaction ids server) = blockchain server.
Proof.
  intros Hbusy. unfold commitTransaction.
  destruct (transactionBacklog server) as [ | t rest ]; [ now split | ].
  rewrite commitTransaction_loop, Hbusy. split; reflexivity.
Qed.

Lemma commitTransaction_during (ids : list value) (server : BlockchainServer) :
  processingConsensus server = true ->
  transactionBacklog (commitTransaction ids server)
  = map (fun t => if committed ids t then finalized t else t) (transactionBacklog server)
  /\ blockchain (commitTransaction ids server) = blockchain server.
Proof.
  intros Hbusy. unfold commitTransaction.
  destruct (transactionBacklog server) as [ | t rest ] eqn:Hbacklog.
  - rewrite Hbacklog. now split.
  - rewrite commitTransaction_loop, Hbusy. split; reflexivity.
Qed.

Lemma retrieve_loop (p : bool) (backlog : list object) :
  forall (kept : list object) (bc : Blockchain.Blockchain),
  fold_left (fun server transaction =>
    if negb (nullish (get_attr "@temp" (snd transaction)))
    then mkServer (processingConsensus server) (transactionBacklog server ++ [transaction])
           (blockchain server)
    else mkServer (processingConsensus server) (transactionBacklog server)
           (Blockchain.addTransaction transaction (blockchain server)))
    backlog (mkServer p kept bc)
  = mkServer p (kept ++ List.filter is_temporary backlog)
      (fold_left (fun bc t => Blockchain.addTransaction t bc)
         (List.filter (fun t => negb (is_temporary t)) backlog) bc).
Proof.
  induction backlog as [ | t rest IH ]; intros kept bc.
  - cbn. now rewrite app_nil_r.
  - cbn [fold_left].
    match goal with |- fold_left _ rest ?s = _ =>
      assert (Hs : s = if is_temporary t then mkServer p (kept ++ [t]) bc
                       else mkServer p kept (Blockchain.addTransaction t bc))
        by (unfold is_temporary; cbn; destruct (negb _); reflexivity);
      rewrite Hs; clear Hs
    end.
    destruct (is_temporary t) eqn:Ht; rewrite IH; cbn [List.filter negb];
      rewrite Ht; cbn [negb fold_left]; rewrite <- ?app_assoc; reflexivity.
Qed.

Lemma retrieve_idle (server : BlockchainServer) :
  processingConsensus server = false ->
  retrieveTransactionFromBacklog server
  = mkServer false (List.filter is_temporary (transactionBacklog server))
      (fold_left (fun bc t => Blockchain.addTransaction t bc)
         (List.filter (fun t => negb (is_temporary t)) (transactionBacklog server))
         (blockchain server)).
Proof.
  intros Hidle. unfold retrieveTransactionFromBacklog. rewrite Hidle.
  destruct (transactionBacklog server) as [ | t rest ] eqn:Hbacklog.
  - destruct server. cbn in *. now subst.
  - rewrite retrieve_loop. reflexivity.
Qed.

Lemma pool_grows (t : object) (bc : Blockchain.Blockchain) (i : nat) :
  In i (map fst (bc_transactions bc)) ->
  In i (map fst (bc_transactions (Blockchain.addTransaction t bc))).
Proof.
  unfold Blockchain.addTransaction. destruct (existsb _ _); [ trivial | ].
  cbn. rewrite map_app. intros H. apply in_or_app. now left.
Qed.

Lemma pool_holds (t : object) (bc : Blockchain.Blockchain) :
  In (fst t) (map fst (bc_transactions (Blockchain.addTransaction t bc))).
Proof.
  unfold Blockchain.addTransaction. destruct (existsb _ _) eqn:Hin.
  - apply existsb_exists in Hin. destruct Hin as (t' & Ht' & Heq).
    apply Nat.eqb_eq in Heq. rewrite <- Heq. now apply in_map.
  - cbn. rewrite map_app. apply in_or_app. right. now left.
Qed.

Lemma pool_holds_all (l : list object) : forall (bc : Blockchain.Blockchain),
  (forall i, In i (map fst (bc_transactions bc)) ->
     In i (map fst (bc_transactions (fold_left (fun bc t => Blockchain.addTransaction t bc) l bc))))
  /\ forall t, In t l ->
       In (fst t)
         (map fst (bc_transactions (fold_left (fun bc t => Blockchain.addTransaction t bc) l bc))).
Proof.
  induction l as [ | x rest IH ]; intros bc; cbn.
  - split; [ trivial | intros ? [] ].
  - destruct (IH (Blockchain.addTransaction x bc)) as [Hkeep Hnew]. split.
    + intros i Hi. apply Hkeep, pool_grows, Hi.
    + intros t [<- | Ht]; [ apply Hkeep, pool_holds | now apply Hnew ].
Qed.

Lemma temporary_finalized (t : object) : is_temporary (finalized t) = false.
Proof.
  unfold is_temporary, finalized, delete_attr. cbn [snd].
  induction (snd t) as [ | [k v] rest IH ]; [ reflexivity | ]. cbn.
  destruct (String.eqb_spec k "@temp") as [-> | Hne]; cbn; [ exact IH | ].
  destruct (String.eqb_spec k "@temp"); [ contradiction | exact IH ].
Qed.

(** X15: a transaction that is finalized while a consensus round is
    running is not lost: when the round ends ([processingConsensus] is
    set to [false] and [retrieveTransactionFromBacklog] runs), it is in
    the pool; the backlog then holds the transactions that are still
    temporary and were not finalized, in order. *)
Theorem finalized_during_consensus (ids : list value) (server : BlockchainServer) :
  processingConsensus server = true ->
  let server' :=
    retrieveTransactionFromBacklog
      (set_processingConsensus (VBool false) (commitTransaction ids server)) in
  transactionBacklog server'
  = List.filter (fun t => is_temporary t && negb (committed ids t)) (transactionBacklog server)
  /\ forall t, In t (transactionBacklog server) -> committed ids t = true ->
       In (fst t) (map fst (bc_transactions (blockchain server'))).
Proof.
  intros Hbusy. cbv zeta.
  destruct (commitTransaction_during ids server Hbusy) as [Hbacklog Hpool].
  rewrite retrieve_idle by reflexivity.
  cbn [set_processingConsensus transactionBacklog blockchain]. rewrite Hbacklog, Hpool.
  split.
  - clear. induction (transactionBacklog server) as [ | t rest IH ]; [ reflexivity | ].
    cbn [map List.filter]. destruct (committed ids t) eqn:Hc; cbn [negb].
    + rewrite temporary_finalized, andb_false_r. exact IH.
    + rewrite andb_true_r. destruct (is_temporary t); [ now rewrite IH | exact IH ].
  - intros t Ht Hc.
    apply (proj2 (pool_holds_all _ (blockchain server)) (finalized t)). apply filter_In. split.
    + apply in_map_iff. exists t. split; [ now rewrite Hc | exact Ht ].
    + cbn. now rewrite temporary_finalized.
Qed.

Lemma delete_set_attr (key : string) (v : value) (attrs : list (string * value)) :
  get_attr key attrs = None -> delete_attr key (set_attr key v attrs) = attrs.
Proof.
  unfold delete_attr. induction attrs as [ | [k x] rest IH ]; cbn.
  - intros _. now rewrite String.eqb_refl.
  - destruct (String.eqb k key) eqn:Hk; [ discriminate | ].
    intros Hrest. cbn. rewrite Hk. cbn. now rewrite IH.
Qed.

(** X30: a transaction that is added as temporary and then finalized
    by its identifier ends where a plain addition puts it. On a server
    that is in no consensus round and whose backlog is empty, for a
    transaction with a string as [transactionId] and no ["@temp"]:
    [addTransaction(transaction, true)] holds it in the backlog with the
    time as ["@temp"], and [commitTransaction(transactionId)] then leaves
    the server as [addTransaction(transaction)] alone would have: the
    backlog empty, the transaction in the pool without ["@temp"]. *)
Theorem temporary_then_committed (transaction : object) (tid : string) (now : Z)
    (server : BlockchainServer) :
  processingConsensus server = false ->
  transactionBacklog server = [] ->
  get_attr "transactionId" (snd transaction) = Some (VStr tid) ->
  get_attr "@temp" (snd transaction) = None ->
  let held := snd (addTransaction (One transaction) (Some true) now server) in
  transactionBacklog held
  = [(fst transaction, set_attr "@temp" (VNum now) (snd transaction))]
  /\ blockchain held = blockchain server
  /\ commitTransaction [VStr tid] held
     = snd (addTransaction (One transaction) None now server).
Proof.
  intros Hidle Hempty Htid Htemp. cbv zeta.
  assert (Hkept : get_attr "transactionId" (set_attr "@temp" (VNum now) (snd transaction))
                  = Some (VStr tid)).
  { clear Htemp. induction (snd transaction) as [ | [k x] rest IH ]; [ discriminate | ].
    cbn in Htid |- *. destruct (String.eqb k "@temp") eqn:Hk; cbn.
    - apply String.eqb_eq in Hk. subst k. exact Htid.
    - destruct (String.eqb k "transactionId"); [ exact Htid | now apply IH ]. }
  assert (Hmarked : get_attr "@temp" (set_attr "@temp" (VNum now) (snd transaction))
                    = Some (VNum now)).
  { clear Htid Hkept. induction (snd transaction) as [ | [k x] rest IH ]; [ reflexivity | ].
    cbn in Htemp |- *. destruct (String.eqb k "@temp") eqn:Hk; [ discriminate | ].
    cbn. rewrite Hk. now apply IH. }
  unfold addTransaction. change (default false (Some true)) with true.
  change (default false None) with false. cbv zeta. rewrite Htid.
  cbn [nullish negb andb snd].
  unfold accept. rewrite Hidle. cbn [snd orb]. rewrite Hmarked, Htemp. cbn [nullish negb].
  rewrite Hempty. cbn [app transactionBacklog blockchain].
  split; [ reflexivity | ]. split; [ reflexivity | ].
  unfold commitTransaction. cbn [transactionBacklog fold_left processingConsensus blockchain snd fst].
  rewrite Hkept. cbn [nullish negb existsb strict_eq]. rewrite String.eqb_refl. cbn [orb andb].
  rewrite delete_set_attr by exact Htemp. now destruct transaction.
Qed.

(** ** The nodes of the network *)

Section Nodes.

Variable loose_eq : value -> string -> bool.

Lemma url_is_known (u : string) (entries : list (list (string * value))) :
  existsb (url_is loose_eq u) entries = false -> ~ In u (string_urls entries).
Proof.
  induction entries as [ | entry rest IH ]; cbn; [ tauto | ].
  intros Hnone. apply orb_false_iff in Hnone. destruct Hnone as [Hentry Hrest].
  unfold string_urls in *. cbn [omap list_omap].
  unfold url_is in Hentry.
  destruct (get_attr "url" entry) as [ [ | | | s | | | ] | ]; try now apply IH.
  intros [-> | Hin]; [ rewrite String.eqb_refl in Hentry; discriminate | now apply IH ].
Qed.

Lemma string_urls_app (l1 l2 : list (list (string * value))) :
  string_urls (l1 ++ l2) = string_urls l1 ++ string_urls l2.
Proof. unfold string_urls. apply omap_app. Qed.

Lemma merged_refl (protocol url : string) (known : list (list (string * value))) :
  merged protocol url known known.
Proof.
  exists []. rewrite app_nil_r. split; [ reflexivity | ]. split; [ intros ? [] | trivial ].
Qed.

Lemma merged_trans (protocol url : string) (k1 k2 k3 : list (list (string * value))) :
  merged protocol url k1 k2 -> merged protocol url k2 k3 -> merged protocol url k1 k3.
Proof.
  intros (a1 & -> & Hall1 & Hnd1) (a2 & -> & Hall2 & Hnd2).
  exists (a1 ++ a2). rewrite app_assoc. split; [ reflexivity | ]. split.
  - intros node Hin. apply in_app_or in Hin. destruct Hin as [Hin | Hin]; [ now apply Hall1 | ].
    destruct (Hall2 node Hin) as (u & Hu & Hown & Hprefix & Hnew).
    exists u. repeat split; try assumption.
    intros Hk. apply Hnew. rewrite string_urls_app. apply in_or_app. now left.
  - intros Hnd. apply Hnd2, Hnd1, Hnd.
Qed.

Lemma merge_node_merged (protocol url : string) (known known' : list (list (string * value)))
    (node : value) :
  merge_node loose_eq protocol url (Some known) node = Returned (Some known') ->
  merged protocol url known known'.
Proof.
  unfold merge_node.
  destruct node as [ | | | | | | fields ]; try (intros [= <-]; apply merged_refl).
  destruct (get_attr "url" fields) as [ [ | | | u | | | ] | ] eqn:Hurl;
    try (intros [= <-]; apply merged_refl).
  destruct (String.eqb_spec u url) as [-> | Hown]; [ intros [= <-]; apply merged_refl | ].
  destruct (is_prefix (protocol +:+ "://") u) eqn:Hprefix; cbn [negb];
    [ | intros [= <-]; apply merged_refl ].
  destruct (existsb (url_is loose_eq u) known) eqn:Hknown; intros [= <-]; [ apply merged_refl | ].
  apply url_is_known in Hknown.
  exists [fields]. split; [ reflexivity | ]. split.
  - intros node [<- | []]. exists u. repeat split; assumption.
  - intros Hnd. rewrite string_urls_app. unfold string_urls at 2. cbn [omap list_omap].
    rewrite Hurl. cbn. apply List.NoDup_app; [ exact Hnd | repeat constructor; intros [] | ].
    intros x Hx [<- | []]. contradiction.
Qed.

Lemma merge_node_some (protocol url : string) (known : list (list (string * value)))
    (node : value) (r : option (list (list (string * value)))) :
  merge_node loose_eq protocol url (Some known) node = Returned r -> is_Some r.
Proof.
  unfold merge_node. destruct node as [ | | | | | | fields ]; try (intros [= <-]; eexists; reflexivity).
  destruct (get_attr "url" fields) as [ [ | | | u | | | ] | ];
    try (intros [= <-]; eexists; reflexivity).
  destruct (String.eqb u url); [ intros [= <-]; eexists; reflexivity | ].
  destruct (negb _); [ intros [= <-]; eexists; reflexivity | ].
  destruct (existsb _ _); intros [= <-]; eexists; reflexivity.
Qed.

Lemma merge_nodes_merged (protocol url : string) (received : list value) :
  forall known r,
  for_each (merge_node loose_eq protocol url) received (Some known) = Returned r ->
  exists known', r = Some known' /\ merged protocol url known known'.
Proof.
  induction received as [ | node rest IH ]; intros known r Hrun; cbn [for_each] in Hrun.
  - injection Hrun as <-. exists known. split; [ reflexivity | apply merged_refl ].
  - destruct (merge_node loose_eq protocol url (Some known) node) as [ r1 | e ] eqn:Hnode;
      [ | discriminate ].
    destruct (merge_node_some _ _ _ _ _ Hnode) as [known1 ->].
    apply merge_node_merged in Hnode.
    destruct (IH _ _ Hrun) as (known' & -> & Hrest).
    exists known'. split; [ reflexivity | ]. eapply merged_trans; eassumption.
Qed.

(** X16: the nodes a peer reports are merged into the known nodes. When
    the handler returns, the nodes known before are still there, in
    order, followed by the nodes it added; each added node has a [url]
    that is a string, is not the url of the node itself, starts with the
    protocol of the node, and was not the url of a node known before;
    and when the urls of the known nodes were distinct, they still are. *)
Theorem handle_nodes_merges (received : list value) (settings settings' : Setting)
    (p h : string) (n : Z) (known : list (list (string * value))) :
  protocol settings = Some p -> host settings = Some h -> port settings = Some n ->
  nodes settings = Some known ->
  handle_nodes loose_eq (VArr received) settings = Returned settings' ->
  let url := p +:+ "://" +:+ h +:+ ":" +:+ dec n in
  protocol settings' = Some p /\ host settings' = Some h /\ port settings' = Some n
  /\ exists added,
       nodes settings' = Some (known ++ added)
       /\ (forall node, In node added ->
             exists u, get_attr "url" node = Some (VStr u) /\ u <> url
                       /\ is_prefix (p +:+ "://") u = true
                       /\ ~ In u (string_urls known))
       /\ (List.NoDup (string_urls known) -> List.NoDup (string_urls (known ++ added))).
Proof.
  intros Hp Hh Hn Hknown. unfold handle_nodes. rewrite Hp, Hh, Hn, Hknown.
  destruct (for_each _ received (Some known)) as [ r | e ] eqn:Hrun; cbn; [ | discriminate ].
  destruct (merge_nodes_merged _ _ _ _ _ Hrun) as (known' & -> & added & -> & Hall & Hnd).
  intros [= <-]. cbn. repeat split; try assumption.
  exists added. repeat split; assumption.
Qed.

End Nodes.

Lemma commitTransaction_finalizes_witness :
  transactionBacklog (commitTransaction [VStr "t1"] busy_server)
  = [finalized tx_temp1; tx_waiting; tx_temp3]
  /\ transactionBacklog
       (commitTransaction [VStr "t1"]
          (set_processingConsensus (VBool false) busy_server))
     = [tx_waiting; tx_temp3].
Proof.
  split.
  - apply (commitTransaction_finalizes [VStr "t1"] busy_server). reflexivity.
  - apply (commitTransaction_finalizes [VStr "t1"]
             (set_processingConsensus (VBool false) busy_server)). reflexivity.
Defined.

Lemma finalized_during_consensus_witness :
  let server' :=
    retrieveTransactionFromBacklog
      (set_processingConsensus (VBool false) (commitTransaction [VStr "t1"] busy_server)) in
  transactionBacklog server' = [tx_temp3]
  /\ In 1%nat (map fst (bc_transactions (blockchain server'))).
Proof.
  destruct (finalized_during_consensus [VStr "t1"] busy_server eq_refl) as [Hbacklog Hpool].
  split; [ exact Hbacklog | ]. apply (Hpool tx_temp1); [ now left | reflexivity ].
Defined.

Lemma temporary_then_committed_witness :
  commitTransaction [VStr "t1"] (snd (addTransaction (One tx1) (Some true) 100 idle_server))
  = snd (addTransaction (One tx1) None 100 idle_server)
  /\ bc_transactions (blockchain (snd (addTransaction (One tx1) None 100 idle_server))) = [tx1].
Proof.
  split; [ | reflexivity ].
  apply (temporary_then_committed tx1 "t1" 100 idle_server); reflexivity.
Defined.

Lemma handle_nodes_merges_witness :
  exists added,
    nodes (mkSetting (Some "tcp") (Some "localhost") (Some 15001)
             (Some [[("id", VStr "S2"); ("url", VStr "tcp://localhost:15002")];
                    [("id", VStr "S3"); ("url", VStr "tcp://localhost:15003")]]))
    = Some ([[("id", VStr "S2"); ("url", VStr "tcp://localhost:15002")]] ++ added)
    /\ List.NoDup
         (string_urls ([[("id", VStr "S2"); ("url", VStr "tcp://localhost:15002")]] ++ added)).
Proof.
  destruct (handle_nodes_merges (fun _ _ => false)
              [ VObj [("id", VStr "S1"); ("url", VStr "tcp://localhost:15001")];
                VObj [("id", VStr "S2"); ("url", VStr "tcp://localhost:15002")];
                VObj [("id", VStr "S3"); ("url", VStr "tcp://localhost:15003")];
                VObj [("id", VStr "S3"); ("url", VStr "tcp://localhost:15003")];
                VObj [("id", VStr "S4"); ("url", VStr "ws://localhost:15004")] ]
              settings_S1
              (mkSetting (Some "tcp") (Some "localhost") (Some 15001)
                 (Some [[("id", VStr "S2"); ("url", VStr "tcp://localhost:15002")];
                        [("id", VStr "S3"); ("url", VStr "tcp://localhost:15003")]]))
              "tcp" "localhost" 15001
              [[("id", VStr "S2"); ("url", VStr "tcp://localhost:15002")]]
              eq_refl eq_refl eq_refl eq_refl eq_refl)
    as (_ & _ & _ & added & Hnodes & _ & Hnd).
  exists added. split; [ exact Hnodes | ]. apply Hnd.
  repeat constructor. intros [].
Defined.

End IntakeProps.
(* ===================================================================== *)
(** * The timer of the proof-of-work consensus *)
(* ===================================================================== *)

Module PowProps.
Import Json LevelDB Blockchain Server Pow IntakeProps.

Section Timer.

Variable recent : Z -> value -> result bool.

(** X17: the sweep of the backlog at a tick of the timer. On a server
    that is open and not in a consensus round, whose backlog holds only
    transactions without ["@temp"] or with a number as ["@temp"], the
    tick keeps, in order, the transactions without ["@temp"] and those
    whose ["@temp"] is less than 30 minutes before the time of the tick;
    the older temporary transactions are dropped, and the pool is as it
    was. *)
Theorem tick_drops_old_temporaries (current clock : Z) (server : BlockchainServer) :
  processingConsensus server = false ->
  Forall (fun t => match get_attr "@temp" (snd t) with
                   | None | Some VNull | Some (VNum _) => True
                   | Some _ => False
                   end) (transactionBacklog server) ->
  let server' := fst (tick recent false current clock server) in
  transactionBacklog server'
  = List.filter (fun t => match get_attr "@temp" (snd t) with
                          | Some (VNum stamp) => current - stamp <? 1800000
                          | _ => true
                          end) (transactionBacklog server)
  /\ blockchain server' = blockchain server.
Proof.
  intros Hidle Hnumbers. cbv zeta. unfold tick. rewrite Hidle.
  cbn [transactionBacklog blockchain].
  set (keep := fun t : object => match get_attr "@temp" (snd t) with
                                 | Some (VNum stamp) => current - stamp <? 1800000
                                 | _ => true
                                 end).
  assert (Hsweep : filter_with (kept recent current) (transactionBacklog server)
                   = Returned (List.filter keep (transactionBacklog server))).
  { induction Hnumbers as [ | t rest Ht _ IH ]; [ reflexivity | ]. cbn [filter_with List.filter].
    rewrite IH. unfold kept, keep. unfold transaction in *.
    destruct (get_attr "@temp" (snd t)) as [ [ | | stamp | | | | ] | ]; try contradiction;
      reflexivity. }
  destruct (transactionBacklog server) as [ | t rest ] eqn:Hbacklog.
  - destruct (bc_transactions (blockchain server)); split; reflexivity.
  - rewrite Hsweep. destruct (bc_transactions (blockchain server)); split; reflexivity.
Qed.

Lemma accept_busy (server : BlockchainServer) (transaction : object) :
  processingConsensus server = true ->
  processingConsensus (accept server transaction) = true
  /\ blockchain (accept server transaction) = blockchain server.
Proof. intros Hbusy. unfold accept. rewrite Hbusy. split; reflexivity. Qed.

Lemma addTransaction_busy (transaction : request) (temporary : option bool) (now : Z)
    (server : BlockchainServer) :
  processingConsensus server = true ->
  processingConsensus (snd (Server.addTransaction transaction temporary now server)) = true
  /\ blockchain (snd (Server.addTransaction transaction temporary now server))
     = blockchain server.
Proof.
  intros Hbusy. unfold Server.addTransaction. destruct transaction as [ t | properties entries ];
    cbn [snd].
  - now apply accept_busy.
  - revert server Hbusy. induction entries as [ | t rest IH ]; intros server Hbusy; cbn.
    + now split.
    + destruct (accept_busy server t Hbusy) as [Hb Hbc].
      destruct (IH _ Hb) as [Hb' Hbc']. split; [ exact Hb' | congruence ].
Qed.

Lemma blocked_stays (s s' : BlockchainServer) :
  rtc (local_step recent) s s' ->
  processingConsensus s = true -> bc_transactions (blockchain s) = [] ->
  processingConsensus s' = true /\ bc_transactions (blockchain s') = [].
Proof.
  induction 1 as [ | s1 s2 s3 Hstep _ IH ]; intros Hbusy Hempty; [ now split | ].
  destruct Hstep as [ c k s | t temp now s | ids s ].
  - apply IH; unfold tick; now rewrite Hbusy.
  - destruct (addTransaction_busy t temp now s Hbusy) as [Hb Hbc].
    apply IH; [ exact Hb | now rewrite Hbc ].
  - destruct (commitTransaction_busy ids s Hbusy) as [Hb Hbc].
    apply IH; [ exact Hb | now rewrite Hbc ].
Qed.

(** X18: a tick on a node that is not in a consensus round and whose
    pool is empty leaves the node in a round that nobody runs:
    [processingConsensus] is set and nothing is sent (the tick returns,
    or the sweep of the backlog throws). From then on, whatever the node does by itself and
    for its clients (its timer fires, transactions are added or
    finalized), it stays in the round and its pool stays empty: every
    tick only logs "Already in process.", every transaction goes to the
    backlog. *)
Theorem tick_on_empty_pool_blocks (current clock : Z) (server : BlockchainServer) :
  processingConsensus server = false ->
  bc_transactions (blockchain server) = [] ->
  let blocked := fst (tick recent false current clock server) in
  (snd (tick recent false current clock server) = Returned []
   \/ exists e, snd (tick recent false current clock server) = Thrown e)
  /\ forall server', rtc (local_step recent) blocked server' ->
       processingConsensus server' = true
       /\ bc_transactions (blockchain server') = []
       /\ forall current' clock',
            tick recent false current' clock' server'
            = (server', Returned [Log "Already in process."]).
Proof.
  intros Hidle Hpool. cbv zeta.
  assert (Hblocked : processingConsensus (fst (tick recent false current clock server)) = true
                     /\ bc_transactions (blockchain (fst (tick recent false current clock server)))
                        = []
                     /\ (snd (tick recent false current clock server) = Returned []
                         \/ exists e, snd (tick recent false current clock server) = Thrown e)).
  { unfold tick. rewrite Hidle. cbn [transactionBacklog blockchain].
    set (swept := match transactionBacklog server with
                  | [] => Returned []
                  | t :: rest => filter_with (kept recent current) (t :: rest)
                  end).
    destruct swept as [ backlog | e ]; cbn [transactionBacklog blockchain].
    - rewrite Hpool. cbn [fst snd processingConsensus blockchain].
      split; [ reflexivity | ]. split; [ exact Hpool | now left ].
    - cbn [fst snd processingConsensus blockchain].
      split; [ reflexivity | ]. split; [ exact Hpool | right; now exists e ]. }
  destruct Hblocked as (Hbusy0 & Hempty0 & Hsent).
  split; [ exact Hsent | ].
  intros server' Hsteps.
  destruct (blocked_stays _ _ Hsteps Hbusy0 Hempty0) as [Hbusy Hempty].
  split; [ exact Hbusy | ]. split; [ exact Hempty | ].
  intros current' clock'. unfold tick. now rewrite Hbusy.
Qed.

End Timer.

Lemma tick_drops_old_temporaries_witness :
  transactionBacklog (fst (tick (fun _ _ => Returned true) false 3000000 3000000 aging_server))
  = [ (1%nat, [("transactionId", VStr "t1")]);
      (2%nat, [("transactionId", VStr "t2"); ("@temp", VNum 2400000)]) ].
Proof.
  apply (tick_drops_old_temporaries (fun _ _ => Returned true) 3000000 3000000 aging_server).
  - reflexivity.
  - repeat constructor.
Defined.

Lemma tick_on_empty_pool_blocks_witness :
  let blocked := fst (tick (fun _ _ => Returned true) false 1000 1000 idle_server) in
  let later := snd (Server.addTransaction (One tx1) None 2000 blocked) in
  processingConsensus later = true
  /\ bc_transactions (blockchain later) = []
  /\ tick (fun _ _ => Returned true) false 60000 60000 later
     = (later, Returned [Log "Already in process."]).
Proof.
  cbv zeta.
  destruct (tick_on_empty_pool_blocks (fun _ _ => Returned true) 1000 1000 idle_server
              eq_refl eq_refl) as [_ Hblocked].
  destruct (Hblocked (snd (Server.addTransaction (One tx1) None 2000
                             (fst (tick (fun _ _ => Returned true) false 1000 1000 idle_server)))))
    as (Hbusy & Hempty & Hticks).
  - eapply rtc_l; [ apply local_addTransaction | apply rtc_refl ].
  - split; [ exact Hbusy | ]. split; [ exact Hempty | apply Hticks ].
Defined.

End PowProps.
(* ===================================================================== *)
(** * More on the Raft engine: terms, votes, forwarding, replication *)
(* ===================================================================== *)

Module ConsensusProps.
Import Json Raft RaftProps.

(** ** Terms and states *)

Lemma moves_quiet (r r' : Raft) : quiet r r' -> moves r r'.
Proof.
  intros (_ & _ & _ & _ & [[Hstate Hterm] | [Hstate Hterm]]); unfold moves.
  - split; [ lia | ]. split; [ lia | ]. intros Hl Hnot. congruence.
  - split; [ lia | ]. split; [ congruence | ]. congruence.
Qed.

Lemma moves_grants (r r' : Raft) (effects : list effect) (candidate : node_id) (t : Z) :
  grants r r' effects candidate t -> moves r r'.
Proof.
  intros (Hle & _ & _ & _ & Hstate & _ & _ & Hterm & _). unfold moves.
  split; [ lia | ]. split; congruence.
Qed.

Lemma moves_runs (r r' : Raft) (effects : list effect) : runs r r' effects -> moves r r'.
Proof.
  intros (_ & _ & _ & Hstate & _ & _ & Hterm & _). unfold moves.
  split; [ lia | ]. split; congruence.
Qed.

Lemma moves_counts (r r' : Raft) (from : node_id) (t : Z) : counts r r' from t -> moves r r'.
Proof.
  intros (_ & Hcand & _ & Hnodes & _ & Hterm & _ & Hstate). unfold moves.
  split; [ lia | ]. split; [ lia | ]. intros Hl _.
  destruct Hstate as [Hs | [_ Hq]]; [ congruence | ].
  split; [ exact Hcand | ]. split; [ exact Hterm | ]. unfold quorum in *. now rewrite Hnodes.
Qed.

Lemma moves_step (members : list node_id) (c c' : cluster) (n : node_id) :
  step members c c' -> moves (node c n) (node c' n).
Proof.
  assert (Hsame : forall r, moves r r) by (intros r; apply moves_quiet, quiet_refl).
  intros Hstep.
  destruct Hstep as [ m c Hm | p cmd c Hp Hm Hbody | p d c Hp Hm Hbody | m cmd c Hm Hclient
                    | m transactions temporary c Hm | m committing c Hm ];
    rewrite node_run;
    (match goal with |- context [ String.eqb n ?x ] =>
       destruct (String.eqb_spec n x) as [-> | Hother]
     end; [ | apply Hsame ]).
  - destruct (timeout_moves (node c m)) as [[Hq _] | Hruns];
      [ now apply moves_quiet | eapply moves_runs; eassumption ].
  - destruct (handleCommand_moves cmd (node c (dst p))) as [[Hq _] | (cand & t & _ & Hg)];
      [ now apply moves_quiet | eapply moves_grants; eassumption ].
  - destruct (handleData_moves d (node c (dst p))) as [_ [Hq | (from & t & _ & Hcounts)]];
      [ now apply moves_quiet | eapply moves_counts; eassumption ].
  - destruct (handleCommand_moves cmd (node c m)) as [[Hq _] | (cand & t & _ & Hg)];
      [ now apply moves_quiet | eapply moves_grants; eassumption ].
  - apply moves_quiet. destruct temporary; unfold quiet; cbn; tauto.
  - destruct committing; cbn [fst]; apply moves_quiet.
    + apply forwardCommittingTransaction_quiet.
    + apply forwardTransaction_quiet.
Qed.

(** X19: the term of a node never decreases: not in a step of the
    cluster, whoever takes it, and so not in a run; and a node whose term
    has grown in a step is not the leader after the step. *)
Theorem term_never_decreases (members : list node_id) (c c' : cluster) (n : node_id) :
  step members c c' ->
  term (node c n) <= term (node c' n)
  /\ (term (node c n) < term (node c' n) -> state (node c' n) <> Leader).
Proof.
  intros Hstep. destruct (moves_step members c c' n Hstep) as (Hle & Hgrown & _).
  split; assumption.
Qed.

(** X20: a node becomes the leader only as a candidate, in the term of
    its candidacy, and with the votes of a quorum: when a node is the
    leader after a step and was not before, it was a candidate, its term
    is the same, and it holds [floor((peers + 1) / 2) + 1] votes or
    more. *)
Theorem leader_only_from_candidate (members : list node_id) (c c' : cluster) (n : node_id) :
  step members c c' ->
  state (node c' n) = Leader -> state (node c n) <> Leader ->
  state (node c n) = Candidate
  /\ term (node c' n) = term (node c n)
  /\ (Z.of_nat (length (nodes (node c' n))) + 1) / 2 + 1
     <= Z.of_nat (length (votes (node c' n))).
Proof.
  intros Hstep Hl Hnot. destruct (moves_step members c c' n Hstep) as (_ & _ & Hbecomes).
  apply (Hbecomes Hl Hnot).
Qed.

(** ** Votes *)

(** X21: a node grants one vote per term: in every state a cluster
    reaches, when a node has granted its vote of a term to two
    candidates (the two replies are in the network), the two are the same
    node. *)
Theorem one_vote_per_term (members : list node_id) (c : cluster)
    (voter candidate1 candidate2 : node_id) (t : Z) :
  reachable members c ->
  granted c voter candidate1 t -> granted c voter candidate2 t ->
  candidate1 = candidate2.
Proof.
  intros Hreach H1 H2.
  assert (Hinv : invariant members c)
    by (eapply cluster_invariant_reachable; eassumption).
  exact (votes_once members c Hinv _ _ _ _ _ H1 H2 eq_refl eq_refl eq_refl).
Qed.

(** ** Lost sequences *)

(** X22: in every state a cluster reaches, the lost sequences of a node
    (the sequences it has skipped and waits for) are distinct and below
    its current sequence. *)
Theorem lost_sequences_below_current (members : list node_id) (c : cluster) (n : node_id) :
  reachable members c ->
  List.NoDup (lostProvisionalBlocksequences (node c n))
  /\ forall k, In k (lostProvisionalBlocksequences (node c n)) ->
       k < provisionalBlocksequence (node c n).
Proof. intros Hreach. apply (lost_bounded_reachable members c Hreach n). Qed.

(** ** Forwarding to the leader *)

(** X23: a node that is not the leader forwards its backlog of
    transactions to the leader in one message and empties the backlog.
    When the send fails, the error callback puts the transactions back at
    the head of the backlog, but for the first one: it is in no message
    that arrived and in no backlog. *)
Theorem failed_forward_loses_first (r : Raft) (leader : node_id) (first : value)
    (others : list value) :
  leaderId r = Some leader -> leader <> id r ->
  transactionBacklog r = first :: others ->
  let '(r', effects, forwarded) := forwardTransaction r in
  forwarded = true
  /\ In (SendToNode (Command (addTransaction (Some (VArr (first :: others))))) leader) effects
  /\ transactionBacklog r' = []
  /\ transactionBacklog (forward_failed (first :: others) r') = others.
Proof.
  intros Hleader Hother Hbacklog. unfold forwardTransaction. rewrite Hleader.
  rewrite (proj2 (String.eqb_neq leader (id r)) Hother), Hbacklog.
  split; [ reflexivity | ]. split; [ now left | ]. split; [ reflexivity | ].
  cbn. apply app_nil_r.
Qed.

(** ** Replication of a provisional block *)

(** X24: one round of replication. The leader turns a transaction it
    receives into a provisional block under the next sequence, with no
    acknowledgement yet, and broadcasts it; a follower that is not ahead
    of the leader, neither in term nor in sequence, and handles the
    broadcast takes the leader as its leader, moves to the sequence,
    records the block with the same transaction and type, and
    acknowledges the sequence. *)
Theorem replication_round (leader follower : Raft) (request : value) :
  state leader = Leader ->
  is_object request = true ->
  term follower <= term leader ->
  provisionalBlocksequence follower <= provisionalBlocksequence leader ->
  let sequence := provisionalBlocksequence leader + 1 in
  let sent :=
    append (Some (id leader)) (Some (term leader)) None
      (Some (mkEntry (Some "normal") (Some sequence) (Some request) None)) in
  let (leader', effects) := handleCommand (addTransaction (Some request)) leader in
  let (follower', reply) := handleCommand sent follower in
  effects = [Broadcast (Command sent); Heartbeat]
  /\ provisionalBlocksequence leader' = sequence
  /\ map_get sequence (provisionalBlocks leader')
     = Some (mkProvisional request "normal" 0 (id leader))
  /\ leaderId follower' = Some (id leader)
  /\ term follower' = term leader
  /\ provisionalBlocksequence follower' = sequence
  /\ map_get sequence (provisionalBlocks follower')
     = Some (mkProvisional request "normal" 1 (id leader))
  /\ reply = [Reply (Data (appended (Some (id follower)) (Some (term leader)) (Some sequence)));
              Heartbeat].
Proof.
  intros Hleader Hobject Hterm Hsequence. cbv zeta.
  cbn [handleCommand]. rewrite Hobject. unfold addTransaction_. rewrite Hleader.
  cbn [handleCommand entry_type entry_sequence entry_transaction].
  set (f1 := if term follower <? term leader
             then with_election Follower (votedId follower) (votes follower) (term leader) follower
             else follower).
  set (f2 := if term f1 <=? term leader then with_leaderId (Some (id leader)) f1 else f1).
  assert (Hf2 : id f2 = id follower /\ term f2 = term leader
                /\ leaderId f2 = Some (id leader)
                /\ provisionalBlocksequence f2 = provisionalBlocksequence follower
                /\ lostProvisionalBlocksequences f2 = lostProvisionalBlocksequences follower
                /\ provisionalBlocks f2 = provisionalBlocks follower).
  { subst f2 f1. destruct (term follower <? term leader) eqn:Hlt; cbn [term with_election].
    - rewrite Z.leb_refl. cbn. repeat split.
    - apply Z.ltb_ge in Hlt. replace (term follower <=? term leader) with true
        by (symmetry; apply Z.leb_le; lia).
      cbn. repeat split. lia. }
  destruct Hf2 as (Hid & Hterm2 & Hlead & Hseq & Hlost & Hblocks).
  unfold append_provisional. rewrite Hseq, Hid, Hterm2.
  replace (provisionalBlocksequence leader + 1 <=? provisionalBlocksequence follower) with false
    by (symmetry; apply Z.leb_gt; lia).
  replace (provisionalBlocksequence follower <? provisionalBlocksequence leader + 1) with true
    by (symmetry; apply Z.ltb_lt; lia).
  cbn [andb fst snd provisionalBlocksequence provisionalBlocks with_provisional leaderId term].
  rewrite !map_get_set_eq.
  repeat split; try reflexivity; assumption.
Qed.

(** ** Acknowledgements *)

Lemma map_get_set {V : Type} (k k' : Z) (v : V) (m : list (Z * V)) :
  map_get k (map_set k' v m) = if k =? k' then Some v else map_get k m.
Proof.
  induction m as [ | [k0 v0] rest IH ]; cbn.
  - destruct (k =? k'); reflexivity.
  - destruct (k' =? k0) eqn:H0; cbn.
    + apply Z.eqb_eq in H0. subst k0. destruct (k =? k'); reflexivity.
    + destruct (k =? k0) eqn:H1.
      * apply Z.eqb_eq in H1. subst k0.
        replace (k =? k') with false by (symmetry; rewrite Z.eqb_sym; exact H0). reflexivity.
      * exact IH.
Qed.

Lemma map_get_delete {V : Type} (k k' : Z) (m : list (Z * V)) :
  map_get k (map_delete k' m) = if k =? k' then None else map_get k m.
Proof.
  unfold map_delete. induction m as [ | [k0 v0] rest IH ]; cbn.
  - destruct (k =? k'); reflexivity.
  - destruct (k' =? k0) eqn:H0; cbn.
    + apply Z.eqb_eq in H0. subst k0. rewrite IH. destruct (k =? k'); reflexivity.
    + destruct (k =? k0) eqn:H1; [ | exact IH ].
      apply Z.eqb_eq in H1. subst k0.
      replace (k =? k') with false by (symmetry; rewrite Z.eqb_sym; exact H0). reflexivity.
Qed.

Lemma map_get_delete_all {V : Type} (k : Z) (keys : list Z) : forall (m : list (Z * V)),
  map_get k (fold_left (fun blocks sequence => map_delete sequence blocks) keys m)
  = if includes k keys then None else map_get k m.
Proof.
  induction keys as [ | k' rest IH ]; intros m; cbn; [ reflexivity | ].
  rewrite IH, map_get_delete. unfold includes. destruct (k =? k'); cbn; [ | reflexivity ].
  now destruct (existsb _ rest).
Qed.

Lemma map_get_In {V : Type} (k : Z) (v : V) (m : list (Z * V)) :
  map_get k m = Some v -> In (k, v) m.
Proof.
  induction m as [ | [k0 v0] rest IH ]; cbn; [ discriminate | ].
  destruct (k =? k0) eqn:H0.
  - apply Z.eqb_eq in H0. subst k0. intros [= ->]. now left.
  - intros H. right. now apply IH.
Qed.

Lemma In_map_get {V : Type} (k : Z) (v : V) (m : list (Z * V)) :
  List.NoDup (map fst m) -> In (k, v) m -> map_get k m = Some v.
Proof.
  induction m as [ | [k0 v0] rest IH ]; cbn; [ intros _ [] | ].
  intros Hnd Hin. apply List.NoDup_cons_iff in Hnd. destruct Hnd as [Hfresh Hnd].
  destruct Hin as [[= -> ->] | Hin].
  - now rewrite Z.eqb_refl.
  - destruct (k =? k0) eqn:H0; [ | now apply IH ].
    apply Z.eqb_eq in H0. subst k0. exfalso. apply Hfresh.
    apply in_map_iff. exists (k, v). split; [ reflexivity | exact Hin ].
Qed.

Lemma map_set_keys {V : Type} (k : Z) (v v' : V) (m : list (Z * V)) :
  map_get k m = Some v' -> map fst (map_set k v m) = map fst m.
Proof.
  induction m as [ | [k0 v0] rest IH ]; cbn; [ discriminate | ].
  destruct (k =? k0) eqn:H0; cbn; [ reflexivity | ].
  intros H. f_equal. now apply IH.
Qed.

(** The first loop of the sweep: what it drains, what it completes,
    what it leaves to be sent again. *)
Lemma sweep_loop (r : Raft) (blocks : list (Z * provisional)) :
  forall (effects : list effect) (completed unprocessed : list Z),
  fold_left (fun acc kv =>
    let '(effects, completed, unprocessed) := acc in
    let (sequence, entry) := (kv : Z * provisional) in
    if quorum r <=? consensus entry
    then (effects ++ drain_effects entry, completed ++ [sequence], unprocessed)
    else if negb (String.eqb (owner entry) (id r))
    then (effects, completed, unprocessed ++ [sequence])
    else (effects, completed, unprocessed))
    blocks (effects, completed, unprocessed)
  = (effects
     ++ flat_map (fun kv => if quorum r <=? consensus (snd kv) then drain_effects (snd kv) else [])
          blocks,
     completed ++ map fst (List.filter (fun kv => quorum r <=? consensus (snd kv)) blocks),
     unprocessed
     ++ map fst (List.filter (fun kv => negb (quorum r <=? consensus (snd kv))
                                        && negb (String.eqb (owner (snd kv)) (id r))) blocks)).
Proof.
  induction blocks as [ | [sequence entry] rest IH ]; intros effects completed unprocessed.
  - cbn. now rewrite !app_nil_r.
  - cbn [fold_left flat_map List.filter map fst snd].
    destruct (quorum r <=? consensus entry) eqn:Hq; cbn [negb andb].
    + rewrite IH. cbn [map fst]. now rewrite <- !app_assoc.
    + destruct (negb (String.eqb (owner entry) (id r))) eqn:Ho; rewrite IH; cbn [map fst app];
        now rewrite <- ?app_assoc.
Qed.

(** The second loop of the sweep leaves the entries it does not send
    again as they are. *)
Lemma resend_loop (r : Raft) (k : Z) (unprocessed : list Z) :
  forall (blocks : list (Z * provisional)) (resent : list effect),
  ~ In k unprocessed \/ map_get k blocks = None ->
  map_get k
    (fst (fold_left (fun acc sequence =>
            let '(blocks, resent) := acc in
            match map_get sequence blocks with
            | None => (blocks, resent)
            | Some entry =>
                let entry := mkProvisional (transaction entry) (type entry) 0 (id r) in
                (map_set sequence entry blocks, resent ++ [Broadcast (append_of r sequence entry)])
            end) unprocessed (blocks, resent)))
  = map_get k blocks.
Proof.
  induction unprocessed as [ | sequence rest IH ]; intros blocks resent Hk; [ reflexivity | ].
  cbn [fold_left]. destruct (map_get sequence blocks) as [ entry | ] eqn:Hs.
  - destruct (Z.eq_dec k sequence) as [-> | Hne].
    + destruct Hk as [Hk | Hk]; [ exfalso; apply Hk; now left | congruence ].
    + rewrite IH.
      * rewrite map_get_set. now rewrite (proj2 (Z.eqb_neq _ _) Hne).
      * rewrite map_get_set, (proj2 (Z.eqb_neq _ _) Hne).
        destruct Hk as [Hk | Hk]; [ left; intros Hin; apply Hk; now right | now right ].
  - apply IH. destruct Hk as [Hk | Hk]; [ left; intros Hin; apply Hk; now right | now right ].
Qed.

(** X25: the leader counts acknowledgements, not followers. For a
    sequence it holds a provisional block of, each [appended] reply adds
    one to the count of the block, whoever sent it and whatever term it
    carries. When the count reaches the quorum the block is sealed: it
    leaves the provisional blocks, its transaction is handed to the
    engine and a block is created. Below the quorum a block of the
    leader's own stays with its new count. *)
Theorem acknowledgements_are_counted (r : Raft) (from : node_id) (t : option Z) (sequence : Z)
    (entry : provisional) :
  map_get sequence (provisionalBlocks r) = Some entry ->
  let counted :=
    mkProvisional (transaction entry) (type entry) (consensus entry + 1) (owner entry) in
  let r' := fst (handleData (appended (Some from) t (Some sequence)) r) in
  let effects := snd (handleData (appended (Some from) t (Some sequence)) r) in
  (quorum r <= consensus entry + 1 ->
     map_get sequence (provisionalBlocks r') = None
     /\ (forall e, In e (drain_effects entry) -> In e effects)
     /\ In CreateBlock effects)
  /\ (consensus entry + 1 < quorum r ->
      List.NoDup (map fst (provisionalBlocks r)) -> owner entry = id r ->
      map_get sequence (provisionalBlocks r') = Some counted).
Proof.
  intros Hentry counted. cbv zeta. cbn [handleData]. rewrite Hentry. fold counted.
  set (r1 := with_provisional _ _ _ r).
  assert (Hcounted : map_get sequence (provisionalBlocks r1) = Some counted)
    by (subst r1; cbn; apply map_get_set_eq).
  assert (Hq : quorum r1 = quorum r) by reflexivity.
  assert (Hid : id r1 = id r) by reflexivity.
  assert (Hkeys : map fst (provisionalBlocks r1) = map fst (provisionalBlocks r))
    by (subst r1; cbn; eapply map_set_keys; eassumption).
  clearbody r1. unfold watchProvisionalBlocks.
  destruct (provisionalBlocks r1) as [ | kv blocks ] eqn:Hblocks; [ discriminate | ].
  rewrite <- Hblocks in *. rewrite sweep_loop. cbn [app].
  set (drained := flat_map _ (provisionalBlocks r1)).
  set (completed :=
         map fst (List.filter (fun kv : Z * provisional => quorum r1 <=? consensus (snd kv))
                    (provisionalBlocks r1))).
  set (unprocessed := map fst (List.filter _ (provisionalBlocks r1))).
  set (blocks2 := fold_left (fun blocks sequence => map_delete sequence blocks) completed
                    (provisionalBlocks r1)).
  match goal with |- context [ fold_left ?f unprocessed (blocks2, []) ] =>
    pose proof (resend_loop r1 sequence unprocessed blocks2 []) as Hresend;
    destruct (fold_left f unprocessed (blocks2, [])) as [blocks3 resent] eqn:Hloop
  end.
  cbn [fst] in Hresend. cbn [fst snd provisionalBlocks with_provisional].
  assert (Hblocks2 : map_get sequence blocks2
                     = if includes sequence completed then None
                       else map_get sequence (provisionalBlocks r1))
    by (subst blocks2; apply map_get_delete_all).
  split.
  - intros Hreached.
    assert (Hin : In sequence completed).
    { subst completed. apply in_map_iff. exists (sequence, counted). split; [ reflexivity | ].
      apply filter_In. split; [ now apply map_get_In | ].
      cbn. rewrite Hq. apply Z.leb_le. exact Hreached. }
    assert (Hdeleted : map_get sequence blocks2 = None).
    { rewrite Hblocks2. now rewrite (proj2 (includes_In _ _) Hin). }
    split; [ rewrite Hresend; [ exact Hdeleted | now right ] | ].
    assert (Hcompleted : completed <> []) by (intros Hnil; rewrite Hnil in Hin; destruct Hin).
    split.
    + intros e He. apply in_or_app. left.
      destruct completed; [ congruence | ]. apply in_or_app. left.
      subst drained. apply in_flat_map. exists (sequence, counted).
      split; [ now apply map_get_In | ]. cbn. rewrite Hq.
      now rewrite (proj2 (Z.leb_le _ _) Hreached).
    + apply in_or_app. left. destruct completed; [ congruence | ].
      apply in_or_app. right. right. now left.
  - intros Hbelow Hnd Hown. rewrite <- Hkeys in Hnd.
    assert (Hnot_completed : ~ In sequence completed).
    { subst completed. intros Hin. apply in_map_iff in Hin.
      destruct Hin as ([k e] & Hk & Hin). cbn in Hk. subst k.
      apply filter_In in Hin. destruct Hin as [Hin Hreached]. cbn in Hreached.
      apply (In_map_get _ _ _ Hnd) in Hin. rewrite Hcounted in Hin. injection Hin as <-.
      cbn in Hreached. apply Z.leb_le in Hreached. lia. }
    assert (Hnot_unprocessed : ~ In sequence unprocessed).
    { subst unprocessed. intros Hin. apply in_map_iff in Hin.
      destruct Hin as ([k e] & Hk & Hin). cbn in Hk. subst k.
      apply filter_In in Hin. destruct Hin as [Hin Hother]. cbn in Hother.
      apply (In_map_get _ _ _ Hnd) in Hin. rewrite Hcounted in Hin. injection Hin as <-.
      cbn in Hother. rewrite Hown, Hid, String.eqb_refl, andb_false_r in Hother.
      discriminate. }
    rewrite Hresend by (now left). rewrite Hblocks2.
    destruct (includes sequence completed) eqn:Hinc;
      [ apply includes_In in Hinc; contradiction | exact Hcounted ].
Qed.

Lemma term_never_decreases_witness :
  term (node (start three) "S1")
  <= term (node (run "S1" None (timeout (node (start three) "S1")) (start three)) "S1")
  /\ state (node (run "S1" None (timeout (node (start three) "S1")) (start three)) "S1")
     <> Leader.
Proof.
  destruct (term_never_decreases three (start three)
              (run "S1" None (timeout (node (start three) "S1")) (start three)) "S1")
    as [Hle Hgrown].
  - apply (step_timeout three "S1"). find_in_list.
  - split; [ exact Hle | apply Hgrown; cbn; lia ].
Defined.

Lemma leader_only_from_candidate_witness :
  let c2 :=
    run "S2" (Some "S1")
      (handleCommand (vote (Some "S1") (Some 1))
         (node (run "S1" None (timeout (node (start three) "S1")) (start three)) "S2"))
      (run "S1" None (timeout (node (start three) "S1")) (start three)) in
  state (node c2 "S1") = Candidate
  /\ term (node elected_S1 "S1") = term (node c2 "S1")
  /\ (Z.of_nat (length (nodes (node elected_S1 "S1"))) + 1) / 2 + 1
     <= Z.of_nat (length (votes (node elected_S1 "S1"))).
Proof.
  intros c2.
  apply (leader_only_from_candidate three c2 elected_S1 "S1").
  - apply (step_data three voted_by_S2 (voted (Some true) (Some "S2") (Some 1))).
    + find_in_list.
    + find_in_list.
    + reflexivity.
  - reflexivity.
  - discriminate.
Defined.

Lemma one_vote_per_term_witness : "S1" = "S1" /\ granted elected_S1 "S2" "S1" 1.
Proof.
  assert (Hgranted : granted elected_S1 "S2" "S1" 1) by (unfold granted; find_in_list).
  split; [ | exact Hgranted ].
  apply (one_vote_per_term three elected_S1 "S2" "S1" "S1" 1);
    [ | exact Hgranted | exact Hgranted ].
  unfold elected_S1.
  eapply reachable_step; [ eapply reachable_step; [ eapply reachable_step | ] | ].
  - apply reachable_start.
  - apply (step_timeout three "S1"). find_in_list.
  - apply (step_command three vote_of_S1 (vote (Some "S1") (Some 1))).
    + find_in_list.
    + find_in_list.
    + reflexivity.
  - apply (step_data three voted_by_S2 (voted (Some true) (Some "S2") (Some 1))).
    + find_in_list.
    + find_in_list.
    + reflexivity.
Defined.

Lemma lost_sequences_below_current_witness :
  List.NoDup (lostProvisionalBlocksequences (node elected_S1 "S2"))
  /\ forall k, In k (lostProvisionalBlocksequences (node elected_S1 "S2")) ->
       k < provisionalBlocksequence (node elected_S1 "S2").
Proof.
  apply (lost_sequences_below_current three elected_S1 "S2").
  unfold elected_S1.
  eapply reachable_step; [ eapply reachable_step; [ eapply reachable_step | ] | ].
  - apply reachable_start.
  - apply (step_timeout three "S1"). find_in_list.
  - apply (step_command three vote_of_S1 (vote (Some "S1") (Some 1))).
    + find_in_list.
    + find_in_list.
    + reflexivity.
  - apply (step_data three voted_by_S2 (voted (Some true) (Some "S2") (Some 1))).
    + find_in_list.
    + find_in_list.
    + reflexivity.
Defined.

Lemma failed_forward_loses_first_witness :
  transactionBacklog
    (forward_failed
       [VObj [("transactionId", VStr "t1")]; VObj [("transactionId", VStr "t2")]]
       (fst (fst (forwardTransaction forwarding_sample))))
  = [VObj [("transactionId", VStr "t2")]].
Proof.
  pose proof (failed_forward_loses_first forwarding_sample "S1"
                (VObj [("transactionId", VStr "t1")]) [VObj [("transactionId", VStr "t2")]]
                eq_refl ltac:(discriminate) eq_refl) as H.
  destruct (forwardTransaction forwarding_sample) as [[r' effects] forwarded].
  destruct H as (_ & _ & _ & Hlost). exact Hlost.
Defined.

Lemma replication_round_witness :
  map_get 1
    (provisionalBlocks
       (fst (handleCommand
               (append (Some "S1") (Some 1) None
                  (Some (mkEntry (Some "normal") (Some 1)
                           (Some (VObj [("transactionId", VStr "t1")])) None)))
               fresh_follower)))
  = Some (mkProvisional (VObj [("transactionId", VStr "t1")]) "normal" 1 "S1").
Proof.
  pose proof (replication_round leader_sample fresh_follower
                (VObj [("transactionId", VStr "t1")]) eq_refl eq_refl
                ltac:(cbn; lia) ltac:(cbn; lia)) as H.
  cbv zeta in H.
  destruct (handleCommand (addTransaction (Some (VObj [("transactionId", VStr "t1")])))
              leader_sample) as [leader' effects].
  change (provisionalBlocksequence leader_sample + 1) with 1 in H.
  change (id leader_sample) with "S1" in H. change (term leader_sample) with 1 in H.
  destruct (handleCommand _ fresh_follower) as [follower' reply].
  destruct H as (_ & _ & _ & _ & _ & _ & Hrecorded & _). exact Hrecorded.
Defined.

Lemma acknowledgements_are_counted_witness :
  let once := fst (handleData (appended (Some "S2") (Some 1) (Some 1)) leader_with_block) in
  let twice := handleData (appended (Some "S2") (Some 1) (Some 1)) once in
  map_get 1 (provisionalBlocks once)
  = Some (mkProvisional (VObj [("transactionId", VStr "t1")]) "normal" 1 "S1")
  /\ map_get 1 (provisionalBlocks (fst twice)) = None
  /\ In CreateBlock (snd twice).
Proof.
  intros once twice.
  assert (Hone : map_get 1 (provisionalBlocks once)
                 = Some (mkProvisional (VObj [("transactionId", VStr "t1")]) "normal" 1 "S1")).
  { apply (acknowledgements_are_counted leader_with_block "S2" (Some 1) 1
             (mkProvisional (VObj [("transactionId", VStr "t1")]) "normal" 0 "S1") eq_refl);
      [ vm_compute; reflexivity | repeat constructor; intros [] | reflexivity ]. }
  split; [ exact Hone | ].
  destruct (acknowledgements_are_counted once "S2" (Some 1) 1 _ Hone) as [Hsealed _].
  destruct Hsealed as (Hgone & _ & Hcreated); [ vm_compute; discriminate | ].
  split; [ exact Hgone | exact Hcreated ].
Defined.

End ConsensusProps.
(* ===================================================================== *)
(** * The TCP client, the logger, the wire format *)
(* ===================================================================== *)

Module TransportProps.
Import Json Tcp Logger JsonProps.

Section Send.

Variable json_text : json -> string.

(** X26: [send] without a [retry] argument, as the server calls it. The
    message is handed to the socket once at most; when the socket reports
    an error, the one retry hands it [null] instead of the message (the
    text is not an object, so it is not encoded), and a retry of that
    retry returns at once on the missing message: the error handler is
    never called and "error" is never emitted. *)
Theorem send_never_reports (message : payload) (errorHandler : bool) (socket : list attempt) :
  let events := send json_text message errorHandler None socket in
  ~ In ErrorHandler events
  /\ ~ In EmitError events
  /\ forall first rest, events = first :: rest ->
       forall text, ~ In (SendAndWait (Some text)) rest.
Proof.
  cbv zeta.
  assert (Hmissing : forall retry later, send json_text Missing errorHandler retry later = [])
    by (intros retry [ | now later ]; reflexivity).
  assert (Hretry : forall text later,
            let events := send json_text (Text text) errorHandler (Some (3 - 1)) later in
            events = [] \/ events = [Throw "The socket is not open yet."]
            \/ events = [SendAndWait None]).
  { intros text [ | [c o f] later ]; cbn; [ now left | ].
    destruct c; cbn; [ | now left ]. destruct o; cbn; [ | right; now left ].
    destruct f; cbn; [ | right; now right ]. rewrite Hmissing. right; now right. }
  assert (Hquiet : forall events,
            events = [] \/ events = [Throw "The socket is not open yet."]
            \/ events = [SendAndWait None] ->
            ~ In ErrorHandler events /\ ~ In EmitError events
            /\ forall text, ~ In (SendAndWait (Some text)) events).
  { intros events [-> | [-> | ->]]; repeat split; intros; cbn; intuition discriminate. }
  assert (Hfirst : forall first rest,
            first <> ErrorHandler -> first <> EmitError ->
            (~ In ErrorHandler rest /\ ~ In EmitError rest
             /\ forall text, ~ In (SendAndWait (Some text)) rest) ->
            ~ In ErrorHandler (first :: rest) /\ ~ In EmitError (first :: rest)
            /\ forall first' rest', first :: rest = first' :: rest' ->
                 forall text, ~ In (SendAndWait (Some text)) rest').
  { intros first rest H1 H2 (Hh & He & Hs). split; [ | split ].
    - intros [Hin | Hin]; [ congruence | contradiction ].
    - intros [Hin | Hin]; [ congruence | contradiction ].
    - intros first' rest' [= <- <-]. exact Hs. }
  assert (Hnone : ~ In ErrorHandler [] /\ ~ In EmitError []
                  /\ forall first rest, [] = first :: rest ->
                       forall text, ~ In (SendAndWait (Some text)) rest).
  { split; [ intros [] | ]. split; [ intros [] | ]. intros first rest [=]. }
  destruct message as [ | v | text ].
  - rewrite Hmissing. exact Hnone.
  - destruct socket as [ | [c o f] later ]; [ exact Hnone | ]. cbn [send connected opened failed].
    destruct c; cbn [negb]; [ | exact Hnone ].
    destruct o; cbn [negb];
      [ | apply Hfirst; [ discriminate | discriminate | apply Hquiet; now left ] ].
    apply Hfirst; [ discriminate | discriminate | ].
    destruct f; [ | apply Hquiet; now left ].
    cbn [default]. change (0 <? 3) with true. cbv iota. apply Hquiet, Hretry.
  - destruct socket as [ | [c o f] later ]; [ exact Hnone | ]. cbn [send connected opened failed].
    destruct c; cbn [negb]; [ | exact Hnone ].
    destruct o; cbn [negb];
      [ | apply Hfirst; [ discriminate | discriminate | apply Hquiet; now left ] ].
    apply Hfirst; [ discriminate | discriminate | ].
    destruct f; [ | apply Hquiet; now left ].
    cbn [default]. change (0 <? 3) with true. cbv iota. rewrite Hmissing. apply Hquiet. now left.
Qed.

End Send.

(** ** The time stamp of a log line *)

Lemma length_append (a b : string) :
  String.length (a +:+ b) = (String.length a + String.length b)%nat.
Proof.
  induction a as [ | c a IH ]; [ reflexivity | ].
  change (String c a +:+ b) with (String c (a +:+ b)). cbn [String.length Nat.add].
  f_equal. exact IH.
Qed.

Lemma below_checked (P : Z -> bool) (bound : Z) :
  forallb (fun k => P (Z.of_nat k)) (seq 0 (Z.to_nat bound)) = true ->
  forall n, 0 <= n < bound -> P n = true.
Proof.
  intros Hall n Hn. rewrite forallb_forall in Hall.
  specialize (Hall (Z.to_nat n)). rewrite Z2Nat.id in Hall by lia.
  apply Hall, in_seq. lia.
Qed.

Lemma pad2_padded (n : Z) :
  0 <= n < 100 -> pad2 n = (if n <? 10 then "0" +:+ dec n else dec n)
                  /\ String.length (pad2 n) = 2%nat.
Proof.
  intros Hn.
  pose proof (below_checked
                (fun n => String.eqb (pad2 n) (if n <? 10 then "0" +:+ dec n else dec n)
                          && Nat.eqb (String.length (pad2 n)) 2)
                100 ltac:(vm_compute; reflexivity) n Hn) as H.
  apply andb_true_iff in H. destruct H as [H1 H2].
  split; [ now apply String.eqb_eq | now apply Nat.eqb_eq ].
Qed.

Lemma pad3_length (n : Z) : 0 <= n < 1000 -> String.length (pad3 n) = 3%nat.
Proof.
  intros Hn.
  apply Nat.eqb_eq.
  apply (below_checked (fun n => Nat.eqb (String.length (pad3 n)) 3) 1000
           ltac:(vm_compute; reflexivity) n Hn).
Qed.

Lemma year_length (n : Z) : 1000 <= n < 10000 -> String.length (dec n) = 4%nat.
Proof.
  intros Hn.
  pose proof (below_checked (fun n => (n <? 1000) || Nat.eqb (String.length (dec n)) 4) 10000
                ltac:(vm_compute; reflexivity) n ltac:(lia)) as H.
  apply orb_true_iff in H. destruct H as [H | H]; [ apply Z.ltb_lt in H; lia | ].
  now apply Nat.eqb_eq.
Qed.

(** X27: the time stamp [dateString] writes has a fixed shape. For a
    date of a year of four digits, it has 23 characters,
    [YYYY/MM/DD HH:MM:SS:mmm]: the month (counted from 1), the day, the
    hours, the minutes and the seconds are written with two digits, with
    a leading zero below ten, the milliseconds with three. *)
Theorem dateString_shape (year month date hours minutes seconds milliseconds : Z) :
  1000 <= year < 10000 -> 0 <= month < 12 -> 1 <= date <= 31 ->
  0 <= hours < 24 -> 0 <= minutes < 60 -> 0 <= seconds < 60 -> 0 <= milliseconds < 1000 ->
  String.length (dateString year month date hours minutes seconds milliseconds) = 23%nat
  /\ dateString year month date hours minutes seconds milliseconds
     = dec year +:+ "/"
       +:+ (if month + 1 <? 10 then "0" +:+ dec (month + 1) else dec (month + 1)) +:+ "/"
       +:+ (if date <? 10 then "0" +:+ dec date else dec date) +:+ " "
       +:+ (if hours <? 10 then "0" +:+ dec hours else dec hours) +:+ ":"
       +:+ (if minutes <? 10 then "0" +:+ dec minutes else dec minutes) +:+ ":"
       +:+ (if seconds <? 10 then "0" +:+ dec seconds else dec seconds) +:+ ":"
       +:+ pad3 milliseconds.
Proof.
  intros Hyear Hmonth Hdate Hhours Hminutes Hseconds Hms. unfold dateString.
  destruct (pad2_padded (month + 1)) as [Em Lm]; [ lia | ].
  destruct (pad2_padded date) as [Ed Ld]; [ lia | ].
  destruct (pad2_padded hours) as [Eh Lh]; [ lia | ].
  destruct (pad2_padded minutes) as [Ei Li]; [ lia | ].
  destruct (pad2_padded seconds) as [Es Ls]; [ lia | ].
  split.
  - rewrite !length_append, Lm, Ld, Lh, Li, Ls, (pad3_length _ Hms), (year_length _ Hyear).
    reflexivity.
  - now rewrite Em, Ed, Eh, Ei, Es.
Qed.

(** ** The wire format, once more *)

(** X28: the round trip through the wire format settles after one
    pass: what [deserialize] gives for a serialized value is given back
    unchanged by a second round trip, whatever the value was. *)
Theorem roundtrip_settles (x : value) :
  deserialize (serialize (deserialize (serialize x))) = deserialize (serialize x).
Proof. apply wire_roundtrip. Qed.

(** X29: a BigInt crosses the wire as its decimal string, and is a
    BigInt again only under the key [index]: a non-negative BigInt that
    is the attribute [key] of an object comes back as a BigInt when
    [key] is "index", and as a string of digits under any other key. *)
Theorem bigint_only_under_index (key : string) (n : Z) :
  0 <= n ->
  deserialize (serialize (VObj [(key, VBig n)]))
  = VObj [(key, if String.eqb key "index" then VBig n else VStr (dec n))].
Proof.
  intros Hn. unfold deserialize. cbn [serialize map fst snd].
  change (revive "" (JObj [(key, JStr (dec n))]))
    with (VObj [(key, reviver key (VStr (dec n)))]).
  f_equal. f_equal. f_equal.
  destruct (String.eqb_spec key "index") as [-> | Hne].
  - now apply reviver_big.
  - unfold reviver. now rewrite (proj2 (String.eqb_neq _ _) Hne).
Qed.

Lemma send_never_reports_witness :
  send (fun _ => "{}") (Object (VObj [])) true None failing_socket
  = [SendAndWait (Some "{}"); SendAndWait None]
  /\ ~ In ErrorHandler (send (fun _ => "{}") (Object (VObj [])) true None failing_socket).
Proof.
  split; [ reflexivity | ].
  apply (send_never_reports (fun _ => "{}") (Object (VObj [])) true failing_socket).
Defined.

Lemma dateString_shape_witness :
  String.length (dateString 2021 11 9 8 5 0 7) = 23%nat
  /\ dateString 2021 11 9 8 5 0 7 = "2021/12/09 08:05:00:007".
Proof.
  destruct (dateString_shape 2021 11 9 8 5 0 7) as [Hlength _]; try lia.
  split; [ exact Hlength | reflexivity ].
Defined.

Lemma bigint_only_under_index_witness :
  deserialize (serialize (VObj [("sequence", VBig 12)])) = VObj [("sequence", VStr "12")]
  /\ deserialize (serialize (VObj [("index", VBig 12)])) = VObj [("index", VBig 12)].
Proof.
  split.
  - apply (bigint_only_under_index "sequence" 12). lia.
  - apply (bigint_only_under_index "index" 12). lia.
Defined.

End TransportProps.
